(** * Therma-Snaps thermal-printer driver: ditherer, ESC/POS frame encoder
    and chunked Bluetooth transport of [src/App.js] ([class ThermalPrinter]).

    Byte buffers ([Uint8ClampedArray], [Uint8Array], the [commands] array)
    are lists of [Z]; the [Float32Array] of the ditherer is a list of
    binary64 floats, every store rounding to binary32 the way a typed
    array does; JavaScript arithmetic is IEEE-754 double arithmetic, its
    bitwise operators work on 32-bit integers. *)

From Stdlib Require Import ZArith Lia Floats String.
From stdpp Require Import base list.
From Equations Require Import Equations.

Set Warnings "-inexact-float".
Local Open Scope Z_scope.

(** ** JavaScript numbers *)

Module JS.

(** [ToInt32]: wrap into the signed 32-bit range. *)
Definition toInt32 (z : Z) : Z := (z + 2 ^ 31) mod 2 ^ 32 - 2 ^ 31.

(** [a & b], [a | b], [a << n], [a >> n] on integral numbers. *)
Definition band (a b : Z) : Z := Z.land (toInt32 a) (toInt32 b).
Definition bor (a b : Z) : Z := Z.lor (toInt32 a) (toInt32 b).
Definition shl (a n : Z) : Z := toInt32 (Z.shiftl (toInt32 a) (n mod 32)).
Definition sar (a n : Z) : Z := Z.shiftr (toInt32 a) (n mod 32).

(** Conversion of a pushed number when [new Uint8Array(commands)] copies
    the array. *)
Definition toUint8 (z : Z) : Z := z mod 256.

(** [Math.ceil(a / 8)] for an integral [a]: the quotient by a power of
    two is exact in binary64, so the result is the integer ceiling. *)
Definition ceil_div8 (a : Z) : Z := (a + 7) / 8.

(** An integral number as a double (exact below 2^53). *)
Definition of_Z (z : Z) : float :=
  if z <? 0 then (- of_uint63 (Uint63.of_Z (- z)))%float
  else of_uint63 (Uint63.of_Z z).

(** [Math.fround]: the value a [Float32Array] slot holds after a store
    (round to nearest even, binary32: precision 24, emax 128). *)
Definition fround (x : float) : float :=
  match Prim2SF x with
  | S754_finite s m e => SF2Prim (binary_round 24 128 s m e)
  | _ => x
  end.

(** A finite double is [n * 2^e] for its signed integral significand
    [n]; [Z.shiftl n e] is that product for [0 <= e] and the quotient
    of [n] by [2^(-e)], rounded towards minus infinity, for [e < 0]. *)
Definition floorZ (x : float) : option Z :=
  match Prim2SF x with
  | S754_zero _ => Some 0
  | S754_finite s m e => Some (Z.shiftl (if s then Z.neg m else Z.pos m) e)
  | _ => None
  end.

(** [Math.floor]: NaN, the infinities, the zeros and the doubles
    without a fractional part are returned as they are. *)
Definition Math_floor (x : float) : float :=
  match Prim2SF x with
  | S754_finite _ _ e =>
      if 0 <=? e then x
      else match floorZ x with Some n => of_Z n | None => x end
  | _ => x
  end.

(** Conversion to a Web IDL [unsigned long]: NaN and the infinities
    give 0, a finite number is truncated towards zero and wrapped
    modulo 2^32. *)
Definition toUnsignedLong (x : float) : Z :=
  match Prim2SF x with
  | S754_finite s m e =>
      let t := Z.shiftl (Z.pos m) e in
      (if s then - t else t) mod 2 ^ 32
  | _ => 0
  end.

(** The setter of a reflected [unsigned long] attribute such as
    [canvas.width] and [canvas.height]: the number is converted, and
    kept if it is at most 2147483647; above that the attribute falls
    back to its default. *)
Definition reflectUnsignedLong (default : Z) (x : float) : Z :=
  let v := toUnsignedLong x in
  if v <=? 2147483647 then v else default.

(** Typed arrays: a read out of range is [undefined] (NaN once used in
    arithmetic), a write out of range is dropped. *)
Definition f32_get (a : list float) (i : Z) : float :=
  if i <? 0 then nan else default nan (a !! Z.to_nat i).
Definition f32_set (a : list float) (i : Z) (v : float) : list float :=
  if i <? 0 then a else <[Z.to_nat i := fround v]> a.
Definition u8_get (a : list Z) (i : Z) : option Z :=
  if i <? 0 then None else a !! Z.to_nat i.

End JS.

(** ** Data model *)

(** [ImageData]: [width], [height] and the RGBA bytes, four per pixel. *)
Record ImageData := mkImageData {
  width : Z;
  height : Z;
  data : list Z
}.

(** ** The ditherer: [ThermalPrinter.applyDithering] *)

Section Dithering.
Local Open Scope float_scope.

(** The local closure [distribute(dx, dy, factor)] at pixel [(x, y)]
    with quantisation error [error]. The chained assignment stores
    [v] rightmost slot first. *)
Definition distribute (w h x y : Z) (error : float)
    (d : list float) (dx dy : Z) (factor : float) : list float :=
  if ((0 <=? x + dx) && (x + dx <? w) && (0 <=? y + dy) && (y + dy <? h))%Z
  then
    let nIdx := (((y + dy) * w + (x + dx)) * 4)%Z in
    let v := JS.f32_get d nIdx + error * factor in
    JS.f32_set (JS.f32_set (JS.f32_set d (nIdx + 2)%Z v) (nIdx + 1)%Z v) nIdx v
  else d.

(** The grey level the loop body computes for the pixel at [idx]. *)
Definition grayAt (d : list float) (idx : Z) : float :=
  let gray := JS.f32_get d idx * 0.299
              + JS.f32_get d (idx + 1)%Z * 0.587
              + JS.f32_get d (idx + 2)%Z * 0.114 in
  if 255 <? gray then 255 else gray.

(** One iteration of the inner loop, at pixel [(x, y)]. *)
Definition ditherPixel (w h y : Z) (d : list float) (x : Z) : list float :=
  let idx := ((y * w + x) * 4)%Z in
  let oldVal := grayAt d idx in
  let newVal := if oldVal <? 128 then 0 else 255 in
  let error := oldVal - newVal in
  let d0 := JS.f32_set d idx newVal in
  let d1 := distribute w h x y error d0 1 0 (7 / 16) in
  let d2 := distribute w h x y error d1 (-1) 1 (3 / 16) in
  let d3 := distribute w h x y error d2 0 1 (5 / 16) in
  distribute w h x y error d3 1 1 (1 / 16).

(** [for (let x = 0; x < width; x++)] and the loop over [y] around it. *)
Definition ditherRow (w h : Z) (d : list float) (y : Z) : list float :=
  foldl (ditherPixel w h y) d (seqZ 0 w).
Definition ditherLoop (w h : Z) (d : list float) : list float :=
  foldl (ditherRow w h) d (seqZ 0 h).

(** [finalData[i] = data[i] < 128 ? 0 : 255]. *)
Definition threshold (v : float) : Z := if v <? 128 then 0%Z else 255%Z.

Definition applyDithering (imageData : ImageData) : ImageData :=
  let w := width imageData in
  let h := height imageData in
  let d := map (fun b => JS.fround (JS.of_Z b)) (data imageData) in
  let d' := ditherLoop w h d in
  mkImageData w h (map threshold d').

End Dithering.

(** ** The frame encoder: [ThermalPrinter.convertToESCPOS] *)

(** The innermost loop over [b]: the byte packed for byte column [x] of
    row [y]; a slot that is out of range compares unequal to 0. *)
Definition packBit (w : Z) (d : list Z) (y x : Z) (byte b : Z) : Z :=
  let pixelX := x * 8 + b in
  if pixelX <? w then
    let offset := (y * w + pixelX) * 4 in
    match JS.u8_get d offset with
    | Some 0 => JS.bor byte (JS.shl 1 (7 - b))
    | _ => byte
    end
  else byte.

Definition packByte (w : Z) (d : list Z) (y x : Z) : Z :=
  foldl (packBit w d y x) 0 (seqZ 0 8).

(** The loops over [x] and [y], pushing one byte per iteration. *)
Definition pushRow (w bytesPerLine : Z) (d : list Z)
    (commands : list Z) (y : Z) : list Z :=
  foldl (fun cmds x => cmds ++ [packByte w d y x]) commands (seqZ 0 bytesPerLine).

Definition pushRows (w h bytesPerLine : Z) (d : list Z)
    (commands : list Z) : list Z :=
  foldl (pushRow w bytesPerLine d) commands (seqZ 0 h).

(** Everything after the call of [applyDithering], on its result. *)
Definition encodeRaster (mono : ImageData) : list Z :=
  let w := width mono in
  let h := height mono in
  let d := data mono in
  let commands := [0x1B; 0x40] in
  let bytesPerLine := JS.ceil_div8 w in
  let commands := commands ++ [0x1D; 0x76; 0x30; 0] in
  let commands := commands ++ [JS.band bytesPerLine 0xff] in
  let commands := commands ++ [JS.band (JS.sar bytesPerLine 8) 0xff] in
  let commands := commands ++ [JS.band h 0xff] in
  let commands := commands ++ [JS.band (JS.sar h 8) 0xff] in
  let commands := pushRows w h bytesPerLine d commands in
  let commands := commands ++ [0x1B; 0x64; 0x02] in
  let commands := commands ++ [0x1D; 0x56; 0x01] in
  map JS.toUint8 commands.

Definition convertToESCPOS (imageData : ImageData) : list Z :=
  encodeRaster (applyDithering imageData).

(** The row data of the frame: one packed byte per byte column, row after
    row. *)
Definition rasterRow (mono : ImageData) (y : Z) : list Z :=
  map (packByte (width mono) (data mono) y) (seqZ 0 (JS.ceil_div8 (width mono))).
Definition rasterRows (mono : ImageData) : list Z :=
  concat (map (rasterRow mono) (seqZ 0 (height mono))).

(** A 16-bit field as the device reads it: low byte first. *)
Definition le16 (n : Z) : list Z := [n mod 256; (n / 256) mod 256].
Definition le16_value (bs : list Z) : Z :=
  match bs with
  | [lo; hi] => lo + 256 * hi
  | _ => 0
  end.

(** The pixel at column [px] of row [py] is print-black: its first slot
    holds 0. *)
Definition isBlack (mono : ImageData) (px py : Z) : bool :=
  match JS.u8_get (data mono) ((py * width mono + px) * 4) with
  | Some 0 => true
  | _ => false
  end.

(** The bit the inner loop contributes for position [b] of byte column
    [x] in row [y]. *)
Definition bitAt (mono : ImageData) (y x b : Z) : bool :=
  (x * 8 + b <? width mono) && isBlack mono (x * 8 + b) y.

(** Eight bits, leftmost first, as a number. *)
Definition byteOfBits (bs : list bool) : Z :=
  foldl (fun acc (b : bool) => 2 * acc + (if b then 1 else 0)) 0 bs.

(** ** The transport: [ThermalPrinter.printImage] *)

(** What a call can throw: the [Error] the method constructs itself, the
    [error] event of an image that does not decode, the [TypeError] of a
    call through a null [characteristic], the rejection of a
    [writeValue] promise, and an exception of the canvas API. *)
Inductive exn :=
| Error (message : string)
| ImageLoadError
| TypeError
| WriteRejected
| DOMException (name : string).

Inductive completion (A : Type) :=
| Normal (a : A)
| Throw (e : exn).
Arguments Normal {A} a.
Arguments Throw {A} e.

(** What reaches the outside world, in order: a chunk the device accepted,
    and a timer the method waited for. *)
Inductive event :=
| EvWrite (chunk : list Z)
| EvDelay (ms : Z).

(** The GATT characteristic: whether its [k]-th [writeValue] of the job
    resolves ([true]) or rejects. *)
Record Characteristic := mkCharacteristic {
  writeValue : nat -> list Z -> bool
}.

(** [device.gatt.connected] is all the method reads of the device. *)
Record BluetoothDevice := mkDevice {
  gatt_connected : bool
}.

(** The fields of the printer object; [None] is [null]. *)
Record ThermalPrinter := mkPrinter {
  device : option BluetoothDevice;
  characteristic : option Characteristic
}.

(** The browser around the method: the natural size of the image a URL
    decodes to ([None]: the [error] event fires), and what
    [getImageData(0, 0, sw, sh)] yields for a rectangle that is not
    empty, on the canvas once the image is drawn. *)
Record Env := mkEnv {
  loadImage : string -> option (Z * Z);
  getImageData : Z -> Z -> completion ImageData
}.

Definition chunkSize : nat := 512.

(** The size given to the canvas for a decoded image of size
    [imgW] x [imgH]: [printerWidth] and
    [Math.floor(printerWidth * (img.height / img.width))], each through
    the setter of the canvas attribute (defaults 300 and 150) and read
    back from it. *)
Definition canvasSize (imgW imgH : Z) : Z * Z :=
  let printerWidth := 384%float in
  let aspectRatio := (JS.of_Z imgH / JS.of_Z imgW)%float in
  (JS.reflectUnsignedLong 300 printerWidth,
   JS.reflectUnsignedLong 150 (JS.Math_floor (printerWidth * aspectRatio))).

(** [ctx.getImageData(0, 0, sw, sh)]: as the HTML Standard has it, an
    empty rectangle is refused with [IndexSizeError]; for any other the
    browser answers. *)
Definition readPixels (env : Env) (sw sh : Z) : completion ImageData :=
  if (sw =? 0) || (sh =? 0) then Throw (DOMException "IndexSizeError")
  else getImageData env sw sh.

(** Lines 41 to 63: load the image, size the canvas, draw, read the
    pixels back. *)
Definition resample (env : Env) (imageDataUrl : string) : completion ImageData :=
  match loadImage env imageDataUrl with
  | None => Throw ImageLoadError
  | Some (imgW, imgH) =>
      let '(cw, ch) := canvasSize imgW imgH in
      readPixels env cw ch
  end.

(** The loop [for (let i = 0; i < thermalData.length; i += chunkSize)]:
    [k] counts the writes already made. *)
Equations? sendChunks (c : option Characteristic) (thermalData : list Z)
    (i k : nat) : list event * completion unit
    by wf (length thermalData - i)%nat lt :=
  sendChunks c thermalData i k with decide (i < length thermalData)%nat => {
    | right _ => ([], Normal tt)
    | left _ =>
        let chunk := take chunkSize (drop i thermalData) in
        match c with
        | None => ([], Throw TypeError)
        | Some ch =>
            if writeValue ch k chunk then
              let r := sendChunks c thermalData (i + chunkSize)%nat (S k) in
              (EvWrite chunk :: r.1, r.2)
            else ([], Throw WriteRejected)
        end }.
Proof. unfold chunkSize. lia. Qed.

Definition notConnected (this : ThermalPrinter) : bool :=
  match device this with
  | None => true
  | Some dev => negb (gatt_connected dev)
  end.

Definition printImage (this : ThermalPrinter) (env : Env)
    (imageDataUrl : string) : list event * completion unit :=
  if notConnected this then ([], Throw (Error "Printer not connected"))
  else
    match resample env imageDataUrl with
    | Throw e => ([], Throw e)
    | Normal imageData =>
        let thermalData := convertToESCPOS imageData in
        sendChunks (characteristic this) thermalData 0 0
    end.

(** The second [ThermalPrinter] class of the file (the banded bit-image
    variant): its send loop waits 50 ms after every write. *)
Module Legacy.

Equations? sendChunksDelayed (c : option Characteristic) (thermalData : list Z)
    (i k : nat) : list event * completion unit
    by wf (length thermalData - i)%nat lt :=
  sendChunksDelayed c thermalData i k with decide (i < length thermalData)%nat => {
    | right _ => ([], Normal tt)
    | left _ =>
        let chunk := take chunkSize (drop i thermalData) in
        match c with
        | None => ([], Throw TypeError)
        | Some ch =>
            if writeValue ch k chunk then
              let r := sendChunksDelayed c thermalData (i + chunkSize)%nat (S k) in
              (EvWrite chunk :: EvDelay 50 :: r.1, r.2)
            else ([], Throw WriteRejected)
        end }.
Proof. unfold chunkSize. lia. Qed.

End Legacy.

(** ** Vocabulary of the specification *)

(** The chunks written, in write order. *)
Fixpoint writes (tr : list event) : list (list Z) :=
  match tr with
  | [] => []
  | EvWrite chunk :: tr' => chunk :: writes tr'
  | EvDelay _ :: tr' => writes tr'
  end.

(** A delay separates every two consecutive writes. *)
Fixpoint paced (tr : list event) : bool :=
  match tr with
  | [] => true
  | EvWrite _ :: tr' =>
      match tr' with
      | EvWrite _ :: _ => false
      | _ => paced tr'
      end
  | EvDelay _ :: tr' => paced tr'
  end.

(** The encoder as the contract [encode] of the specification: the source
    has no [throw] on this path, every image completes normally. *)
Definition encode (mono : ImageData) : completion (list Z) :=
  Normal (encodeRaster mono).

(** The typed errors the specification names; the driver has no such
    values, they stand for an [Error] carrying that name. *)
Definition FrameTooLarge : exn := Error "FrameTooLarge".
Definition InvalidImage : exn := Error "InvalidImage".

(** A source image is solid black: the buffer has four slots per pixel
    and every colour slot (all but each fourth, the alpha) holds 0. *)
Definition solidBlack (img : ImageData) : Prop :=
  Z.of_nat (length (data img)) = 4 * width img * height img /\
  forall (i : nat) b, data img !! i = Some b -> Z.of_nat i mod 4 <> 3 -> b = 0.

(** The same of the float buffer the ditherer works on. *)
Definition rgbZero (d : list float) : Prop :=
  forall i, 0 <= i < Z.of_nat (length d) -> i mod 4 <> 3 ->
            JS.f32_get d i = 0%float.

(** Inputs used as examples. *)
Definition whitePixel : ImageData := mkImageData 1 1 [255; 255; 255; 255].

(** A raster one byte column wide and 65536 rows high, all white. *)
Definition tallRaster : ImageData :=
  mkImageData 8 65536 (replicate (Z.to_nat (4 * 8 * 65536)) 255).

(** A characteristic that accepts every write, a connected printer that
    owns it, and a printer whose link is down. *)
Definition acceptAll : Characteristic := mkCharacteristic (fun _ _ => true).
Definition connectedPrinter : ThermalPrinter :=
  mkPrinter (Some (mkDevice true)) (Some acceptAll).
Definition droppedPrinter : ThermalPrinter :=
  mkPrinter (Some (mkDevice false)) (Some acceptAll).

(** A browser that decodes every URL to an image of [imgW] x [imgH] and
    whose canvas reads back white; as the HTML Standard has it,
    [getImageData] throws [IndexSizeError] for an empty rectangle. *)
Definition whiteCanvas (sw sh : Z) : ImageData :=
  mkImageData sw sh (replicate (Z.to_nat (4 * sw * sh)) 255).
Definition browser (imgW imgH : Z) : Env :=
  mkEnv (fun _ => Some (imgW, imgH))
        (fun sw sh =>
           if (sw =? 0) || (sh =? 0) then Throw (DOMException "IndexSizeError")
           else Normal (whiteCanvas sw sh)).

(** What the HTML Standard asks of [getImageData] on a rectangle that
    is not empty: the [ImageData] has the size of the rectangle and
    four bytes per pixel. *)
Definition standardCanvas (env : Env) : Prop :=
  forall sw sh img, getImageData env sw sh = Normal img ->
    width img = sw /\ height img = sh
    /\ Z.of_nat (length (data img)) = 4 * sw * sh.

(** What a run of the send loop that started at offset [i] has done:
    only writes, each chunk non-empty and at most [chunkSize] long, the
    [j]-th being the slice at offset [i + chunkSize * j]; together they
    are a prefix of the rest of the frame, and all of it if the loop
    completed. *)
Definition wroteFrom (thermalData : list Z) (i : nat)
    (r : list event * completion unit) : Prop :=
  r.1 = map EvWrite (writes r.1)
  /\ Forall (fun chunk => (0 < length chunk <= chunkSize)%nat) (writes r.1)
  /\ (forall j chunk, writes r.1 !! j = Some chunk ->
        chunk = take chunkSize (drop (i + chunkSize * j) thermalData)
        /\ (i + chunkSize * j < length thermalData)%nat)
  /\ concat (writes r.1)
     = take (chunkSize * length (writes r.1)) (drop i thermalData)
  /\ (r.2 = Normal tt -> concat (writes r.1) = drop i thermalData).

(** A black pixel followed by a pure red one. *)
Definition blackThenRed : ImageData :=
  mkImageData 2 1 [0; 0; 0; 255; 200; 0; 0; 255].

(** The bits of a raster in scan order, [true] for print-black. *)
Definition monoBits (mono : ImageData) : list bool :=
  y ← seqZ 0 (height mono); x ← seqZ 0 (width mono); [isBlack mono x y].

(** ** The ditherer as the specification words it

    Luminance of every pixel first, clamped to [0, 255]; then one pass
    in scan order that thresholds the current value at 128 and adds the
    quantisation error to the luminance of the four neighbours not yet
    visited. *)
Module Spec.
Section Dither.
Local Open Scope float_scope.

Definition clamp (v : float) : float :=
  if v <? 0 then 0 else if 255 <? v then 255 else v.

Definition luminance (r g b : float) : float :=
  clamp (0.299 * r + 0.587 * g + 0.114 * b).

Definition channel (img : ImageData) (i : Z) : float :=
  match JS.u8_get (data img) i with
  | Some b => JS.of_Z b
  | None => nan
  end.

Definition luminancePlane (img : ImageData) : list float :=
  map (fun p => luminance (channel img (4 * p)) (channel img (4 * p + 1))
                  (channel img (4 * p + 2)))
      (seqZ 0 (width img * height img)).

Definition plane_get (L : list float) (i : Z) : float :=
  if (i <? 0)%Z then nan else default nan (L !! Z.to_nat i).

Definition addError (w h : Z) (L : list float) (x y : Z)
    (e weight : float) : list float :=
  if ((0 <=? x) && (x <? w) && (0 <=? y) && (y <? h))%Z then
    <[Z.to_nat (y * w + x) := plane_get L (y * w + x)%Z + e * weight]> L
  else L.

Definition visit (w h y : Z) (st : list float * list bool) (x : Z)
    : list float * list bool :=
  let '(L, out) := st in
  let oldValue := plane_get L (y * w + x)%Z in
  let black := oldValue <? 128 in
  let chosenValue := if black then 0 else 255 in
  let e := oldValue - chosenValue in
  let L := addError w h L (x + 1) y e (7 / 16) in
  let L := addError w h L (x - 1) (y + 1) e (3 / 16) in
  let L := addError w h L x (y + 1) e (5 / 16) in
  let L := addError w h L (x + 1) (y + 1) e (1 / 16) in
  (L, out ++ [black]).

Definition dither (img : ImageData) : list bool :=
  let w := width img in
  let h := height img in
  (foldl (fun st y => foldl (visit w h y) st (seqZ 0 w))
         (luminancePlane img, []) (seqZ 0 h)).2.

End Dither.
End Spec.

(** A double that is a zero, an infinity or NaN. *)
Definition flat (x : float) : Prop :=
  match Prim2SF x with
  | S754_finite _ _ _ => False
  | _ => True
  end.

(** Two buffers of the ditherer agree on the red slot of every pixel and
    on the green and blue slots of the pixels in [T] (pixels are named
    by their scan index [y * width + x]). *)
Definition agree (T : Z -> Prop) (d d' : list float) : Prop :=
  length d = length d'
  /\ (forall q, JS.f32_get d (q * 4) = JS.f32_get d' (q * 4))
  /\ (forall q, T q ->
        JS.f32_get d (q * 4 + 1) = JS.f32_get d' (q * 4 + 1)
        /\ JS.f32_get d (q * 4 + 2) = JS.f32_get d' (q * 4 + 2)).

(** The pixels some [distribute] has written by the time the loop
    reaches [(x, y)], and the first pixel: the rows above, row [y] up to
    column [x] (all of it below the first row), row [y + 1] up to
    column [x] once [x] is past the first column. *)
Definition touched (w x y : Z) (r : Z) : Prop :=
  r <= y * w + x
  \/ (1 <= y /\ r < (y + 1) * w)
  \/ (1 <= x /\ (y + 1) * w <= r <= (y + 1) * w + x /\ r < (y + 2) * w).

(** ** The pipeline on the heap

    [applyDithering] and [convertToESCPOS] once more, with the typed
    arrays where JavaScript has them: on a heap that every call reads
    and extends. The pixel array of an image is shared with whoever
    holds the image; the arrays a call makes with [new] are its own. *)

Module Heap.
Local Open Scope float_scope.

Inductive typedArray :=
| Uint8ClampedArray (a : list Z)
| Float32Array (a : list float).

(** The heap is the list of the arrays made so far: a reference is an
  index into it, [new] appends. *)

Definition new (hp : list typedArray) (a : typedArray)
  : list typedArray * nat :=
(hp ++ [a], length hp).

(** An [ImageData], or the plain object [applyDithering] returns: two
  numbers and a reference to the pixel array. *)
Record ImageDataRef := mkRef {
ref_width : Z;
ref_height : Z;
ref_data : nat
}.

(** [data[i]] and [data[i] = v] on the [Float32Array] at [r]. *)
Definition load (hp : list typedArray) (r : nat) (i : Z) : float :=
match hp !! r with
| Some (Float32Array a) => JS.f32_get a i
| _ => nan
end.
Definition store (hp : list typedArray) (r : nat) (i : Z) (v : float)
  : list typedArray :=
match hp !! r with
| Some (Float32Array a) => <[r := Float32Array (JS.f32_set a i v)]> hp
| _ => hp
end.

(** The closure [distribute(dx, dy, factor)] at pixel [(x, y)]: one
  load and three stores on [data]. *)
Definition distribute (data : nat) (w h x y : Z) (error : float)
  (hp : list typedArray) (dx dy : Z) (factor : float) : list typedArray :=
if ((0 <=? x + dx) && (x + dx <? w) && (0 <=? y + dy) && (y + dy <? h))%Z
then
  let nIdx := (((y + dy) * w + (x + dx)) * 4)%Z in
  let v := load hp data nIdx + error * factor in
  store (store (store hp data (nIdx + 2)%Z v) data (nIdx + 1)%Z v) data nIdx v
else hp.

(** One iteration of the inner loop, at pixel [(x, y)]. *)
Definition ditherPixel (data : nat) (w h y : Z) (hp : list typedArray)
  (x : Z) : list typedArray :=
let idx := ((y * w + x) * 4)%Z in
let gray := load hp data idx * 0.299
            + load hp data (idx + 1)%Z * 0.587
            + load hp data (idx + 2)%Z * 0.114 in
let gray := if 255 <? gray then 255 else gray in
let oldVal := gray in
let newVal := if oldVal <? 128 then 0 else 255 in
let error := oldVal - newVal in
let hp := store hp data idx newVal in
let hp := distribute data w h x y error hp 1 0 (7 / 16) in
let hp := distribute data w h x y error hp (-1) 1 (3 / 16) in
let hp := distribute data w h x y error hp 0 1 (5 / 16) in
distribute data w h x y error hp 1 1 (1 / 16).

Definition ditherRow (data : nat) (w h : Z) (hp : list typedArray) (y : Z)
  : list typedArray :=
foldl (ditherPixel data w h y) hp (seqZ 0 w).
Definition ditherLoop (data : nat) (w h : Z) (hp : list typedArray)
  : list typedArray :=
foldl (ditherRow data w h) hp (seqZ 0 h).

(** [applyDithering(imageData)]: [new Float32Array(imageData.data)]
  copies the pixels into an array of the call's own, the loops work
  on that copy, [new Uint8ClampedArray(data.length)] is filled from
  it and returned in a new object. The [data] of an [ImageData] is a
  [Uint8ClampedArray]; nothing else is modelled ([None]). *)
Definition applyDithering (imageData : ImageDataRef) (hp : list typedArray)
  : option (ImageDataRef * list typedArray) :=
let width := ref_width imageData in
let height := ref_height imageData in
match hp !! ref_data imageData with
| Some (Uint8ClampedArray bytes) =>
    let '(hp, data) :=
      new hp (Float32Array (map (fun b => JS.fround (JS.of_Z b)) bytes)) in
    let hp := ditherLoop data width height hp in
    match hp !! data with
    | Some (Float32Array d) =>
        let '(hp, finalData) :=
          new hp (Uint8ClampedArray (map threshold d)) in
        Some (mkRef width height finalData, hp)
    | _ => None
    end
| _ => None
end.

(** [convertToESCPOS(imageData)]: the encoder reads the array
  [applyDithering] returned; [commands] and the [Uint8Array] made of
  it are the call's own and are handed back by value. *)
Definition convertToESCPOS (imageData : ImageDataRef) (hp : list typedArray)
  : option (list Z * list typedArray) :=
match applyDithering imageData hp with
| Some (mono, hp) =>
    match hp !! ref_data mono with
    | Some (Uint8ClampedArray data) =>
        Some (encodeRaster (mkImageData (ref_width mono) (ref_height mono) data),
              hp)
    | _ => None
    end
| None => None
end.

(** A heap that holds one image of two pixels, a black one and a red
  one, besides an array of somebody else. *)
Definition sampleHeap : list typedArray :=
[Float32Array [1; 2; 3]; Uint8ClampedArray [0; 0; 0; 255; 200; 0; 0; 255]%Z].
Definition sampleImage : ImageDataRef := mkRef 2%Z 1%Z 1.

End Heap.

(** A heap-level step that stays on the array at [r] and does there
    what [f] does to its contents. *)
Definition actsOn (r : nat)
    (step : list Heap.typedArray -> list Heap.typedArray)
    (f : list float -> list float) : Prop :=
  forall hp d, hp !! r = Some (Heap.Float32Array d) ->
               step hp = <[r := Heap.Float32Array (f d)]> hp.

(** ** Rounding to nearest, ties to even

    The vocabulary for what [SFdiv] and [SFmul] of the specification of
    binary64 do to a quotient [A / B] of integers. *)

(** [A / B] rounded to the nearest integer, a tie going to the even
    one. *)
Definition rne (A B : Z) : Z :=
  match 2 * (A mod B) ?= B with
  | Lt => A / B
  | Eq => if Z.even (A / B) then A / B else A / B + 1
  | Gt => A / B + 1
  end.

(** Where [A / B] lies between two consecutive integers. *)
Definition locQ (A B : Z) : location :=
  if A mod B =? 0 then loc_Exact else loc_Inexact (2 * (A mod B) ?= B).

(** A shift record holds the integral part of [A / B] and the position
    of the rest. *)
Definition encodes (mrs : shr_record) (A B : Z) : Prop :=
  shr_m mrs = A / B /\ loc_of_shr_record mrs = locQ A B.

(** A rounded significand of 53 bits, or 2^53 after a carry, as a
    double. *)
Definition norm53 (R e : Z) : spec_float :=
  if R =? 2 ^ 53 then S754_finite false (Z.to_pos (2 ^ 52)) (e + 1)
  else S754_finite false (Z.to_pos R) e.

(** ** Further vocabulary *)

(** A source image is solid white: four slots per pixel, every colour
    slot holds 255. *)
Definition solidWhite (img : ImageData) : Prop :=
  Z.of_nat (length (data img)) = 4 * width img * height img /\
  forall (i : nat) b, data img !! i = Some b -> Z.of_nat i mod 4 <> 3 -> b = 255.

(** Every colour slot of the float buffer holds 255. *)
Definition rgbFull (d : list float) : Prop :=
  forall i, 0 <= i < Z.of_nat (length d) -> i mod 4 <> 3 ->
            JS.f32_get d i = 255%float.

(** A characteristic that accepts the first [k] writes of a job and
    rejects the next one. *)
Definition rejectAt (k : nat) : Characteristic :=
  mkCharacteristic (fun j _ => negb (Nat.eqb j k)).

(** A black pixel followed by one with the red of [blackThenRed] and
    other green, blue and alpha bytes. *)
Definition blackThenOrange : ImageData :=
  mkImageData 2 1 [0; 0; 0; 255; 200; 120; 40; 9].

(** ** [connect] and [disconnect] *)

(** What the Web Bluetooth calls of [connect] answer, in the order of
    the calls; a [Throw] is a rejected promise. *)
Record Bluetooth := mkBluetooth {
  requestDevice : completion BluetoothDevice;
  gattConnect : completion unit;
  getPrimaryService : completion unit;
  getCharacteristic : completion Characteristic
}.

(** The object [new ThermalPrinter()] builds. *)
Definition newPrinter : ThermalPrinter := mkPrinter None None.

(** [connect]: the fields are assigned as the awaited calls resolve, the
    [catch] logs and rethrows. Once [gatt.connect()] has resolved the
    device reports the link up. *)
Definition connect (this : ThermalPrinter) (bt : Bluetooth)
    : ThermalPrinter * completion bool :=
  match requestDevice bt with
  | Throw e => (this, Throw e)
  | Normal dev =>
      let this := mkPrinter (Some dev) (characteristic this) in
      match gattConnect bt with
      | Throw e => (this, Throw e)
      | Normal _ =>
          let this := mkPrinter (Some (mkDevice true)) (characteristic this) in
          match getPrimaryService bt with
          | Throw e => (this, Throw e)
          | Normal _ =>
              match getCharacteristic bt with
              | Throw e => (this, Throw e)
              | Normal c => (mkPrinter (device this) (Some c), Normal true)
              end
          end
      end
  end.

(** [disconnect]: [gatt.disconnect()] is called on a device that reports
    the link up, and brings it down; both fields stay assigned. What
    the device answers to the writes of a later job is not decided
    here but by the characteristic that job is run with: on a link
    that is down Web Bluetooth rejects every write ([linkDown]). *)
Definition disconnect (this : ThermalPrinter) : ThermalPrinter :=
  match device this with
  | Some dev =>
      if gatt_connected dev
      then mkPrinter (Some (mkDevice false)) (characteristic this)
      else this
  | None => this
  end.

(** The characteristic of a device whose link is down: every
    [writeValue] is rejected. *)
Definition linkDown : Characteristic := mkCharacteristic (fun _ _ => false).

(** ** The second class: the banded bit-image encoder and its
    [printImage] *)
Module Banded.

(** A slot of the [Uint8ClampedArray] as a number. *)
Definition slot (d : list Z) (i : Z) : float :=
  match JS.u8_get d i with
  | Some b => JS.of_Z b
  | None => nan
  end.

(** [data[offset] * 0.3 + data[offset + 1] * 0.59 + data[offset + 2] * 0.11]. *)
Definition grayOf (d : list Z) (offset : Z) : float :=
  (slot d offset * 0.3 + slot d (offset + 1) * 0.59
   + slot d (offset + 2) * 0.11)%float.

(** The loop over [b]: one byte of column [x], the [k]-th of the three
    of the band that starts at row [y]. *)
Definition columnBit (w h : Z) (d : list Z) (y x k : Z) (byte b : Z) : Z :=
  let py := y + k * 8 + b in
  if py <? h then
    let offset := (py * w + x) * 4 in
    if (grayOf d offset <? 128)%float then JS.bor byte (JS.shl 1 (7 - b))
    else byte
  else byte.

Definition columnByte (w h : Z) (d : list Z) (y x k : Z) : Z :=
  foldl (columnBit w h d y x k) 0 (seqZ 0 8).

(** The loops over [k] and [x]. *)
Definition pushColumn (w h : Z) (d : list Z) (y : Z)
    (commands : list Z) (x : Z) : list Z :=
  foldl (fun cmds k => cmds ++ [columnByte w h d y x k]) commands (seqZ 0 3).

(** The body of the loop over [y]: select the bit-image mode, the width,
    the columns, a line feed. *)
Definition pushBand (w h : Z) (d : list Z) (commands : list Z) (y : Z)
    : list Z :=
  let commands := commands ++ [0x1B; 0x2A; 33] in
  let commands := commands ++ [JS.band w 0xFF; JS.band (JS.sar w 8) 0xFF] in
  let commands := foldl (pushColumn w h d y) commands (seqZ 0 w) in
  commands ++ [0x0A].

(** [for (let y = 0; y < height; y += 24)]. *)
Equations? pushBands (w h : Z) (d : list Z) (y : Z) (commands : list Z)
    : list Z by wf (Z.to_nat (h - y)) lt :=
  pushBands w h d y commands with decide (y < h) => {
    | left _ => pushBands w h d (y + 24) (pushBand w h d commands y)
    | right _ => commands }.
Proof. lia. Qed.

Definition convertToESCPOS (imageData : ImageData) : list Z :=
  let w := width imageData in
  let h := height imageData in
  let d := data imageData in
  let commands := [0x1B; 0x40] in
  let commands := commands ++ [0x1B; 0x61; 0x01] in
  let commands := pushBands w h d 0 commands in
  let commands := commands ++ [0x1B; 0x64; 0x05] in
  let commands := commands ++ [0x1D; 0x56; 0x01] in
  map JS.toUint8 commands.

(** [printImage] of this class: the guard reads [this.characteristic]
    only; the send loop is [Legacy.sendChunksDelayed]. *)
Definition printImage (this : ThermalPrinter) (env : Env)
    (imageDataUrl : string) : list event * completion unit :=
  match characteristic this with
  | None => ([], Throw (Error "Printer not connected"))
  | Some _ =>
      match resample env imageDataUrl with
      | Throw e => ([], Throw e)
      | Normal imageData =>
          let thermalData := convertToESCPOS imageData in
          Legacy.sendChunksDelayed (characteristic this) thermalData 0 0
      end
  end.

(** The pixel at column [px] of row [py] is dark for this encoder. *)
Definition isDark (img : ImageData) (px py : Z) : bool :=
  (grayOf (data img) ((py * width img + px) * 4) <? 128)%float.

(** The bytes of the band that starts at row [y], between the width
    field and the line feed: three per column. *)
Definition bandColumns (img : ImageData) (y : Z) : list Z :=
  concat (map (fun x => map (columnByte (width img) (height img) (data img) y x)
                          (seqZ 0 3))
              (seqZ 0 (width img))).

Definition band (img : ImageData) (y : Z) : list Z :=
  [0x1B; 0x2A; 33] ++ le16 (width img) ++ bandColumns img y ++ [0x0A].

(** The rows the bands start at: 0, 24, 48, ... below the height. *)
Definition bandStarts (h : Z) : list Z :=
  map (fun i => 24 * i) (seqZ 0 ((h + 23) / 24)).

(** The bit the loop over [b] contributes. *)
Definition darkAt (img : ImageData) (y x k b : Z) : bool :=
  (y + k * 8 + b <? height img) && isDark img x (y + k * 8 + b).

End Banded.

(** A write followed by the 50 ms wait of the second class. *)
Definition writeThenWait (chunk : list Z) : list event :=
  [EvWrite chunk; EvDelay 50].

(** ** The callers in the application component *)

(** What [createFramedImage] draws on its canvas. *)
Inductive draw :=
| FillRect (x y w h : Z)
| FillText (text : string) (x y : Z)
| DrawImage (url : string) (sx sy sWidth sHeight : float)
            (dx dy dWidth dHeight : Z).

Record Canvas := mkCanvas {
  canvas_width : Z;
  canvas_height : Z;
  draws : list draw
}.

(** The source rectangle that fills a slot of [imgWidth] x [imgHeight]
    the way [object-fit: cover] does, for a photo of [w] x [h]. *)
Definition coverCrop (w h imgWidth imgHeight : Z)
    : float * float * float * float :=
  let sourceAspect := (JS.of_Z w / JS.of_Z h)%float in
  let targetAspect := (JS.of_Z imgWidth / JS.of_Z imgHeight)%float in
  if (targetAspect <? sourceAspect)%float then
    let sWidth := (JS.of_Z h * targetAspect)%float in
    (((JS.of_Z w - sWidth) / 2)%float, 0%float, sWidth, JS.of_Z h)
  else
    let sHeight := (JS.of_Z w / targetAspect)%float in
    (0%float, ((JS.of_Z h - sHeight) / 2)%float, JS.of_Z w, sHeight).

(** One iteration of the loop over [images]: the photo is awaited with
    an [onload] handler only, so a photo that does not decode leaves the
    promise pending for ever ([None]). *)
Definition placePhoto (env : Env) (imgHeight n : Z)
    (st : option (Z * list draw)) (photo : Z * string)
    : option (Z * list draw) :=
  match st with
  | None => None
  | Some (yPos, ds) =>
      let '(i, url) := photo in
      match loadImage env url with
      | None => None
      | Some (w, h) =>
          let '(sx, sy, sWidth, sHeight) := coverCrop w h 720 imgHeight in
          let ds := ds ++ [DrawImage url sx sy sWidth sHeight 40 yPos 720 imgHeight] in
          Some (if i <? n - 1 then yPos + imgHeight + 40 else yPos + imgHeight,
                ds)
      end
  end.

(** [createFramedImage(images, date)], with [selectedLayout] of the
    component; [None] when it never settles. *)
Definition createFramedImage (env : Env) (selectedLayout : Z)
    (images : list string) (date : string) : option Canvas :=
  let padding := 40 in
  let headerHeight := 310 in
  let imgHeight := if selectedLayout =? 1 then 1000 else 500 in
  let gap := 40 in
  let footerHeight := 200 in
  let n := Z.of_nat (length images) in
  let totalHeight :=
    padding + headerHeight + n * imgHeight + (n - 1) * gap + footerHeight in
  let ds := [FillRect 0 0 800 totalHeight;
             FillText "Therma-Snaps" 400 (padding + 100);
             FillText "Warm Memories on Receipts" 400 (padding + 170);
             FillText date 400 (padding + 250)] in
  match foldl (placePhoto env imgHeight n) (Some (padding + 310, ds))
              (zip (seqZ 0 n) images) with
  | None => None
  | Some (yPos, ds) =>
      let yPos := yPos + 60 in
      Some (mkCanvas 800 totalHeight
              (ds ++ [FillText "***" 400 yPos;
                      FillText "Thanks for the warm moments" 400 (yPos + 70)]))
  end.

(** The rest of the page: [canvas.toDataURL]. *)
Record Page := mkPage {
  toDataURL : Canvas -> string
}.

(** What a handler of the component does, in order. *)
Inductive uiEvent :=
| UiSetIsPrinting (b : bool)
| UiSetCurrentScreen (screen : string)
| UiAlert (message : string)
| UiConsoleError
| UiPrinter (e : event).

(** The loop [for (let i = 0; i < printQuantity; i++)] of
    [handleContinue], from copy [i] on with [n] copies to go. Every
    copy is a call of its own on the one printer object of
    [printerRef.current]: [printer k] is that object as copy [k] finds
    it, what its fields hold and how the device answers during that
    job. A copy that throws ends the loop, a copy that completes is
    followed by a wait of 3 s. *)
Fixpoint printCopies (printer : nat -> ThermalPrinter) (env : Env)
    (receiptImage : string) (i n : nat) : list event * completion unit :=
  match n with
  | O => ([], Normal tt)
  | S n' =>
      let r := printImage (printer i) env receiptImage in
      match r.2 with
      | Throw e => (r.1, Throw e)
      | Normal _ =>
          let rest := printCopies printer env receiptImage (S i) n' in
          (r.1 ++ [EvDelay 3000] ++ rest.1, rest.2)
      end
  end.

(** [handleContinue]; the flag tells whether the handler returned. *)
Definition handleContinue (page : Page) (env : Env)
    (printerConnected : bool) (printerRef : option (nat -> ThermalPrinter))
    (selectedLayout : Z) (capturedImages : list string) (date : string)
    (printQuantity : Z) : list uiEvent * bool :=
  match printerConnected, printerRef with
  | true, Some printer =>
      match createFramedImage env selectedLayout capturedImages date with
      | None => ([UiSetIsPrinting true], false)
      | Some canvas =>
          let receiptImage := toDataURL page canvas in
          let r := printCopies printer env receiptImage 0
                     (Z.to_nat printQuantity) in
          ([UiSetIsPrinting true] ++ map UiPrinter r.1
           ++ match r.2 with
              | Throw _ => [UiConsoleError]
              | Normal _ => []
              end
           ++ [UiSetIsPrinting false; UiSetCurrentScreen "final"], true)
      end
  | _, _ => ([UiSetCurrentScreen "final"], true)
  end.

(** The two buttons of the quantity step. *)
Inductive click := Minus | Plus.

Definition onClick (printQuantity : Z) (c : click) : Z :=
  match c with
  | Minus => Z.max 1 (printQuantity - 1)
  | Plus => Z.min 5 (printQuantity + 1)
  end.

(** The destination rectangles of the photos, in drawing order. *)
Definition photoSlots (ds : list draw) : list (Z * Z * Z * Z) :=
  omap (fun d => match d with
                 | DrawImage _ _ _ _ _ dx dy dw dh => Some (dx, dy, dw, dh)
                 | _ => None
                 end) ds.

(** The texts with their positions, in drawing order. *)
Definition texts (ds : list draw) : list (string * Z * Z) :=
  omap (fun d => match d with
                 | FillText t x y => Some (t, x, y)
                 | _ => None
                 end) ds.

(** The events of the printer among those of a handler. *)
Definition printerEvents (tr : list uiEvent) : list event :=
  omap (fun u => match u with UiPrinter e => Some e | _ => None end) tr.

(** A page whose canvases all serialise to the same URL. *)
Definition page0 : Page := mkPage (fun _ => "receipt"%string).

(** A printer object whose link is up for the first copy and has
    dropped by the second. *)
Definition droppedAfterFirst (k : nat) : ThermalPrinter :=
  match k with
  | O => connectedPrinter
  | S _ => droppedPrinter
  end.

(** ** Facts about the 32-bit operators *)

Lemma toInt32_small z : - 2 ^ 31 <= z < 2 ^ 31 -> JS.toInt32 z = z.
Proof.
  intros Hz. unfold JS.toInt32.
  rewrite Z.mod_small by lia. lia.
Qed.

Lemma toInt32_cong z : exists k, JS.toInt32 z = z + 2 ^ 32 * k.
Proof.
  exists (- ((z + 2 ^ 31) / 2 ^ 32)). unfold JS.toInt32.
  rewrite Z.mod_eq by lia. lia.
Qed.

Lemma band_0xff z : JS.band z 0xff = z mod 256.
Proof.
  unfold JS.band. rewrite (toInt32_small 255) by lia.
  change 255 with (Z.ones 8). rewrite Z.land_ones by lia.
  destruct (toInt32_cong z) as [k ->].
  change (2 ^ 32) with (2 ^ 24 * 2 ^ 8).
  rewrite <- Z.mul_assoc, (Z.mul_comm (2 ^ 8)), Z.mul_assoc.
  apply Z.mod_add. lia.
Qed.

Lemma band_sar8_0xff z : JS.band (JS.sar z 8) 0xff = (z / 256) mod 256.
Proof.
  rewrite band_0xff. unfold JS.sar.
  change (8 mod 32) with 8. rewrite Z.shiftr_div_pow2 by lia.
  destruct (toInt32_cong z) as [k ->].
  change (2 ^ 32) with (2 ^ 24 * 2 ^ 8). change (2 ^ 8) with 256.
  replace (z + 2 ^ 24 * 256 * k) with (z + (2 ^ 24 * k) * 256) by lia.
  rewrite Z.div_add by lia.
  replace (z / 256 + 2 ^ 24 * k) with (z / 256 + (2 ^ 16 * k) * 256) by lia.
  apply Z.mod_add. lia.
Qed.

Lemma le16_value_le16 n : le16_value (le16 n) = n mod 65536.
Proof.
  unfold le16, le16_value.
  change 65536 with (256 * 256).
  rewrite Z.rem_mul_r by lia. reflexivity.
Qed.

Lemma ceil_div8_spec a :
  8 * (JS.ceil_div8 a - 1) < a <= 8 * JS.ceil_div8 a.
Proof.
  unfold JS.ceil_div8.
  pose proof (Z.div_mod (a + 7) 8 ltac:(lia)).
  pose proof (Z.mod_pos_bound (a + 7) 8 ltac:(lia)). lia.
Qed.

(** ** The encoder: shape of the frame *)

Lemma foldl_push {A B} (f : B -> A) (l : list B) (acc : list A) :
  foldl (fun cmds x => cmds ++ [f x]) acc l = acc ++ map f l.
Proof.
  revert acc. induction l as [|b l IH]; intros acc; simpl.
  - by rewrite app_nil_r.
  - rewrite IH, <- app_assoc. reflexivity.
Qed.

Lemma pushRow_spec mono commands y :
  pushRow (width mono) (JS.ceil_div8 (width mono)) (data mono) commands y =
  commands ++ rasterRow mono y.
Proof. unfold pushRow, rasterRow. apply foldl_push. Qed.

Lemma pushRows_spec mono commands :
  pushRows (width mono) (height mono) (JS.ceil_div8 (width mono)) (data mono)
    commands = commands ++ rasterRows mono.
Proof.
  unfold pushRows, rasterRows.
  generalize (seqZ 0 (height mono)) as ys. intros ys. revert commands.
  induction ys as [|y ys IH]; intros commands; simpl.
  - by rewrite app_nil_r.
  - rewrite IH, pushRow_spec, <- app_assoc. reflexivity.
Qed.

Lemma packBit_bitAt mono y x byte b :
  packBit (width mono) (data mono) y x byte b =
  if bitAt mono y x b then JS.bor byte (JS.shl 1 (7 - b)) else byte.
Proof.
  unfold packBit, bitAt, isBlack.
  destruct (x * 8 + b <? width mono); simpl; [|done].
  destruct (JS.u8_get _ _) as [[| |]|]; reflexivity.
Qed.

Lemma packByte_bits mono y x :
  packByte (width mono) (data mono) y x =
  byteOfBits (map (bitAt mono y x) (seqZ 0 8)).
Proof.
  unfold packByte.
  change (seqZ 0 8) with [0; 1; 2; 3; 4; 5; 6; 7].
  cbn [foldl map]. rewrite !packBit_bitAt.
  destruct (bitAt mono y x 0), (bitAt mono y x 1), (bitAt mono y x 2),
    (bitAt mono y x 3), (bitAt mono y x 4), (bitAt mono y x 5),
    (bitAt mono y x 6), (bitAt mono y x 7); vm_compute; reflexivity.
Qed.

Lemma byteOfBits_8 (f : Z -> bool) :
  let B := byteOfBits (map f (seqZ 0 8)) in
  0 <= B < 256 /\ forall b, 0 <= b < 8 -> Z.testbit B (7 - b) = f b.
Proof.
  change (seqZ 0 8) with [0; 1; 2; 3; 4; 5; 6; 7]. cbn [map].
  assert (Hb : forall b, 0 <= b < 8 ->
             b = 0 \/ b = 1 \/ b = 2 \/ b = 3 \/ b = 4 \/ b = 5 \/ b = 6 \/ b = 7)
    by (intros; lia).
  destruct (f 0) eqn:E0, (f 1) eqn:E1, (f 2) eqn:E2, (f 3) eqn:E3,
    (f 4) eqn:E4, (f 5) eqn:E5, (f 6) eqn:E6, (f 7) eqn:E7;
    (split; [vm_compute; split; [discriminate | reflexivity] |];
     intros b Hr; destruct (Hb b Hr) as [->|[->|[->|[->|[->|[->|[->| ->]]]]]]];
     rewrite ?E0, ?E1, ?E2, ?E3, ?E4, ?E5, ?E6, ?E7; reflexivity).
Qed.

Lemma packByte_range mono y x :
  0 <= packByte (width mono) (data mono) y x < 256.
Proof. rewrite packByte_bits. apply (byteOfBits_8 (bitAt mono y x)). Qed.

Lemma rasterRow_length mono y :
  length (rasterRow mono y) = Z.to_nat (JS.ceil_div8 (width mono)).
Proof. unfold rasterRow. by rewrite length_map, length_seqZ. Qed.

Lemma concat_length_const {A} (ls : list (list A)) n :
  Forall (fun r => length r = n) ls -> length (concat ls) = (length ls * n)%nat.
Proof.
  induction 1 as [|r ls Hr _ IH]; simpl; [done|].
  rewrite length_app, IH, Hr. reflexivity.
Qed.

Lemma rasterRows_length mono :
  length (rasterRows mono) =
  (Z.to_nat (height mono) * Z.to_nat (JS.ceil_div8 (width mono)))%nat.
Proof.
  unfold rasterRows.
  rewrite (concat_length_const _ (Z.to_nat (JS.ceil_div8 (width mono)))).
  - by rewrite length_map, length_seqZ.
  - apply Forall_forall. intros r Hr.
    apply list_elem_of_fmap in Hr as [y [-> _]]. apply rasterRow_length.
Qed.

Lemma rasterRows_bytes mono : Forall (fun b => 0 <= b < 256) (rasterRows mono).
Proof.
  unfold rasterRows. apply Forall_concat, Forall_forall.
  intros r Hr. apply list_elem_of_fmap in Hr as [y [-> _]].
  unfold rasterRow. apply Forall_forall. intros b Hb.
  apply list_elem_of_fmap in Hb as [x [-> _]]. apply packByte_range.
Qed.

Lemma map_toUint8_bytes l :
  Forall (fun b => 0 <= b < 256) l -> map JS.toUint8 l = l.
Proof.
  induction 1 as [|b l Hb _ IH]; simpl; [done|].
  rewrite IH. unfold JS.toUint8. by rewrite Z.mod_small.
Qed.

(** The frame, whatever the dimensions: initialise, raster header with
    the two 16-bit fields, the rows, feed and cut. *)
Lemma encodeRaster_layout mono :
  encodeRaster mono =
    [0x1B; 0x40] ++ [0x1D; 0x76; 0x30; 0x00]
    ++ le16 (JS.ceil_div8 (width mono)) ++ le16 (height mono)
    ++ rasterRows mono
    ++ [0x1B; 0x64; 0x02] ++ [0x1D; 0x56; 0x01].
Proof.
  unfold encodeRaster. cbv zeta.
  rewrite pushRows_spec, !band_sar8_0xff, !band_0xff.
  rewrite map_toUint8_bytes.
  - unfold le16. rewrite <- !app_assoc. reflexivity.
  - repeat (apply Forall_app; split);
      try (repeat constructor; lia);
      try apply rasterRows_bytes;
      repeat constructor; try (apply Z.mod_pos_bound; lia).
Qed.

Lemma encodeRaster_length mono :
  length (encodeRaster mono) =
  (16 + Z.to_nat (height mono) * Z.to_nat (JS.ceil_div8 (width mono)))%nat.
Proof.
  rewrite encodeRaster_layout. rewrite !length_app, rasterRows_length.
  unfold le16. simpl. lia.
Qed.

Lemma lookup_concat_const {A} (ls : list (list A)) (n i j : nat) :
  Forall (fun r => length r = n) ls -> (j < n)%nat ->
  concat ls !! (i * n + j)%nat = ls !! i ≫= (fun r => r !! j).
Proof.
  intros Hls Hj. revert i.
  induction Hls as [|r ls Hr _ IH]; intros i; [by destruct i|].
  destruct i as [|i]; simpl.
  - rewrite lookup_app_l by lia. reflexivity.
  - rewrite lookup_app_r by lia.
    replace (n + i * n + j - length r)%nat with (i * n + j)%nat by lia.
    apply IH.
Qed.

Lemma rasterRows_lookup mono y x :
  0 <= y < height mono -> 0 <= x < JS.ceil_div8 (width mono) ->
  rasterRows mono
    !! (Z.to_nat y * Z.to_nat (JS.ceil_div8 (width mono)) + Z.to_nat x)%nat
  = Some (packByte (width mono) (data mono) y x).
Proof.
  intros Hy Hx. unfold rasterRows.
  rewrite lookup_concat_const.
  - rewrite list_lookup_fmap, lookup_seqZ_lt by lia. simpl.
    unfold rasterRow. rewrite list_lookup_fmap, lookup_seqZ_lt by lia. simpl.
    do 2 f_equal; lia.
  - apply Forall_forall. intros r Hr.
    apply list_elem_of_fmap in Hr as [y' [-> _]]. apply rasterRow_length.
  - lia.
Qed.

Lemma frame_row_byte mono y x :
  0 <= y < height mono -> 0 <= x < JS.ceil_div8 (width mono) ->
  encodeRaster mono !! Z.to_nat (10 + y * JS.ceil_div8 (width mono) + x)
  = Some (packByte (width mono) (data mono) y x).
Proof.
  intros Hy Hx. rewrite encodeRaster_layout.
  replace (Z.to_nat (10 + y * JS.ceil_div8 (width mono) + x))
    with (10 + (Z.to_nat y * Z.to_nat (JS.ceil_div8 (width mono)) + Z.to_nat x))%nat
    by nia.
  change ((([0x1B; 0x40; 0x1D; 0x76; 0x30; 0x00]
            ++ le16 (JS.ceil_div8 (width mono)) ++ le16 (height mono))
          ++ (rasterRows mono ++ [0x1B; 0x64; 0x02] ++ [0x1D; 0x56; 0x01]))
         !! (10 + (Z.to_nat y * Z.to_nat (JS.ceil_div8 (width mono))
                  + Z.to_nat x))%nat
          = Some (packByte (width mono) (data mono) y x)).
  rewrite lookup_app_r by (unfold le16; simpl; lia).
  replace (length _) with 10%nat by (unfold le16; reflexivity).
  rewrite Nat.add_comm, Nat.add_sub.
  rewrite lookup_app_l.
  - by apply rasterRows_lookup.
  - rewrite rasterRows_length. nia.
Qed.

Lemma all_black_byte mono y x :
  (forall b, 0 <= b < 8 -> bitAt mono y x b = true) ->
  packByte (width mono) (data mono) y x = 0xFF.
Proof.
  intros Hb. rewrite packByte_bits.
  change (seqZ 0 8) with [0; 1; 2; 3; 4; 5; 6; 7]. cbn [map].
  rewrite !Hb by lia. reflexivity.
Qed.

Lemma Forall_eq_replicate {A} (x : A) (l : list A) :
  Forall (fun a => a = x) l -> l = replicate (length l) x.
Proof. induction 1 as [|a l -> _ IH]; simpl; [done|]. by rewrite <- IH. Qed.

Lemma rasterRows_all_black mono :
  width mono mod 8 = 0 ->
  (forall px py, 0 <= px < width mono -> 0 <= py < height mono ->
     isBlack mono px py = true) ->
  rasterRows mono =
  replicate (Z.to_nat (height mono) * Z.to_nat (JS.ceil_div8 (width mono))) 0xFF.
Proof.
  intros Hw Hblack.
  assert (Hbpl : width mono = 8 * JS.ceil_div8 (width mono)).
  { unfold JS.ceil_div8.
    pose proof (Z.div_mod (width mono) 8 ltac:(lia)).
    assert ((width mono + 7) / 8 = width mono / 8); [|lia].
    replace (width mono + 7) with (7 + width mono / 8 * 8) by lia.
    rewrite Z.div_add by lia. reflexivity. }
  rewrite <- rasterRows_length. apply Forall_eq_replicate.
  unfold rasterRows. apply Forall_concat, Forall_forall.
  intros r Hr. apply list_elem_of_fmap in Hr as [y [-> Hy]].
  unfold rasterRow. apply Forall_forall. intros a Ha.
  apply list_elem_of_fmap in Ha as [x [-> Hx]].
  apply elem_of_seqZ in Hy, Hx.
  apply all_black_byte. intros b Hb. unfold bitAt.
  rewrite Hblack by lia.
  rewrite andb_true_r. apply Z.ltb_lt. lia.
Qed.

(** ** Claims about the encoder *)

(** C1. For a raster of positive width [W] and height [H] the frame is,
    in order and with nothing else: [1B 40], [1D 76 30 00], ceil(W/8) and
    then H as low-byte-first 16-bit pairs, ceil(W/8)*H bytes of row data,
    [1B 64 02] and [1D 56 01]. *)
Theorem frame_layout (mono : ImageData) :
  0 < width mono -> 0 < height mono ->
  let bytesPerLine := JS.ceil_div8 (width mono) in
  encodeRaster mono =
    [0x1B; 0x40] ++ [0x1D; 0x76; 0x30; 0x00]
    ++ le16 bytesPerLine ++ le16 (height mono)
    ++ rasterRows mono
    ++ [0x1B; 0x64; 0x02] ++ [0x1D; 0x56; 0x01]
  /\ Z.of_nat (length (rasterRows mono)) = bytesPerLine * height mono
  /\ 8 * (bytesPerLine - 1) < width mono <= 8 * bytesPerLine
  /\ (bytesPerLine < 65536 -> le16_value (le16 bytesPerLine) = bytesPerLine)
  /\ (height mono < 65536 -> le16_value (le16 (height mono)) = height mono).
Proof.
  intros Hw Hh bytesPerLine.
  pose proof (ceil_div8_spec (width mono)) as Hc. fold bytesPerLine in Hc.
  split; [apply encodeRaster_layout|].
  split; [rewrite rasterRows_length; fold bytesPerLine; nia|].
  split; [exact Hc|].
  split; intros Hlt; rewrite le16_value_le16; apply Z.mod_small; lia.
Qed.

(** C10. Whatever the dimensions, no error is raised and the whole
    frame is emitted: initialise, the raster command, the header fields
    holding ceil(W/8) mod 65536 and height mod 65536, low byte first,
    then every row of the raster, all [height] of them and not
    [height mod 65536], then feed and cut; every element is a byte. *)
Theorem header_fields_wrap (mono : ImageData) :
  encode mono = Normal ([0x1B; 0x40] ++ [0x1D; 0x76; 0x30; 0x00]
                        ++ le16 (JS.ceil_div8 (width mono))
                        ++ le16 (height mono)
                        ++ rasterRows mono
                        ++ [0x1B; 0x64; 0x02] ++ [0x1D; 0x56; 0x01])
  /\ length (rasterRows mono)
     = (Z.to_nat (height mono) * Z.to_nat (JS.ceil_div8 (width mono)))%nat
  /\ le16_value (take 2 (drop 6 (encodeRaster mono)))
     = JS.ceil_div8 (width mono) mod 65536
  /\ le16_value (take 2 (drop 8 (encodeRaster mono)))
     = height mono mod 65536
  /\ Forall (fun b => 0 <= b < 256) (encodeRaster mono).
Proof.
  unfold encode. rewrite encodeRaster_layout.
  split; [reflexivity|].
  split; [apply rasterRows_length|].
  split; [cbn [app drop take le16]; apply le16_value_le16|].
  split; [cbn [app drop take le16]; apply le16_value_le16|].
  repeat (apply Forall_app; split);
    try (repeat constructor; lia);
    try apply rasterRows_bytes;
    unfold le16; repeat constructor;
    try (apply Z.mod_pos_bound; lia).
Qed.

(** ** The ditherer on a solid-black image *)

Lemma f32_set_length d i v : length (JS.f32_set d i v) = length d.
Proof. unfold JS.f32_set. destruct (i <? 0); [done|]. apply length_insert. Qed.

Lemma f32_get_set_eq d i v :
  0 <= i < Z.of_nat (length d) ->
  JS.f32_get (JS.f32_set d i v) i = JS.fround v.
Proof.
  intros Hi. unfold JS.f32_get, JS.f32_set.
  destruct (Z.ltb_spec i 0); [lia|].
  rewrite list_lookup_insert_eq by lia. reflexivity.
Qed.

Lemma f32_get_set_ne d i j v :
  i <> j -> JS.f32_get (JS.f32_set d j v) i = JS.f32_get d i.
Proof.
  intros Hne. unfold JS.f32_get, JS.f32_set.
  destruct (Z.ltb_spec i 0); [done|].
  destruct (Z.ltb_spec j 0); [done|].
  rewrite list_lookup_insert_ne by lia. reflexivity.
Qed.

Lemma rgbZero_set_zero d j :
  rgbZero d -> rgbZero (JS.f32_set d j 0%float).
Proof.
  intros Hd i Hi Hm. rewrite f32_set_length in Hi.
  destruct (decide (i = j)) as [->|Hne].
  - rewrite f32_get_set_eq by lia. reflexivity.
  - rewrite f32_get_set_ne by done. by apply Hd.
Qed.

Lemma distribute_zero w h x y d dx dy factor :
  (0 * factor = 0)%float ->
  rgbZero d ->
  Z.of_nat (length d) = 4 * w * h ->
  rgbZero (distribute w h x y 0%float d dx dy factor)
  /\ length (distribute w h x y 0%float d dx dy factor) = length d.
Proof.
  intros Hf Hd Hlen. unfold distribute.
  destruct (_ && _) eqn:Hguard; [|done].
  repeat (apply andb_prop in Hguard as [Hguard ?]).
  assert (Hin : 0 <= ((y + dy) * w + (x + dx)) * 4
                /\ ((y + dy) * w + (x + dx)) * 4 + 3 < Z.of_nat (length d))
    by (rewrite Hlen; nia).
  cbv zeta.
  rewrite Hd by (first [lia | rewrite Z.mod_mul; lia]).
  rewrite Hf. change (0 + 0)%float with 0%float.
  split; [|by rewrite !f32_set_length].
  by do 3 apply rgbZero_set_zero.
Qed.

Lemma grayAt_zero d idx :
  JS.f32_get d idx = 0%float ->
  JS.f32_get d (idx + 1) = 0%float ->
  JS.f32_get d (idx + 2) = 0%float ->
  grayAt d idx = 0%float.
Proof. intros H0 H1 H2. unfold grayAt. rewrite H0, H1, H2. reflexivity. Qed.

Lemma ditherPixel_zero w h y d x :
  0 <= x < w -> 0 <= y < h ->
  rgbZero d -> Z.of_nat (length d) = 4 * w * h ->
  rgbZero (ditherPixel w h y d x)
  /\ Z.of_nat (length (ditherPixel w h y d x)) = 4 * w * h.
Proof.
  intros Hx Hy Hd Hlen. unfold ditherPixel.
  assert (Hin : 0 <= (y * w + x) * 4
                /\ (y * w + x) * 4 + 3 < Z.of_nat (length d))
    by (rewrite Hlen; nia).
  cbv zeta.
  rewrite grayAt_zero.
  2-4: apply Hd; [lia|].
  2: rewrite Z.mod_mul; lia.
  2: rewrite Z.add_comm, Z.mod_add; [discriminate | lia].
  2: rewrite Z.add_comm, Z.mod_add; [discriminate | lia].
  change (0 <? 128)%float with true. cbv iota.
  change (0 - 0)%float with 0%float.
  pose proof (rgbZero_set_zero d ((y * w + x) * 4) Hd) as H0.
  assert (L0 : Z.of_nat (length (JS.f32_set d ((y * w + x) * 4) 0%float))
               = 4 * w * h) by (by rewrite f32_set_length).
  destruct (distribute_zero w h x y _ 1 0 (7 / 16)%float eq_refl H0 L0)
    as [H1 L1]. rewrite <- L1 in L0.
  destruct (distribute_zero w h x y _ (-1) 1 (3 / 16)%float eq_refl H1 L0)
    as [H2 L2]. rewrite <- L2 in L0.
  destruct (distribute_zero w h x y _ 0 1 (5 / 16)%float eq_refl H2 L0)
    as [H3 L3]. rewrite <- L3 in L0.
  destruct (distribute_zero w h x y _ 1 1 (1 / 16)%float eq_refl H3 L0)
    as [H4 L4]. rewrite <- L4 in L0.
  split; assumption.
Qed.

Lemma foldl_invariant {A B} (P : A -> Prop) (f : A -> B -> A) l a :
  P a -> (forall a x, x ∈ l -> P a -> P (f a x)) -> P (foldl f a l).
Proof.
  revert a. induction l as [|x l IH]; intros a Ha Hstep; simpl; [done|].
  apply IH.
  - apply Hstep; [left | done].
  - intros a' x' Hx'. apply Hstep. by right.
Qed.

Lemma ditherLoop_zero w h d :
  rgbZero d -> Z.of_nat (length d) = 4 * w * h ->
  rgbZero (ditherLoop w h d) /\ Z.of_nat (length (ditherLoop w h d)) = 4 * w * h.
Proof.
  intros Hd Hlen. unfold ditherLoop.
  apply (foldl_invariant
           (fun d => rgbZero d /\ Z.of_nat (length d) = 4 * w * h)); [done|].
  intros d1 y Hy [Hd1 Hl1]. apply elem_of_seqZ in Hy. unfold ditherRow.
  apply (foldl_invariant
           (fun d => rgbZero d /\ Z.of_nat (length d) = 4 * w * h)); [done|].
  intros d2 x Hx [Hd2 Hl2]. apply elem_of_seqZ in Hx.
  apply ditherPixel_zero; [lia | lia | done | done].
Qed.

Lemma solidBlack_rgbZero img :
  solidBlack img ->
  rgbZero (map (fun b => JS.fround (JS.of_Z b)) (data img)).
Proof.
  intros [_ Hblack] i Hi Hm. rewrite length_map in Hi.
  unfold JS.f32_get. destruct (Z.ltb_spec i 0); [lia|].
  rewrite list_lookup_fmap.
  destruct (data img !! Z.to_nat i) as [b|] eqn:Hb.
  - rewrite (Hblack _ _ Hb) by (rewrite Z2Nat.id; lia). reflexivity.
  - apply lookup_ge_None in Hb. lia.
Qed.

(** Dithering a solid-black image leaves every pixel print-black. *)
Lemma applyDithering_solidBlack img px py :
  solidBlack img ->
  0 <= px < width img -> 0 <= py < height img ->
  isBlack (applyDithering img) px py = true.
Proof.
  intros Hsb Hpx Hpy.
  destruct (ditherLoop_zero (width img) (height img)
              (map (fun b => JS.fround (JS.of_Z b)) (data img)))
    as [Hz Hl].
  { by apply solidBlack_rgbZero. }
  { rewrite length_map. apply Hsb. }
  unfold isBlack, applyDithering. cbn [data width].
  set (d' := ditherLoop _ _ _) in *.
  assert (Hin : 0 <= (py * width img + px) * 4 < Z.of_nat (length d'))
    by (rewrite Hl; nia).
  specialize (Hz _ Hin). rewrite Z.mod_mul in Hz by lia.
  specialize (Hz ltac:(lia)).
  unfold JS.f32_get in Hz. unfold JS.u8_get.
  destruct (Z.ltb_spec ((py * width img + px) * 4) 0); [lia|].
  rewrite list_lookup_fmap.
  destruct (d' !! Z.to_nat ((py * width img + px) * 4)) as [v|] eqn:Hv.
  - simpl in Hz. subst v. reflexivity.
  - apply lookup_ge_None in Hv. lia.
Qed.

(** C3. Row [y], byte column [x] of the frame is one byte whose bit
    [7 - b] (most significant first) is set exactly when pixel [8x + b]
    lies inside the width and is print-black; a solid-black raster of
    384 x 500, and the raster dithered from a solid-black 384 x 500
    image, give row data that is 0xFF throughout. *)
Theorem row_packing (mono : ImageData) :
  (forall y x, 0 <= y < height mono -> 0 <= x < JS.ceil_div8 (width mono) ->
     exists B,
       encodeRaster mono !! Z.to_nat (10 + y * JS.ceil_div8 (width mono) + x)
         = Some B
       /\ 0 <= B < 256
       /\ forall b, 0 <= b < 8 ->
            Z.testbit B (7 - b)
            = (x * 8 + b <? width mono) && isBlack mono (x * 8 + b) y)
  /\ (width mono = 384 -> height mono = 500 ->
      (forall px py, 0 <= px < 384 -> 0 <= py < 500 ->
         isBlack mono px py = true) ->
      rasterRows mono = replicate (Z.to_nat 24000) 0xFF)
  /\ (width mono = 384 -> height mono = 500 -> solidBlack mono ->
      rasterRows (applyDithering mono) = replicate (Z.to_nat 24000) 0xFF).
Proof.
  split; [|split].
  - intros y x Hy Hx.
    exists (packByte (width mono) (data mono) y x).
    split; [by apply frame_row_byte|].
    rewrite packByte_bits.
    apply (byteOfBits_8 (bitAt mono y x)).
  - intros Hw Hh Hblack.
    rewrite rasterRows_all_black.
    + rewrite Hw, Hh. reflexivity.
    + rewrite Hw. reflexivity.
    + rewrite Hw, Hh. exact Hblack.
  - intros Hw Hh Hsb.
    rewrite rasterRows_all_black.
    + change (width (applyDithering mono)) with (width mono).
      change (height (applyDithering mono)) with (height mono).
      rewrite Hw, Hh. reflexivity.
    + change (width (applyDithering mono)) with (width mono).
      rewrite Hw. reflexivity.
    + intros px py Hpx Hpy. by apply applyDithering_solidBlack.
Qed.

Lemma row_packing_witness :
  exists B,
    encodeRaster whitePixel !! 10%nat = Some B
    /\ 0 <= B < 256
    /\ forall b, 0 <= b < 8 ->
         Z.testbit B (7 - b) = (0 * 8 + b <? 1) && isBlack whitePixel (0 * 8 + b) 0.
Proof.
  apply (proj1 (row_packing whitePixel) 0 0); vm_compute; split; congruence.
Defined.

Lemma frame_layout_witness :
  0 < width whitePixel /\ 0 < height whitePixel /\
  encodeRaster whitePixel =
    [0x1B; 0x40] ++ [0x1D; 0x76; 0x30; 0x00] ++ le16 1 ++ le16 1
    ++ rasterRows whitePixel ++ [0x1B; 0x64; 0x02] ++ [0x1D; 0x56; 0x01].
Proof.
  split; [reflexivity|]. split; [reflexivity|].
  apply (frame_layout whitePixel); reflexivity.
Defined.

(** C4, as the code has it. The encoder has no dimension check and no
    error exit: every raster, also one higher than 65535 rows or wider
    than 65535 byte columns, yields a frame, of 16 + ceil(W/8)*H bytes. *)
Theorem encode_never_fails (mono : ImageData) :
  (forall e, encode mono <> Throw e)
  /\ exists frame,
       encode mono = Normal frame
       /\ (0 <= width mono -> 0 <= height mono ->
           Z.of_nat (length frame)
           = 16 + JS.ceil_div8 (width mono) * height mono).
Proof.
  split; [discriminate|].
  exists (encodeRaster mono). split; [reflexivity|].
  intros Hw Hh. rewrite encodeRaster_length.
  pose proof (ceil_div8_spec (width mono)). nia.
Qed.

Lemma encode_never_fails_witness :
  exists frame,
    encode whitePixel = Normal frame /\ Z.of_nat (length frame) = 17.
Proof.
  destruct (proj2 (encode_never_fails whitePixel)) as [frame [Hf Hl]].
  exists frame. split; [exact Hf|]. apply Hl; vm_compute; congruence.
Defined.

(** C4 fails on a raster 65536 rows high: a frame comes back, not
    [FrameTooLarge], and its height field reads 0. *)
Lemma encode_tall_raster_no_error :
  height tallRaster > 65535
  /\ encode tallRaster <> Throw FrameTooLarge
  /\ exists frame,
       encode tallRaster = Normal frame
       /\ take 2 (drop 8 frame) = [0; 0].
Proof.
  split; [reflexivity|]. split; [discriminate|].
  exists (encodeRaster tallRaster). split; [reflexivity|].
  rewrite encodeRaster_layout. reflexivity.
Qed.

(** ** The ditherer reads the red channel only

    Once a [distribute] has written a pixel its three colour slots hold
    the same number, the former red slot plus the error; every pixel but
    the first is written before it is visited. *)

Lemma f32_get_outside d j :
  ~ (0 <= j < Z.of_nat (length d)) -> JS.f32_get d j = nan.
Proof.
  intros Hj. unfold JS.f32_get. destruct (Z.ltb_spec j 0); [done|].
  rewrite (proj2 (lookup_ge_None d (Z.to_nat j))) by lia. reflexivity.
Qed.

Lemma f32_get_set d i v j :
  JS.f32_get (JS.f32_set d i v) j =
  if decide (j = i /\ 0 <= i < Z.of_nat (length d)) then JS.fround v
  else JS.f32_get d j.
Proof.
  destruct (decide _) as [[-> Hi]|Hne].
  - by apply f32_get_set_eq.
  - destruct (decide (j = i)) as [->|Hji].
    + rewrite !f32_get_outside; [done | lia | rewrite f32_set_length; lia].
    + by apply f32_get_set_ne.
Qed.

Lemma agree_set T d d' i v :
  agree T d d' -> agree T (JS.f32_set d i v) (JS.f32_set d' i v).
Proof.
  intros (Hlen & Hred & Hgb). unfold agree.
  rewrite !f32_set_length. split; [done|].
  split; [intros q | intros q Hq; destruct (Hgb q Hq) as [H1 H2]; split];
    rewrite !f32_get_set, Hlen; destruct (decide _); auto.
Qed.

Lemma agree_weaken (T T' : Z -> Prop) w h d d' :
  Z.of_nat (length d) = 4 * w * h ->
  (forall r, 0 <= r < w * h -> T' r -> T r) ->
  agree T d d' -> agree T' d d'.
Proof.
  intros Hlen Hsub (Hsame & Hred & Hgb). split; [done|]. split; [done|].
  intros q Hq. destruct (decide (0 <= q < w * h)) as [Hin|Hout].
  - apply Hgb, Hsub; done.
  - rewrite !(f32_get_outside d), !(f32_get_outside d') by lia. done.
Qed.

Lemma distribute_agree T w h x y e d d' dx dy factor :
  agree T d d' ->
  agree (fun r => T r \/
                  ((0 <= x + dx < w /\ 0 <= y + dy < h)
                   /\ r = (y + dy) * w + (x + dx)))
        (distribute w h x y e d dx dy factor)
        (distribute w h x y e d' dx dy factor).
Proof.
  intros Hag. unfold distribute.
  destruct (_ && _) eqn:Hguard.
  - repeat (apply andb_prop in Hguard as [Hguard ?]).
    cbv zeta. set (q := (y + dy) * w + (x + dx)).
    destruct Hag as (Hlen & Hred & Hgb). rewrite <- (Hred q).
    set (v := (JS.f32_get d (q * 4) + e * factor)%float).
    assert (Hag3 : agree T
              (JS.f32_set (JS.f32_set (JS.f32_set d (q * 4 + 2) v) (q * 4 + 1) v)
                 (q * 4) v)
              (JS.f32_set (JS.f32_set (JS.f32_set d' (q * 4 + 2) v) (q * 4 + 1) v)
                 (q * 4) v))
      by (do 3 apply agree_set; done).
    destruct Hag3 as (Hlen3 & Hred3 & Hgb3).
    split; [done|]. split; [done|].
    intros r [Hr | [_ ->]]; [by apply Hgb3|].
    rewrite !f32_get_set, !f32_set_length, Hlen.
    repeat (destruct (decide _); try lia); try done.
    all: rewrite !(f32_get_outside d), !(f32_get_outside d') by lia; done.
  - destruct Hag as (Hlen & Hred & Hgb). split; [done|]. split; [done|].
    intros r [Hr | [[Hx Hy] _]]; [by apply Hgb|].
    exfalso. revert Hguard.
    rewrite !andb_false_iff, !Z.leb_gt, !Z.ltb_ge. lia.
Qed.

Lemma distribute_length w h x y e d dx dy factor :
  length (distribute w h x y e d dx dy factor) = length d.
Proof.
  unfold distribute. destruct (_ && _); [|done].
  cbv zeta. by rewrite !f32_set_length.
Qed.

Lemma grayAt_agree T d d' q :
  agree T d d' -> T q -> grayAt d (q * 4) = grayAt d' (q * 4).
Proof.
  intros (_ & Hred & Hgb) Hq. unfold grayAt.
  destruct (Hgb q Hq) as [-> ->]. by rewrite Hred.
Qed.

Lemma ditherPixel_length w h y d x :
  length (ditherPixel w h y d x) = length d.
Proof.
  unfold ditherPixel. cbv zeta.
  by rewrite !distribute_length, f32_set_length.
Qed.

(** One iteration keeps the two runs in step and leaves the pixels the
    next iteration needs written. *)
Lemma ditherPixel_agree w h y x d d' :
  0 <= x < w -> 0 <= y < h ->
  Z.of_nat (length d) = 4 * w * h ->
  agree (touched w x y) d d' ->
  agree (touched w (x + 1) y) (ditherPixel w h y d x) (ditherPixel w h y d' x).
Proof.
  intros Hx Hy Hlen Hag.
  assert (Hq : touched w x y (y * w + x)) by (left; lia).
  unfold ditherPixel. cbv zeta.
  rewrite <- (grayAt_agree _ d d' _ Hag Hq).
  set (oldVal := grayAt d ((y * w + x) * 4)).
  set (newVal := if (oldVal <? 128)%float then 0%float else 255%float).
  set (e := (oldVal - newVal)%float).
  pose proof (agree_set _ _ _ ((y * w + x) * 4) newVal Hag) as H0.
  pose proof (distribute_agree _ w h x y e _ _ 1 0 (7 / 16)%float H0) as H1.
  pose proof (distribute_agree _ w h x y e _ _ (-1) 1 (3 / 16)%float H1) as H2.
  pose proof (distribute_agree _ w h x y e _ _ 0 1 (5 / 16)%float H2) as H3.
  pose proof (distribute_agree _ w h x y e _ _ 1 1 (1 / 16)%float H3) as H4.
  eapply (agree_weaken _ _ w h); [| |exact H4].
  { by rewrite !distribute_length, f32_set_length. }
  intros r Hr Ht. cbv beta.
  assert (Hrow : (y + 1) * w <= r -> y + 1 < h) by nia.
  unfold touched in *.
  destruct Ht as [Ht | [Ht | Ht]].
  - destruct (decide (r <= y * w + x)); [tauto|].
    destruct (decide (x + 1 < w)).
    + do 3 left. right. lia.
    + destruct (decide (1 <= x)).
      * do 4 left. right. right. lia.
      * do 1 left. right. split; [|lia]. split; [lia|]. apply conj; [lia|].
        apply Hrow. lia.
  - do 4 left. tauto.
  - destruct (decide (1 <= x /\ r <= (y + 1) * w + x)).
    + do 4 left. right. right. lia.
    + destruct (decide (r = (y + 1) * w + x)).
      * do 1 left. right. split; [|lia]. split; [lia|]. apply conj; [lia|].
        apply Hrow. lia.
      * right. split; [|lia]. split; [lia|]. apply conj; [lia|].
        apply Hrow. lia.
Qed.

(** Two runs of a counting loop kept in step by a relation indexed by
    the loop counter. *)
Lemma foldl_seqZ_rel {A} (R : Z -> A -> A -> Prop) (f : A -> Z -> A) m n :
  0 <= n ->
  forall a a', R m a a' ->
  (forall k b b', m <= k < m + n -> R k b b' -> R (k + 1) (f b k) (f b' k)) ->
  R (m + n) (foldl f a (seqZ m n)) (foldl f a' (seqZ m n)).
Proof.
  intros Hn. pattern n. apply natlike_ind; [| |exact Hn]; clear n Hn.
  - intros a a' Ha _. by rewrite Z.add_0_r.
  - intros n Hn IH a a' Ha Hstep.
    rewrite <- Z.add_1_r, seqZ_app by lia. rewrite !foldl_app.
    change (seqZ (m + n) 1) with [m + n]. cbn [foldl].
    rewrite Z.add_assoc. apply Hstep; [lia|].
    apply IH; [done|]. intros k b b' Hk. apply Hstep. lia.
Qed.

Lemma ditherRow_length w h d y : length (ditherRow w h d y) = length d.
Proof.
  unfold ditherRow. generalize (seqZ 0 w) as xs. intros xs. revert d.
  induction xs as [|x xs IH]; intros d; simpl; [done|].
  by rewrite IH, ditherPixel_length.
Qed.

Lemma ditherRow_agree w h y d d' :
  0 < w -> 0 <= y < h ->
  Z.of_nat (length d) = 4 * w * h ->
  agree (touched w 0 y) d d' ->
  agree (touched w 0 (y + 1)) (ditherRow w h d y) (ditherRow w h d' y).
Proof.
  intros Hw Hy Hlen Hag. unfold ditherRow.
  apply (agree_weaken (touched w (0 + w) y) _ w h).
  { rewrite <- Hlen. f_equal. apply (ditherRow_length w h d y). }
  { intros r Hr. unfold touched. lia. }
  pose proof (foldl_seqZ_rel
                (fun x b b' => Z.of_nat (length b) = 4 * w * h
                               /\ agree (touched w x y) b b')
                (ditherPixel w h y) 0 w ltac:(lia) d d' (conj Hlen Hag))
    as Hfold.
  apply Hfold. intros x b b' Hx [Hl Hb]. split.
  - by rewrite ditherPixel_length.
  - apply ditherPixel_agree; [lia | done | done | done].
Qed.

Lemma ditherLoop_agree w h d d' :
  0 < w -> 0 <= h ->
  Z.of_nat (length d) = 4 * w * h ->
  agree (touched w 0 0) d d' ->
  agree (touched w 0 h) (ditherLoop w h d) (ditherLoop w h d').
Proof.
  intros Hw Hh Hlen Hag. unfold ditherLoop.
  pose proof (foldl_seqZ_rel
                (fun y b b' => Z.of_nat (length b) = 4 * w * h
                               /\ agree (touched w 0 y) b b')
                (ditherRow w h) 0 h Hh d d' (conj Hlen Hag))
    as Hfold.
  apply Hfold. intros y b b' Hy [Hl Hb]. split.
  - by rewrite ditherRow_length.
  - apply ditherRow_agree; [done | lia | done | done].
Qed.

Lemma f32_get_map (g : Z -> float) (l : list Z) j :
  JS.f32_get (map g l) j = from_option g nan (JS.u8_get l j).
Proof.
  unfold JS.f32_get, JS.u8_get. destruct (j <? 0); [done|].
  rewrite list_lookup_fmap. by destruct (l !! Z.to_nat j).
Qed.

(** The raster the ditherer yields is the same for two images that have
    the same red channel and the same first pixel: the green and blue
    bytes of every other pixel are never looked at. *)
Lemma applyDithering_reads_red_only img img' :
  width img = width img' -> height img = height img' ->
  0 < width img -> 0 <= height img ->
  Z.of_nat (length (data img)) = 4 * width img * height img ->
  length (data img) = length (data img') ->
  (forall q, JS.u8_get (data img) (q * 4) = JS.u8_get (data img') (q * 4)) ->
  JS.u8_get (data img) 1 = JS.u8_get (data img') 1 ->
  JS.u8_get (data img) 2 = JS.u8_get (data img') 2 ->
  forall px py, isBlack (applyDithering img) px py
                = isBlack (applyDithering img') px py.
Proof.
  intros Hw Hh Hpos Hnn Hlen Hlen' Hred Hg Hb px py.
  set (g := fun b => JS.fround (JS.of_Z b)).
  assert (Hag : agree (touched (width img) 0 0)
                  (map g (data img)) (map g (data img'))).
  { apply (agree_weaken (fun r => r = 0) _ (width img) (height img)).
    - by rewrite length_map.
    - intros r Hr. unfold touched. lia.
    - split; [by rewrite !length_map|].
      split; [intros q; by rewrite !f32_get_map, Hred|].
      intros q ->. change (0 * 4 + 1) with 1. change (0 * 4 + 2) with 2.
      by rewrite !f32_get_map, Hg, Hb. }
  apply (ditherLoop_agree (width img) (height img)) in Hag;
    [|done | done | by rewrite length_map].
  destruct Hag as (Hl & Hr & _).
  unfold isBlack, applyDithering. cbn [width data]. rewrite <- Hw, <- Hh.
  fold g.
  set (d := ditherLoop _ _ (map g (data img))) in *.
  set (d' := ditherLoop _ _ (map g (data img'))) in *.
  specialize (Hr (py * width img + px)).
  unfold JS.f32_get in Hr. unfold JS.u8_get.
  destruct (_ <? 0); [done|].
  rewrite !list_lookup_fmap.
  destruct (d !! _) as [v|] eqn:Hv, (d' !! _) as [v'|] eqn:Hv'; simpl in *.
  - by subst.
  - apply lookup_lt_Some in Hv. apply lookup_ge_None in Hv'. lia.
  - apply lookup_ge_None in Hv. apply lookup_lt_Some in Hv'. lia.
  - done.
Qed.

(** C2, at a black pixel followed by a pure red one: the luminance of
    the red pixel is below 128 and the ditherer of the specification
    prints it black; the code adds the error to its red slot, copies
    the sum over green and blue, and prints it white. *)
Theorem red_pixel_misread :
  (Spec.luminance 200 0 0 <? 128)%float = true
  /\ Spec.dither blackThenRed = [true; true]
  /\ monoBits (applyDithering blackThenRed) = [true; false].
Proof. vm_compute. repeat split. Qed.

(** ** The transport *)

Lemma sendChunks_step c thermalData i k :
  sendChunks c thermalData i k =
  if decide (i < length thermalData)%nat then
    let chunk := take chunkSize (drop i thermalData) in
    match c with
    | None => ([], Throw TypeError)
    | Some ch =>
        if writeValue ch k chunk then
          let r := sendChunks c thermalData (i + chunkSize)%nat (S k) in
          (EvWrite chunk :: r.1, r.2)
        else ([], Throw WriteRejected)
    end
  else ([], Normal tt).
Proof.
  rewrite sendChunks_equation_1.
  destruct (decide (i < length thermalData)%nat); reflexivity.
Qed.

Lemma sendChunksDelayed_step c thermalData i k :
  Legacy.sendChunksDelayed c thermalData i k =
  if decide (i < length thermalData)%nat then
    let chunk := take chunkSize (drop i thermalData) in
    match c with
    | None => ([], Throw TypeError)
    | Some ch =>
        if writeValue ch k chunk then
          let r := Legacy.sendChunksDelayed c thermalData (i + chunkSize)%nat (S k) in
          (EvWrite chunk :: EvDelay 50 :: r.1, r.2)
        else ([], Throw WriteRejected)
    end
  else ([], Normal tt).
Proof.
  rewrite Legacy.sendChunksDelayed_equation_1.
  destruct (decide (i < length thermalData)%nat); reflexivity.
Qed.

Lemma chunk_length (thermalData : list Z) i :
  (i < length thermalData)%nat ->
  (0 < length (take chunkSize (drop i thermalData)) <= chunkSize)%nat.
Proof. intros Hi. rewrite length_take, length_drop. unfold chunkSize. lia. Qed.

Lemma wroteFrom_nothing (thermalData : list Z) i (res : completion unit) :
  (res = Normal tt -> (length thermalData <= i)%nat) ->
  wroteFrom thermalData i ([], res).
Proof.
  intros Hres. unfold wroteFrom. cbn [fst snd writes map concat length].
  split; [reflexivity|]. split; [constructor|].
  split; [intros j chunk Hj; by destruct j|].
  split; [by rewrite Nat.mul_0_r|].
  intros Hok. by rewrite drop_ge by auto.
Qed.

(** What one run of the loop from offset [i] has written. *)
Lemma sendChunks_writes c thermalData n : forall i k,
  (length thermalData - i <= n)%nat ->
  wroteFrom thermalData i (sendChunks c thermalData i k).
Proof.
  induction n as [|n IH]; intros i k Hn; rewrite sendChunks_step;
    (destruct (decide (i < length thermalData)%nat) as [Hi|Hi];
     [|apply wroteFrom_nothing; lia]);
    [lia|].
  cbv zeta. destruct c as [ch|]; [|by apply wroteFrom_nothing].
  destruct (writeValue ch k _); [|by apply wroteFrom_nothing].
  specialize (IH (i + chunkSize)%nat (S k) ltac:(unfold chunkSize; lia)).
  destruct IH as (Hmap & Hlen & Hlook & Hcat & Hdone).
  set (r := sendChunks (Some ch) thermalData (i + chunkSize) (S k)) in *.
  unfold wroteFrom. cbn [fst snd writes map length concat].
  split; [by rewrite <- Hmap|].
  split; [constructor; [by apply chunk_length | done]|].
  split; [|split].
  - intros [|j] chunk Hj; cbn in Hj.
    + inversion Hj; subst. rewrite Nat.mul_0_r, Nat.add_0_r. done.
    + apply Hlook in Hj as [-> Hj].
      replace (i + chunkSize * S j)%nat with (i + chunkSize + chunkSize * j)%nat
        by lia.
      done.
  - rewrite Hcat, <- drop_drop, take_take_drop. f_equal. lia.
  - intros Hok. rewrite (Hdone Hok), <- drop_drop. apply take_drop.
Qed.

(** With a characteristic that accepts every write the loop completes. *)
Lemma sendChunks_completes ch thermalData n : forall i k,
  (forall k chunk, writeValue ch k chunk = true) ->
  (length thermalData - i <= n)%nat ->
  (sendChunks (Some ch) thermalData i k).2 = Normal tt.
Proof.
  induction n as [|n IH]; intros i k Hacc Hn; rewrite sendChunks_step;
    (destruct (decide (i < length thermalData)%nat) as [Hi|Hi]; [|done]);
    [lia|].
  cbv zeta. rewrite Hacc. cbn [snd].
  apply IH; [done | unfold chunkSize; lia].
Qed.

Lemma sendChunksDelayed_paced c thermalData n : forall i k,
  (length thermalData - i <= n)%nat ->
  paced (Legacy.sendChunksDelayed c thermalData i k).1 = true.
Proof.
  induction n as [|n IH]; intros i k Hn; rewrite sendChunksDelayed_step;
    (destruct (decide (i < length thermalData)%nat) as [Hi|Hi]; [|done]);
    [lia|].
  cbv zeta. destruct c as [ch|]; [|done].
  destruct (writeValue ch k _); [|done].
  cbn [fst paced]. apply IH. unfold chunkSize. lia.
Qed.

Lemma writes_only_not_paced (ws : list (list Z)) :
  (2 <= length ws)%nat -> paced (map EvWrite ws) = false.
Proof. destruct ws as [|c1 [|c2 ws]]; simpl; [lia | lia | done]. Qed.

Lemma printImage_connected this env url :
  notConnected this = false ->
  printImage this env url =
  match resample env url with
  | Throw e => ([], Throw e)
  | Normal imageData =>
      sendChunks (characteristic this) (convertToESCPOS imageData) 0 0
  end.
Proof. intros Hc. unfold printImage. by rewrite Hc. Qed.

(** ** Claims about the transport *)

(** C5. When the device accepts the writes, the loop completes and has
    written, in this order and with nothing between them, the slices
    [512 j, 512 j + 512) of the frame, each non-empty and at most 512
    bytes long; their concatenation is the frame. *)
Theorem chunking_complete (ch : Characteristic) (frame : list Z) :
  (forall k chunk, writeValue ch k chunk = true) ->
  let r := sendChunks (Some ch) frame 0 0 in
  r.2 = Normal tt
  /\ r.1 = map EvWrite (writes r.1)
  /\ Forall (fun chunk => (0 < length chunk <= 512)%nat) (writes r.1)
  /\ (forall j chunk, writes r.1 !! j = Some chunk ->
        chunk = take 512 (drop (512 * j) frame)
        /\ (512 * j < length frame)%nat)
  /\ concat (writes r.1) = frame.
Proof.
  intros Hacc r.
  assert (Hok : r.2 = Normal tt)
    by (apply (sendChunks_completes ch frame (length frame)); [done | lia]).
  destruct (sendChunks_writes (Some ch) frame (length frame) 0 0 ltac:(lia))
    as (Hmap & Hlen & Hlook & _ & Hdone).
  fold r in Hmap, Hlen, Hlook, Hdone.
  split; [exact Hok|]. split; [exact Hmap|]. split; [exact Hlen|].
  split; [|by apply Hdone].
  intros j chunk Hj. by apply Hlook in Hj.
Qed.

Lemma chunking_complete_witness :
  (forall k chunk, writeValue acceptAll k chunk = true)
  /\ concat (writes (sendChunks (Some acceptAll) (encodeRaster whitePixel) 0 0).1)
     = encodeRaster whitePixel.
Proof.
  split; [reflexivity|].
  apply (chunking_complete acceptAll (encodeRaster whitePixel)). reflexivity.
Defined.

(** C8. A printer without a device, or whose device reports the link
    down, makes [printImage] throw "Printer not connected" at once:
    nothing is written. *)
Theorem not_connected_no_write (this : ThermalPrinter) (env : Env) (url : string) :
  (device this = None
   \/ exists dev, device this = Some dev /\ gatt_connected dev = false) ->
  printImage this env url = ([], Throw (Error "Printer not connected"))
  /\ writes (printImage this env url).1 = [].
Proof.
  intros Hdown.
  assert (Hnc : notConnected this = true).
  { unfold notConnected. destruct Hdown as [-> | (dev & -> & ->)]; reflexivity. }
  unfold printImage. rewrite Hnc. done.
Qed.

Lemma not_connected_no_write_witness :
  (device droppedPrinter = None
   \/ exists dev, device droppedPrinter = Some dev /\ gatt_connected dev = false)
  /\ printImage droppedPrinter (browser 800 1550) "receipt"%string
     = ([], Throw (Error "Printer not connected")).
Proof.
  assert (H : device droppedPrinter = None
              \/ exists dev, device droppedPrinter = Some dev
                             /\ gatt_connected dev = false)
    by (right; eexists; split; reflexivity).
  split; [exact H|].
  apply (not_connected_no_write droppedPrinter (browser 800 1550) "receipt"%string H).
Defined.

Lemma concat_length_le {A} (ws : list (list A)) n :
  Forall (fun chunk => (length chunk <= n)%nat) ws ->
  (length (concat ws) <= n * length ws)%nat.
Proof.
  induction 1 as [|c ws Hc _ IH]; simpl; [lia|].
  rewrite length_app. lia.
Qed.

Lemma printImage_completed this env url img :
  resample env url = Normal img ->
  (printImage this env url).2 = Normal tt ->
  concat (writes (printImage this env url).1) = convertToESCPOS img.
Proof.
  intros Himg Hok. unfold printImage in *.
  destruct (notConnected this); [discriminate|].
  rewrite Himg in *.
  destruct (sendChunks_writes (characteristic this) (convertToESCPOS img)
              (length (convertToESCPOS img)) 0 0 ltac:(lia))
    as (_ & _ & _ & _ & Hdone).
  by apply Hdone.
Qed.

(** No print job ever waits: its trace holds writes only. *)
Lemma printImage_never_waits this env url :
  (printImage this env url).1 = map EvWrite (writes (printImage this env url).1).
Proof.
  unfold printImage. destruct (notConnected this); [done|].
  destruct (resample env url) as [img|e]; [|done].
  apply (sendChunks_writes (characteristic this) (convertToESCPOS img)
           (length (convertToESCPOS img)) 0 0). lia.
Qed.

Lemma canvasSize_receipt : canvasSize 800 1550 = (384, 744).
Proof. vm_compute. reflexivity. Qed.

Lemma canvasSize_strip : canvasSize 800 3 = (384, 1).
Proof. vm_compute. reflexivity. Qed.

Lemma resample_browser w h cw ch :
  canvasSize w h = (cw, ch) -> (cw =? 0) || (ch =? 0) = false ->
  forall url, resample (browser w h) url = Normal (whiteCanvas cw ch).
Proof.
  intros Hsize Hne url. unfold resample, readPixels, browser.
  cbn [loadImage getImageData]. rewrite Hsize, Hne. reflexivity.
Qed.

(** ** The pipeline on the heap *)

Lemma heap_load_at hp r d i :
  hp !! r = Some (Heap.Float32Array d) -> Heap.load hp r i = JS.f32_get d i.
Proof. intros H. unfold Heap.load. by rewrite H. Qed.

Lemma heap_store_at hp r d i v :
  hp !! r = Some (Heap.Float32Array d) ->
  Heap.store hp r i v = <[r := Heap.Float32Array (JS.f32_set d i v)]> hp.
Proof. intros H. unfold Heap.store. by rewrite H. Qed.

Lemma heap_insert_at (hp : list Heap.typedArray) r a a' :
  hp !! r = Some a -> <[r := a']> hp !! r = Some a'.
Proof. intros H. apply list_lookup_insert_eq. by eapply lookup_lt_Some. Qed.

Lemma actsOn_compose r step1 f1 step2 f2 :
  actsOn r step1 f1 -> actsOn r step2 f2 ->
  actsOn r (fun hp => step2 (step1 hp)) (fun d => f2 (f1 d)).
Proof.
  intros H1 H2 hp d Hd. rewrite (H1 hp d Hd).
  rewrite (H2 _ (f1 d) (heap_insert_at _ _ _ _ Hd)).
  by rewrite list_insert_insert_eq.
Qed.

Lemma actsOn_store r i v :
  actsOn r (fun hp => Heap.store hp r i v) (fun d => JS.f32_set d i v).
Proof. intros hp d Hd. by apply heap_store_at. Qed.

Lemma actsOn_foldl {A} r (step : list Heap.typedArray -> A -> list Heap.typedArray)
    (f : list float -> A -> list float) (xs : list A) :
  (forall x, actsOn r (fun hp => step hp x) (fun d => f d x)) ->
  actsOn r (fun hp => foldl step hp xs) (fun d => foldl f d xs).
Proof.
  intros Hstep. induction xs as [|x xs IH]; intros hp d Hd; cbn [foldl].
  - by rewrite list_insert_id.
  - rewrite (Hstep x hp d Hd).
    rewrite (IH _ (f d x) (heap_insert_at _ _ _ _ Hd)).
    by rewrite list_insert_insert_eq.
Qed.

Lemma heap_distribute_acts data w h x y error dx dy factor :
  actsOn data (fun hp => Heap.distribute data w h x y error hp dx dy factor)
    (fun d => distribute w h x y error d dx dy factor).
Proof.
  intros hp d Hd. unfold Heap.distribute, distribute.
  destruct (_ && _); [|by rewrite list_insert_id].
  cbv zeta. rewrite (heap_load_at _ _ _ _ Hd).
  set (v := (_ + _)%float).
  apply (actsOn_compose data _ _ _ _
           (actsOn_compose data _ _ _ _ (actsOn_store data _ v)
              (actsOn_store data _ v))
           (actsOn_store data _ v) hp d Hd).
Qed.

Lemma heap_ditherPixel_acts data w h y x :
  actsOn data (fun hp => Heap.ditherPixel data w h y hp x)
    (fun d => ditherPixel w h y d x).
Proof.
  intros hp d Hd. unfold Heap.ditherPixel, ditherPixel, grayAt.
  rewrite !(heap_load_at _ _ _ _ Hd). cbv zeta.
  set (gray := if (255 <? _)%float then _ else _).
  set (newVal := if (gray <? 128)%float then _ else _).
  set (error := (gray - newVal)%float).
  apply (actsOn_compose data _ _ _ _
           (actsOn_compose data _ _ _ _
              (actsOn_compose data _ _ _ _
                 (actsOn_compose data _ _ _ _
                    (actsOn_store data _ newVal)
                    (heap_distribute_acts data w h x y error 1 0 _))
                 (heap_distribute_acts data w h x y error (-1) 1 _))
              (heap_distribute_acts data w h x y error 0 1 _))
           (heap_distribute_acts data w h x y error 1 1 _) hp d Hd).
Qed.

Lemma heap_ditherLoop_acts data w h :
  actsOn data (Heap.ditherLoop data w h) (ditherLoop w h).
Proof.
  apply (actsOn_foldl data (Heap.ditherRow data w h) (ditherRow w h)).
  intros y.
  apply (actsOn_foldl data (Heap.ditherPixel data w h y) (ditherPixel w h y)).
  intros x. apply heap_ditherPixel_acts.
Qed.

(** What a run does: it yields the frame the pure encoder computes from
    the width, the height and the bytes of the input, and it leaves
    the heap as it found it but for two new arrays at its end. *)
Lemma heap_convertToESCPOS_run hp image bytes :
  hp !! Heap.ref_data image = Some (Heap.Uint8ClampedArray bytes) ->
  let img := mkImageData (Heap.ref_width image) (Heap.ref_height image) bytes in
  Heap.convertToESCPOS image hp
  = Some (convertToESCPOS img,
          hp ++ [Heap.Float32Array
                   (ditherLoop (width img) (height img)
                      (map (fun b => JS.fround (JS.of_Z b)) bytes));
                 Heap.Uint8ClampedArray (data (applyDithering img))]).
Proof.
  intros Hin img. unfold Heap.convertToESCPOS, Heap.applyDithering.
  rewrite Hin. unfold Heap.new. cbv zeta.
  set (d0 := map _ bytes).
  assert (Hd0 : (hp ++ [Heap.Float32Array d0]) !! length hp
                = Some (Heap.Float32Array d0))
    by (by rewrite list_lookup_middle).
  rewrite (heap_ditherLoop_acts (length hp) _ _ _ d0 Hd0).
  set (d1 := ditherLoop _ _ d0).
  assert (Hupd : <[length hp := Heap.Float32Array d1]>
                   (hp ++ [Heap.Float32Array d0])
                 = hp ++ [Heap.Float32Array d1]).
  { rewrite insert_app_r_alt by lia. by rewrite Nat.sub_diag. }
  rewrite Hupd. rewrite list_lookup_middle by reflexivity.
  cbn [Heap.ref_data Heap.ref_width Heap.ref_height].
  rewrite list_lookup_middle by reflexivity.
  by rewrite <- app_assoc.
Qed.

(** C6. Run on the heap, where the pixel array of the image is shared
    and every call makes its arrays with [new]: whatever else the heap
    holds, the frame is the one the encoder computes from the width,
    the height and the pixel bytes of the image; the call leaves every
    array that existed before it as it was, the pixel array of its
    input too; and a second call on the same image, on the heap the
    first one left, yields the same frame byte for byte, as does a
    call on any image with these contents in any other heap. *)
Theorem pipeline_deterministic (hp : list Heap.typedArray) (image : Heap.ImageDataRef)
    (bytes : list Z) :
  hp !! Heap.ref_data image = Some (Heap.Uint8ClampedArray bytes) ->
  let frame :=
    convertToESCPOS
      (mkImageData (Heap.ref_width image) (Heap.ref_height image) bytes) in
  exists hp1 hp2,
    Heap.convertToESCPOS image hp = Some (frame, hp1)
    /\ (forall r, (r < length hp)%nat -> hp1 !! r = hp !! r)
    /\ Heap.convertToESCPOS image hp1 = Some (frame, hp2)
    /\ (forall hp' image',
          Heap.ref_width image' = Heap.ref_width image ->
          Heap.ref_height image' = Heap.ref_height image ->
          hp' !! Heap.ref_data image' = Some (Heap.Uint8ClampedArray bytes) ->
          exists hp1', Heap.convertToESCPOS image' hp' = Some (frame, hp1')).
Proof.
  intros Hin frame.
  pose proof (heap_convertToESCPOS_run hp image bytes Hin) as Hrun.
  cbv zeta in Hrun. fold frame in Hrun.
  eexists. 
  assert (Hkeep : forall (tl : list Heap.typedArray) r, (r < length hp)%nat ->
                    (hp ++ tl) !! r = hp !! r)
    by (intros tl r Hr; by rewrite lookup_app_l).
  assert (Hin1 : forall tl : list Heap.typedArray,
             (hp ++ tl) !! Heap.ref_data image
             = Some (Heap.Uint8ClampedArray bytes)).
  { intros tl. rewrite Hkeep; [exact Hin|]. by eapply lookup_lt_Some. }
  eexists. split; [exact Hrun|]. split; [apply Hkeep|]. split.
  - apply (heap_convertToESCPOS_run _ image bytes (Hin1 _)).
  - intros hp' image' Hw Hh Hin'. eexists.
    rewrite (heap_convertToESCPOS_run hp' image' bytes Hin').
    cbv zeta. unfold frame. by rewrite Hw, Hh.
Qed.

Lemma pipeline_deterministic_witness :
  exists hp1 hp2,
    Heap.convertToESCPOS Heap.sampleImage Heap.sampleHeap
    = Some (convertToESCPOS blackThenRed, hp1)
    /\ Heap.convertToESCPOS Heap.sampleImage hp1
       = Some (convertToESCPOS blackThenRed, hp2).
Proof.
  destruct (pipeline_deterministic Heap.sampleHeap Heap.sampleImage
              [0; 0; 0; 255; 200; 0; 0; 255] eq_refl)
    as (hp1 & hp2 & H1 & _ & H2 & _).
  exists hp1, hp2. split; [exact H1 | exact H2].
Defined.

(** C7, on the receipt the application prints (800 x 1550, a canvas of
    384 x 744): the job completes, its trace holds nothing but writes,
    more than one of them, so consecutive writes follow each other with
    no delay between. *)
Theorem printImage_not_paced :
  let r := printImage connectedPrinter (browser 800 1550) "receipt"%string in
  r.2 = Normal tt
  /\ r.1 = map EvWrite (writes r.1)
  /\ (2 <= length (writes r.1))%nat
  /\ paced r.1 = false.
Proof.
  intros r. subst r.
  rewrite printImage_connected by reflexivity.
  rewrite (resample_browser 800 1550 384 744 canvasSize_receipt eq_refl).
  set (frame := convertToESCPOS (whiteCanvas 384 744)).
  assert (Hlen : Z.of_nat (length frame) = 35728).
  { unfold frame, convertToESCPOS. rewrite encodeRaster_length. reflexivity. }
  assert (Hok : (sendChunks (characteristic connectedPrinter) frame 0 0).2
                = Normal tt)
    by (apply (sendChunks_completes acceptAll frame (length frame));
        [reflexivity | lia]).
  destruct (sendChunks_writes (characteristic connectedPrinter) frame
              (length frame) 0 0 ltac:(lia))
    as (Hmap & Hchunks & _ & _ & Hdone).
  specialize (Hdone Hok).
  set (r := sendChunks (characteristic connectedPrinter) frame 0 0) in *.
  assert (Hcount : (2 <= length (writes r.1))%nat).
  { assert (Hle : (length (concat (writes r.1))
                   <= chunkSize * length (writes r.1))%nat).
    { apply concat_length_le. eapply Forall_impl; [exact Hchunks|].
      cbn. intros chunk Hc. lia. }
    rewrite Hdone, drop_0 in Hle.
    unfold chunkSize in Hle. lia. }
  split; [exact Hok|]. split; [exact Hmap|]. split; [exact Hcount|].
  rewrite Hmap. by apply writes_only_not_paced.
Qed.

(** ** The two roundings of the canvas height *)

(** The number of bits of a significand. *)
Lemma digits2_pos_size p : digits2_pos p = Pos.size p.
Proof. induction p as [p IH|p IH|]; simpl; congruence. Qed.

Lemma Zdigits2_unique m d :
  2 ^ (d - 1) <= m < 2 ^ d -> 1 <= d -> Zdigits2 m = d.
Proof.
  intros Hm Hd.
  assert (0 < 2 ^ (d - 1)) by (apply Z.pow_pos_nonneg; lia).
  destruct m as [|p|p]; try lia. cbn [Zdigits2]. rewrite digits2_pos_size.
  pose proof (Pos.size_gt p) as Hgt. pose proof (Pos.size_le p) as Hle.
  apply Pos2Z.pos_lt_pos in Hgt. apply Pos2Z.pos_le_pos in Hle.
  rewrite Pos2Z.inj_pow in Hgt, Hle.
  change (Z.pos p~0) with (2 * Z.pos p) in Hle.
  set (s := Z.pos (Pos.size p)) in *.
  assert (Hs : 1 <= s) by (unfold s; lia).
  assert (Hle' : 2 ^ (s - 1) <= Z.pos p).
  { assert (Hpow : 2 ^ s = 2 * 2 ^ (s - 1))
      by (rewrite <- Z.pow_succ_r by lia; f_equal; lia).
    lia. }
  assert (Z.log2 (Z.pos p) = s - 1)
    by (apply Z.log2_unique; [lia|]; replace (Z.succ (s - 1)) with s by lia; lia).
  assert (Z.log2 (Z.pos p) = d - 1)
    by (apply Z.log2_unique; [lia|]; replace (Z.succ (d - 1)) with d by lia; lia).
  lia.
Qed.

(** Rounding a quotient from its integral part and the position of
    the rest. *)
Lemma round_locQ A B :
  0 < B -> round_nearest_even (A / B) (locQ A B) = rne A B.
Proof.
  intros HB. unfold locQ, rne, round_nearest_even.
  pose proof (Z.mod_pos_bound A B HB).
  destruct (Z.eqb_spec (A mod B) 0) as [H0|H0].
  - destruct (Z.compare_spec (2 * (A mod B)) B); [lia | reflexivity | lia].
  - destruct (2 * (A mod B) ?= B); reflexivity.
Qed.

Lemma rne_bounds A B :
  0 < B -> - B <= 2 * (rne A B * B - A) <= B.
Proof.
  intros HB. unfold rne.
  pose proof (Z.mod_pos_bound A B HB).
  pose proof (Z.div_mod A B ltac:(lia)) as Hdm.
  destruct (Z.compare_spec (2 * (A mod B)) B);
    [destruct (Z.even (A / B))| |]; nia.
Qed.

Lemma rne_range A B lo hi :
  0 < B -> lo * B <= A < hi * B -> lo <= rne A B <= hi.
Proof.
  intros HB HA. unfold rne.
  pose proof (Z.mod_pos_bound A B HB).
  pose proof (Z.div_mod A B ltac:(lia)) as Hdm.
  assert (lo <= A / B < hi)
    by (split; [apply Z.div_le_lower_bound; lia
               | apply Z.div_lt_upper_bound; lia]).
  destruct (2 * (A mod B) ?= B); [destruct (Z.even (A / B))| |]; lia.
Qed.

(** An even multiple is reached from half a step below. *)
Lemma rne_ge_even A D E :
  0 < D -> Z.even E = true -> 2 * E * D - D <= 2 * A -> E <= rne A D.
Proof.
  intros HD HE HA. unfold rne.
  pose proof (Z.mod_pos_bound A D HD).
  pose proof (Z.div_mod A D ltac:(lia)) as Hdm.
  assert (Hq : E - 1 <= A / D) by (apply Z.div_le_lower_bound; nia).
  destruct (Z.eq_dec (A / D) (E - 1)) as [Heq|Hne].
  - rewrite Heq in *.
    assert (Hodd : Z.even (E - 1) = false).
    { rewrite Z.even_sub. rewrite HE. reflexivity. }
    rewrite Hodd.
    destruct (Z.compare_spec (2 * (A mod D)) D); lia.
  - destruct (2 * (A mod D) ?= D); [destruct (Z.even (A / D))| |]; lia.
Qed.

Lemma loc_of_shr_record_of_loc m l :
  loc_of_shr_record (shr_record_of_loc m l) = l
  /\ shr_m (shr_record_of_loc m l) = m.
Proof. destruct l as [|[]]; split; reflexivity. Qed.

Lemma encodes_of_loc A B :
  encodes (shr_record_of_loc (A / B) (locQ A B)) A B.
Proof. split; apply loc_of_shr_record_of_loc. Qed.

(** A shift to the right by one bit doubles the divisor and keeps track
    of the rest. *)
Lemma shr_1_encodes mrs A B :
  0 <= A -> 0 < B -> encodes mrs A B -> encodes (shr_1 mrs) A (2 * B).
Proof.
  intros HA HB [Hm Hl]. destruct mrs as [m r s]. cbn [shr_m] in Hm.
  pose proof (Z.mod_pos_bound A B HB) as Hr.
  assert (Hm0 : 0 <= m) by (subst m; apply Z.div_pos; lia).
  assert (Hdiv : A / (2 * B) = m / 2).
  { rewrite Hm, Z.mul_comm. symmetry. apply Z.div_div; lia. }
  assert (Hmod : A mod (2 * B) = A mod B + B * (m mod 2)).
  { rewrite Hm, (Z.mul_comm 2 B). apply Z.rem_mul_r; lia. }
  assert (Hs : orb r s = negb (A mod B =? 0)).
  { unfold locQ in Hl. destruct r, s, (A mod B =? 0); cbn in Hl |- *;
      try reflexivity; discriminate. }
  unfold encodes, locQ. rewrite Hdiv, Hmod.
  assert (Hcase : forall (b : bool) m',
             m / 2 = m' -> m mod 2 = (if b then 1 else 0) ->
             shr_m {| shr_m := m'; shr_r := b; shr_s := orb r s |} = m / 2
             /\ loc_of_shr_record {| shr_m := m'; shr_r := b; shr_s := orb r s |}
                = (if A mod B + B * (m mod 2) =? 0 then loc_Exact
                   else loc_Inexact (2 * (A mod B + B * (m mod 2)) ?= 2 * B))).
  { intros b m' Hq Hb. split; [symmetry; exact Hq|]. rewrite Hb, Hs.
    destruct b; destruct (Z.eqb_spec (A mod B) 0) as [H0|H0];
      cbn [negb loc_of_shr_record].
    - rewrite H0. replace (0 + B * 1 =? 0) with false by (symmetry; apply Z.eqb_neq; lia).
      f_equal. symmetry. apply Z.compare_eq_iff. lia.
    - replace (A mod B + B * 1 =? 0) with false by (symmetry; apply Z.eqb_neq; lia).
      f_equal. symmetry. apply Z.compare_gt_iff. lia.
    - rewrite H0, Z.mul_0_r. reflexivity.
    - replace (A mod B + B * 0 =? 0) with false by (symmetry; apply Z.eqb_neq; lia).
      f_equal. symmetry. apply Z.compare_lt_iff. lia. }
  destruct m as [|[p|p|]|p]; try lia; cbn [shr_1].
  - apply (Hcase false); reflexivity.
  - apply (Hcase true).
    + rewrite Pos2Z.inj_xI. symmetry. apply (Z.div_unique _ 2 _ 1); lia.
    + rewrite Pos2Z.inj_xI. symmetry. apply (Z.mod_unique _ 2 (Z.pos p) 1); lia.
  - apply (Hcase false).
    + rewrite Pos2Z.inj_xO. symmetry. apply (Z.div_unique _ 2 _ 0); lia.
    + rewrite Pos2Z.inj_xO. symmetry. apply (Z.mod_unique _ 2 (Z.pos p) 0); lia.
  - apply (Hcase true); reflexivity.
Qed.

Lemma iter_shr_1_encodes (p : positive) : forall mrs A B,
  0 <= A -> 0 < B -> encodes mrs A B ->
  encodes (SpecFloat.iter_pos shr_1 p mrs) A (2 ^ Z.pos p * B).
Proof.
  induction p as [p IH|p IH|]; intros mrs A B HA HB He; cbn [SpecFloat.iter_pos].
  - assert (Hp : 0 < 2 ^ Z.pos p) by (apply Z.pow_pos_nonneg; lia).
    replace (2 ^ Z.pos p~1 * B) with (2 ^ Z.pos p * (2 ^ Z.pos p * (2 * B))).
    + apply IH; [lia | nia |]. apply IH; [lia | lia |].
      by apply shr_1_encodes.
    + change (Z.pos p~1) with (2 * Z.pos p + 1).
      rewrite Z.pow_add_r, Z.pow_twice_r by lia. ring.
  - assert (Hp : 0 < 2 ^ Z.pos p) by (apply Z.pow_pos_nonneg; lia).
    replace (2 ^ Z.pos p~0 * B) with (2 ^ Z.pos p * (2 ^ Z.pos p * B)).
    + apply IH; [lia | nia |]. by apply IH.
    + change (Z.pos p~0) with (2 * Z.pos p).
      rewrite Z.pow_twice_r. ring.
  - change (2 ^ 1) with 2. by apply shr_1_encodes.
Qed.

Lemma shr_encodes A B ex n :
  0 <= A -> 0 < B -> 0 <= n ->
  exists mrs, shr (shr_record_of_loc (A / B) (locQ A B)) ex n = (mrs, ex + n)
              /\ encodes mrs A (2 ^ n * B).
Proof.
  intros HA HB Hn. destruct n as [|p|p]; try lia; cbn [shr].
  - eexists. split; [by rewrite Z.add_0_r|].
    change (2 ^ 0) with 1. rewrite Z.mul_1_l. apply encodes_of_loc.
  - eexists. split; [reflexivity|].
    apply iter_shr_1_encodes; [lia | lia | apply encodes_of_loc].
Qed.

Lemma fexp_normal e : -1000 <= e -> fexp prec emax e = e - 53.
Proof. intros He. unfold fexp, emin, prec, emax. lia. Qed.

(** The rounding step of the specification on a quotient of
    [d >= 53] bits in the normal range: the quotient by
    [2^(d - 53) * B] is rounded to nearest even and renormalised. *)
Lemma binary_round_aux_normal A B ex d :
  0 <= A -> 0 < B -> 53 <= d -> 2 ^ (d - 1) <= A / B < 2 ^ d ->
  -900 <= ex -> ex + d <= 900 ->
  binary_round_aux prec emax false (A / B) ex (locQ A B)
  = norm53 (rne A (2 ^ (d - 53) * B)) (ex + (d - 53))
  /\ 2 ^ 52 <= rne A (2 ^ (d - 53) * B) <= 2 ^ 53.
Proof.
  intros HA HB Hd Hq Hex Hex'.
  assert (Hn : 0 < 2 ^ (d - 53)) by (apply Z.pow_pos_nonneg; lia).
  assert (Hlo : 2 ^ (d - 1) = 2 ^ 52 * 2 ^ (d - 53))
    by (rewrite <- Z.pow_add_r by lia; f_equal; lia).
  assert (Hhi : 2 ^ d = 2 ^ 53 * 2 ^ (d - 53))
    by (rewrite <- Z.pow_add_r by lia; f_equal; lia).
  pose proof (Z.mul_div_le A B HB) as Hle.
  pose proof (Z.mul_succ_div_gt A B HB) as Hgt.
  set (R := rne A (2 ^ (d - 53) * B)).
  assert (HR : 2 ^ 52 <= R <= 2 ^ 53).
  { apply rne_range; [nia|]. nia. }
  split; [|exact HR].
  unfold binary_round_aux, shr_fexp.
  rewrite (Zdigits2_unique (A / B) d Hq ltac:(lia)).
  rewrite fexp_normal by lia.
  replace (d + ex - 53 - ex) with (d - 53) by lia.
  destruct (shr_encodes A B ex (d - 53) HA HB ltac:(lia))
    as (mrs & Hshr & Hm & Hl).
  rewrite Hshr, Hm, Hl, round_locQ by nia. fold R.
  unfold norm53. destruct (Z.eqb_spec R (2 ^ 53)) as [HR53|HR53].
  - rewrite HR53.
    rewrite (Zdigits2_unique (2 ^ 53) 54) by (cbn; lia).
    rewrite fexp_normal by lia.
    replace (54 + (ex + (d - 53)) - 53 - (ex + (d - 53))) with 1 by lia.
    cbn [shr shr_record_of_loc SpecFloat.iter_pos].
    change (shr_m (shr_1 {| shr_m := 2 ^ 53; shr_r := false; shr_s := false |}))
      with (2 ^ 52).
    change (2 ^ 52) with (Z.pos (Z.to_pos (2 ^ 52))) at 1. cbv iota beta.
    replace (ex + (d - 53) + 1 <=? emax - prec) with true; [reflexivity|].
    symmetry. apply Z.leb_le. unfold emax, prec. lia.
  - rewrite (Zdigits2_unique R 53) by lia.
    rewrite fexp_normal by lia.
    replace (53 + (ex + (d - 53)) - 53 - (ex + (d - 53))) with 0 by lia.
    cbn [shr shr_record_of_loc shr_m].
    assert (HRpos : 0 < R) by lia.
    destruct R as [|r|r]; try lia. cbn [Z.to_pos].
    replace (ex + (d - 53) <=? emax - prec) with true; [reflexivity|].
    symmetry. apply Z.leb_le. unfold emax, prec. lia.
Qed.

Lemma pow2_pos k : 0 <= k -> 0 < 2 ^ k.
Proof. intros. apply Z.pow_pos_nonneg; lia. Qed.

(** The result of a rounding step as a normal double. *)
Lemma norm53_finite R e :
  2 ^ 52 <= R <= 2 ^ 53 ->
  exists m c, norm53 R e = S754_finite false (Z.to_pos m) (e + c)
              /\ 2 ^ 52 <= m < 2 ^ 53 /\ 0 <= c <= 1 /\ R = m * 2 ^ c.
Proof.
  intros HR. unfold norm53. destruct (Z.eqb_spec R (2 ^ 53)) as [->|Hne].
  - exists (2 ^ 52), 1. repeat split; try reflexivity; lia.
  - exists R, 0. rewrite Z.add_0_r. repeat split; try reflexivity; lia.
Qed.

Lemma locQ_1 A : locQ A 1 = loc_Exact.
Proof. unfold locQ. by rewrite Z.mod_1_r. Qed.

Lemma rne_1 A : rne A 1 = A.
Proof. unfold rne. by rewrite Z.mod_1_r, Z.div_1_r. Qed.

Lemma pos_iter_xO (m q : positive) :
  Z.pos (Pos.iter xO m q) = Z.pos m * 2 ^ Z.pos q.
Proof.
  rewrite (Pos.iter_swap_gen _ _ Z.pos xO (Z.mul 2)) by reflexivity.
  change (Pos.iter (Z.mul 2) (Z.pos m) q) with (Z.shiftl (Z.pos m) (Z.pos q)).
  apply Z.shiftl_mul_pow2. lia.
Qed.

(** An integer of [d <= 53] bits converts exactly. *)
Lemma Prim2SF_of_Z n d :
  2 ^ (d - 1) <= n < 2 ^ d -> 1 <= d <= 53 ->
  Prim2SF (JS.of_Z n)
  = S754_finite false (Z.to_pos (n * 2 ^ (53 - d))) (d - 53).
Proof.
  intros Hn Hd.
  assert (H0 : 0 < 2 ^ (d - 1)) by (apply pow2_pos; lia).
  assert (Hk : 0 < 2 ^ (53 - d)) by (apply pow2_pos; lia).
  assert (Hlo : 2 ^ 52 = 2 ^ (d - 1) * 2 ^ (53 - d))
    by (rewrite <- Z.pow_add_r by lia; f_equal; lia).
  assert (Hhi : 2 ^ 53 = 2 ^ d * 2 ^ (53 - d))
    by (rewrite <- Z.pow_add_r by lia; f_equal; lia).
  assert (Hd63 : 2 ^ d <= 2 ^ 53) by (apply Z.pow_le_mono_r; lia).
  unfold JS.of_Z. replace (n <? 0) with false by (symmetry; apply Z.ltb_ge; lia).
  rewrite of_uint63_spec, Uint63.of_Z_spec.
  rewrite Z.mod_small by (change Uint63Axioms.wB with (2 ^ 63); lia).
  destruct n as [|p|p]; try lia.
  cbn [binary_normalize]. unfold binary_round.
  pose proof (Zdigits2_unique (Z.pos p) d Hn ltac:(lia)) as Hdig.
  cbn [Zdigits2] in Hdig. rewrite Hdig, fexp_normal by lia.
  assert (Hal : shl_align p 0 (d + 0 - 53)
                = (Z.to_pos (Z.pos p * 2 ^ (53 - d)), d - 53)).
  { unfold shl_align. replace (d + 0 - 53 - 0) with (d - 53) by lia.
    destruct (d - 53) as [|k|k] eqn:Hdk; try lia.
    - replace (53 - d) with 0 by lia. rewrite Z.mul_1_r. reflexivity.
    - replace (53 - d) with (Z.pos k) by lia.
      rewrite <- pos_iter_xO. replace (d + 0 - 53) with (Z.neg k) by lia.
      reflexivity. }
  rewrite Hal.
  set (A := Z.pos p * 2 ^ (53 - d)).
  assert (HA : 2 ^ 52 <= A < 2 ^ 53) by (unfold A; nia).
  rewrite Z2Pos.id by lia.
  rewrite <- (Z.div_1_r A) at 1. rewrite <- (locQ_1 A).
  destruct (binary_round_aux_normal A 1 (d - 53) 53) as [Hbra _];
    try lia; [rewrite Z.div_1_r; cbn; lia|].
  rewrite Hbra. replace (53 - 53) with 0 by lia.
  change (2 ^ 0 * 1) with 1. rewrite rne_1. unfold norm53.
  replace (A =? 2 ^ 53) with false by (symmetry; apply Z.eqb_neq; lia).
  by rewrite Z.add_0_r.
Qed.

Lemma new_location_locQ A B :
  0 < B -> new_location B (A mod B) = locQ A B.
Proof.
  intros HB. pose proof (Z.mod_pos_bound A B HB) as Hr.
  unfold new_location, new_location_even, new_location_odd, locQ.
  destruct (Z.even B) eqn:Hev; [reflexivity|].
  destruct (A mod B =? 0); [reflexivity|]. f_equal.
  assert (Hodd : Z.odd B = true) by (rewrite <- Z.negb_even, Hev; reflexivity).
  apply Z.odd_spec in Hodd as [k Hk].
  destruct (Z.compare_spec (2 * (A mod B) + 1) B);
    destruct (Z.compare_spec (2 * (A mod B)) B); try reflexivity; lia.
Qed.

(** The quotient of two normal doubles with 53-bit significands. *)
Lemma SFdiv_normal (mh mw : positive) (eh ew : Z) :
  2 ^ 52 <= Z.pos mh < 2 ^ 53 -> 2 ^ 52 <= Z.pos mw < 2 ^ 53 ->
  -100 <= eh - ew <= 100 ->
  SFdiv prec emax (S754_finite false mh eh) (S754_finite false mw ew)
  = binary_round_aux prec emax false
      ((Z.pos mh * 2 ^ 53) / Z.pos mw) (eh - ew - 53)
      (locQ (Z.pos mh * 2 ^ 53) (Z.pos mw)).
Proof.
  intros Hh Hw He. unfold SFdiv, SFdiv_core_binary. cbn [xorb].
  rewrite !(Zdigits2_unique _ 53) by (cbn; lia).
  rewrite fexp_normal by lia.
  replace (Z.min (53 + eh - (53 + ew) - 53) (eh - ew))
    with (eh - ew - 53) by lia.
  replace (eh - ew - (eh - ew - 53)) with 53 by lia.
  cbv iota. rewrite Z.shiftl_mul_pow2 by lia.
  set (A := Z.pos mh * 2 ^ 53).
  assert (Heucl : Z.div_eucl A (Z.pos mw) = (A / Z.pos mw, A mod Z.pos mw))
    by (unfold Z.div, Z.modulo; by destruct (Z.div_eucl A (Z.pos mw))).
  rewrite Heucl. by rewrite new_location_locQ.
Qed.

(** The two roundings, in integers. [Rq] is the quotient [128 h T / w]
    rounded, [P] is three times its significand, [Rp] is [P / D]
    rounded; [K D C = 2^51 T]. *)
Lemma floor_of_rounded h w N T Rq mq C D Rp K :
  0 < w -> 0 <= h -> N * w <= 384 * h < (N + 1) * w -> 0 <= N ->
  13 * w <= 2 * T ->
  - w <= 2 * (Rq * w - 128 * h * T) <= w ->
  Rq = mq * C -> (C = 1 \/ C = 2) ->
  2 ^ 52 <= D <= 2 ^ 53 ->
  Rp = rne (3 * 2 ^ 51 * mq) D ->
  K * D * C = 2 ^ 51 * T -> 0 < K -> Z.even K = true ->
  N * K <= Rp < (N + 1) * K.
Proof.
  intros Hw Hh HN HN0 HT Hq HRq HC HD HRp HK HK0 Hev.
  assert (H3 : N * T - 1 <= 3 * Rq <= (N + 1) * T - 5).
  { split.
    - assert (2 * N * w * T - 3 * w <= 6 * Rq * w) by nia.
      assert ((2 * N * T - 3) * w <= (6 * Rq) * w) by lia.
      assert (2 * N * T - 3 <= 6 * Rq) by (apply (Z.mul_le_mono_pos_r _ _ w); lia).
      lia.
    - assert (6 * Rq * w <= 2 * ((N + 1) * w - 1) * T + 3 * w) by nia.
      assert ((6 * Rq) * w <= (2 * (N + 1) * T - 10) * w) by nia.
      assert (6 * Rq <= 2 * (N + 1) * T - 10) by (apply (Z.mul_le_mono_pos_r _ _ w); lia).
      lia. }
  set (P := 3 * 2 ^ 51 * mq) in *.
  assert (HP : P * C = 2 ^ 51 * (3 * Rq)) by (unfold P; subst Rq; ring).
  assert (HPlo : N * (K * D * C) - 2 ^ 51 <= P * C) by nia.
  assert (HPhi : P * C <= (N + 1) * (K * D * C) - 5 * 2 ^ 51) by nia.
  assert (HD0 : 0 < D) by lia.
  split.
  - rewrite HRp. apply rne_ge_even; [lia | | ].
    + rewrite Z.even_mul, Hev. apply orb_true_r.
    + destruct HC as [-> | ->]; nia.
  - pose proof (rne_bounds P D HD0) as Hb. rewrite <- HRp in Hb.
    assert (Rp * D < (N + 1) * K * D) by (destruct HC as [-> | ->]; nia).
    apply (Z.mul_lt_mono_pos_r D); lia.
Qed.

Lemma log2_digits n :
  1 <= n -> 2 ^ (Z.log2 n + 1 - 1) <= n < 2 ^ (Z.log2 n + 1) /\ 1 <= Z.log2 n + 1.
Proof.
  intros Hn. pose proof (Z.log2_spec n ltac:(lia)) as Hs.
  pose proof (Z.log2_nonneg n).
  replace (Z.log2 n + 1 - 1) with (Z.log2 n) by lia.
  replace (Z.log2 n + 1) with (Z.succ (Z.log2 n)) by lia. lia.
Qed.

Lemma log2_digits_le n b : 1 <= n < 2 ^ b -> Z.log2 n + 1 <= b.
Proof. intros Hn. assert (Z.log2 n < b) by (apply Z.log2_lt_pow2; lia). lia. Qed.

(** The significand of an integer of [d] bits. *)
Lemma significand_range n d :
  2 ^ (d - 1) <= n < 2 ^ d -> 1 <= d <= 53 ->
  2 ^ 52 <= n * 2 ^ (53 - d) < 2 ^ 53.
Proof.
  intros Hn Hd.
  assert (H0 : 0 < 2 ^ (d - 1)) by (apply pow2_pos; lia).
  assert (Hk : 0 < 2 ^ (53 - d)) by (apply pow2_pos; lia).
  assert (Hlo : 2 ^ 52 = 2 ^ (d - 1) * 2 ^ (53 - d))
    by (rewrite <- Z.pow_add_r by lia; f_equal; lia).
  assert (Hhi : 2 ^ 53 = 2 ^ d * 2 ^ (53 - d))
    by (rewrite <- Z.pow_add_r by lia; f_equal; lia).
  nia.
Qed.

(** [img.height / img.width] as a double. *)
Lemma aspectRatio_SF h w dh dw :
  2 ^ (dh - 1) <= h < 2 ^ dh -> 1 <= dh <= 21 ->
  2 ^ (dw - 1) <= w < 2 ^ dw -> 1 <= dw <= 21 ->
  exists mq c n Rq,
    Prim2SF (JS.of_Z h / JS.of_Z w)
    = S754_finite false (Z.to_pos mq) (dh - dw - 53 + n + c)
    /\ 2 ^ 52 <= mq < 2 ^ 53 /\ 0 <= c <= 1 /\ 0 <= n <= 1
    /\ Rq = mq * 2 ^ c
    /\ - (2 ^ n * (w * 2 ^ (53 - dw)))
       <= 2 * (Rq * (2 ^ n * (w * 2 ^ (53 - dw))) - h * 2 ^ (53 - dh) * 2 ^ 53)
       <= 2 ^ n * (w * 2 ^ (53 - dw)).
Proof.
  intros Hh Hdh Hw Hdw.
  pose proof (significand_range h dh Hh ltac:(lia)) as Hmh.
  pose proof (significand_range w dw Hw ltac:(lia)) as Hmw.
  rewrite div_spec.
  rewrite (Prim2SF_of_Z h dh Hh ltac:(lia)), (Prim2SF_of_Z w dw Hw ltac:(lia)).
  set (mh := h * 2 ^ (53 - dh)) in *. set (mw := w * 2 ^ (53 - dw)) in *.
  rewrite SFdiv_normal by (rewrite ?Z2Pos.id by lia; lia).
  rewrite !Z2Pos.id by lia.
  set (A := mh * 2 ^ 53). set (B := mw).
  assert (HB : 0 < B) by (unfold B; lia).
  assert (HA : 0 <= A) by (unfold A; lia).
  assert (Hq : 2 ^ 52 <= A / B < 2 ^ 54).
  { split.
    - apply Z.div_le_lower_bound; [lia|]. unfold A, B. nia.
    - apply Z.div_lt_upper_bound; [lia|]. unfold A, B. nia. }
  set (n := if A / B <? 2 ^ 53 then 0 else 1).
  assert (Hn : 0 <= n <= 1 /\ 2 ^ (53 + n - 1) <= A / B < 2 ^ (53 + n)).
  { unfold n. destruct (Z.ltb_spec (A / B) (2 ^ 53)); cbn; lia. }
  destruct Hn as [Hn Hqn].
  destruct (binary_round_aux_normal A B (dh - 53 - (dw - 53) - 53) (53 + n))
    as [Hbra HR]; try lia.
  rewrite Hbra. replace (53 + n - 53) with n in * by lia.
  destruct (norm53_finite _ (dh - 53 - (dw - 53) - 53 + n) HR)
    as (mq & c & Hnorm & Hmq & Hc & HRq).
  exists mq, c, n, (rne A (2 ^ n * B)).
  split; [rewrite Hnorm; f_equal; lia|].
  split; [exact Hmq|]. split; [exact Hc|]. split; [exact Hn|].
  split; [exact HRq|].
  assert (0 < 2 ^ n) by (apply pow2_pos; lia).
  apply (rne_bounds A (2 ^ n * B)). nia.
Qed.

(** [384 * x] for a normal double [x]. *)
Lemma times384_SF (x : float) mq eq :
  Prim2SF x = S754_finite false (Z.to_pos mq) eq ->
  2 ^ 52 <= mq < 2 ^ 53 -> -200 <= eq <= 200 ->
  exists mp c n,
    Prim2SF (384 * x) = S754_finite false (Z.to_pos mp) (-44 + eq + n + c)
    /\ 2 ^ 52 <= mp < 2 ^ 53 /\ 0 <= c <= 1 /\ 52 <= n <= 53
    /\ mp * 2 ^ c = rne (3 * 2 ^ 51 * mq) (2 ^ n).
Proof.
  intros Hx Hmq Heq. rewrite mul_spec, Hx.
  change (Prim2SF 384) with (S754_finite false 6755399441055744 (-44)).
  change (SF64mul (S754_finite false 6755399441055744 (-44))
            (S754_finite false (Z.to_pos mq) eq))
    with (binary_round_aux prec emax false
            (Z.pos (6755399441055744 * Z.to_pos mq)) (-44 + eq) loc_Exact).
  set (P := Z.pos (6755399441055744 * Z.to_pos mq)).
  assert (HP : P = 3 * 2 ^ 51 * mq).
  { unfold P. rewrite Pos2Z.inj_mul, Z2Pos.id by lia. reflexivity. }
  assert (HPr : 2 ^ 104 <= P < 2 ^ 106) by (rewrite HP; lia).
  set (n := if P <? 2 ^ 105 then 52 else 53).
  assert (Hn : 52 <= n <= 53 /\ 2 ^ (53 + n - 1) <= P < 2 ^ (53 + n)).
  { unfold n. destruct (Z.ltb_spec P (2 ^ 105)); cbn; lia. }
  destruct Hn as [Hn HPn].
  replace (binary_round_aux prec emax false P (-44 + eq) loc_Exact)
    with (binary_round_aux prec emax false (P / 1) (-44 + eq) (locQ P 1))
    by (by rewrite Z.div_1_r, locQ_1).
  destruct (binary_round_aux_normal P 1 (-44 + eq) (53 + n)) as [Hbra HR];
    try lia; [by rewrite Z.div_1_r|].
  rewrite Hbra. replace (53 + n - 53) with n in * by lia.
  rewrite Z.mul_1_r in *.
  destruct (norm53_finite _ (-44 + eq + n) HR) as (mp & c & Hnorm & Hmp & Hc & HRp).
  exists mp, c, n. rewrite Hnorm, <- HP.
  repeat split; try lia. 
Qed.

Lemma Prim2SF_of_Z_0 : Prim2SF (JS.of_Z 0) = S754_zero false.
Proof. reflexivity. Qed.

(** An integer below 2^53 survives the conversion to a double and back
    to an [unsigned long]. *)
Lemma toUnsignedLong_of_Z N :
  0 <= N < 2 ^ 53 -> JS.toUnsignedLong (JS.of_Z N) = N mod 2 ^ 32.
Proof.
  intros HN. unfold JS.toUnsignedLong.
  destruct (Z.eq_dec N 0) as [->|Hne]; [by rewrite Prim2SF_of_Z_0|].
  destruct (log2_digits N ltac:(lia)) as [Hd Hd1].
  pose proof (log2_digits_le N 53 ltac:(lia)) as Hd53.
  set (d := Z.log2 N + 1) in *.
  rewrite (Prim2SF_of_Z N d Hd ltac:(lia)).
  pose proof (significand_range N d Hd ltac:(lia)).
  rewrite Z2Pos.id by lia.
  rewrite Z.shiftl_div_pow2 by lia.
  replace (- (d - 53)) with (53 - d) by lia.
  rewrite Z.div_mul by (apply Z.pow_nonzero; lia). reflexivity.
Qed.

(** [Math.floor] of a positive double below 2^31 with a fractional
    part, through the setter of a canvas dimension. *)
Lemma floor_to_dimension (x : float) m e N default :
  Prim2SF x = S754_finite false (Z.to_pos m) e ->
  0 < m -> e < 0 -> m / 2 ^ (- e) = N -> 0 <= N <= 2147483647 ->
  JS.reflectUnsignedLong default (JS.Math_floor x) = N.
Proof.
  intros Hx Hm He HN HNr.
  unfold JS.reflectUnsignedLong, JS.Math_floor, JS.floorZ. rewrite Hx.
  replace (0 <=? e) with false by (symmetry; apply Z.leb_gt; lia).
  rewrite Z2Pos.id by lia. rewrite Z.shiftl_div_pow2 by lia. rewrite HN.
  rewrite toUnsignedLong_of_Z by lia.
  rewrite Z.mod_small by lia.
  replace (N <=? 2147483647) with true by (symmetry; apply Z.leb_le; lia).
  reflexivity.
Qed.

Lemma pow2_even k : 1 <= k -> Z.even (2 ^ k) = true.
Proof.
  intros Hk. replace k with (Z.succ (k - 1)) by lia.
  rewrite Z.pow_succ_r by lia. by rewrite Z.even_mul.
Qed.

(** The canvas is given the height [floor(384 * h / w)]: the quotient
    and the product are rounded, the floor of the result is the floor
    of the exact value. *)
Lemma canvasSize_exact w h :
  1 <= w <= 2 ^ 20 -> 1 <= h <= 2 ^ 20 ->
  canvasSize w h = (384, 384 * h / w).
Proof.
  intros Hw Hh. unfold canvasSize. cbv zeta. f_equal; try reflexivity.
  destruct (log2_digits h ltac:(lia)) as [Hdh Hdh1].
  destruct (log2_digits w ltac:(lia)) as [Hdw Hdw1].
  pose proof (log2_digits_le h 21 ltac:(lia)) as Hdh21.
  pose proof (log2_digits_le w 21 ltac:(lia)) as Hdw21.
  set (dh := Z.log2 h + 1) in *. set (dw := Z.log2 w + 1) in *.
  destruct (aspectRatio_SF h w dh dw Hdh ltac:(lia) Hdw ltac:(lia))
    as (mq & c & n & Rq & Hq & Hmq & Hc & Hn & HRq & Hbq).
  destruct (times384_SF _ mq _ Hq Hmq ltac:(lia))
    as (mp & c2 & n2 & Hp & Hmp & Hc2 & Hn2 & HRp).
  set (N := 384 * h / w).
  assert (HN : N * w <= 384 * h < (N + 1) * w).
  { unfold N. pose proof (Z.mul_div_le (384 * h) w ltac:(lia)).
    pose proof (Z.mul_succ_div_gt (384 * h) w ltac:(lia)). lia. }
  assert (HN0 : 0 <= N) by (unfold N; apply Z.div_pos; lia).
  assert (HNhi : N <= 384 * 2 ^ 20).
  { unfold N. apply Z.div_le_upper_bound; [lia|]. nia. }
  set (t := 46 - dh + dw - n). set (k := 97 - dh + dw - n - c - n2).
  assert (HT : 13 * w <= 2 * 2 ^ t).
  { assert (2 ^ 24 <= 2 ^ (46 - dh - n)) by (apply Z.pow_le_mono_r; lia).
    assert (2 ^ t = 2 ^ (46 - dh - n) * 2 ^ dw)
      by (rewrite <- Z.pow_add_r by lia; f_equal; unfold t; lia).
    nia. }
  assert (Hq1 : - w <= 2 * (Rq * w - 128 * h * 2 ^ t) <= w).
  { set (V := 2 ^ n * 2 ^ (53 - dw)).
    assert (HV : 0 < V) by (apply Z.mul_pos_pos; apply pow2_pos; lia).
    assert (Hpow : 2 ^ (53 - dh) * 2 ^ 53 = 128 * 2 ^ t * V).
    { unfold V, t. change 128 with (2 ^ 7).
      rewrite <- !Z.pow_add_r by lia. f_equal. lia. }
    replace (2 ^ n * (w * 2 ^ (53 - dw))) with (w * V) in Hbq by (unfold V; ring).
    replace (h * 2 ^ (53 - dh) * 2 ^ 53) with (128 * h * 2 ^ t * V) in Hbq
      by (transitivity (h * (2 ^ (53 - dh) * 2 ^ 53));
          [rewrite Hpow; ring | ring]).
    nia. }
  assert (HC : 2 ^ c = 1 \/ 2 ^ c = 2)
    by (assert (c = 0 \/ c = 1) as [-> | ->] by lia; [left | right]; reflexivity).
  assert (HD : 2 ^ 52 <= 2 ^ n2 <= 2 ^ 53)
    by (assert (n2 = 52 \/ n2 = 53) as [-> | ->] by lia; lia).
  assert (HK : 2 ^ k * 2 ^ n2 * 2 ^ c = 2 ^ 51 * 2 ^ t).
  { unfold k, t. rewrite <- !Z.pow_add_r by lia. f_equal. lia. }
  assert (HK0 : 0 < 2 ^ k) by (apply pow2_pos; unfold k; lia).
  assert (HKev : Z.even (2 ^ k) = true) by (apply pow2_even; unfold k; lia).
  assert (Hbound : N * 2 ^ k <= mp * 2 ^ c2 < (N + 1) * 2 ^ k).
  { apply (floor_of_rounded h w N (2 ^ t) Rq mq (2 ^ c) (2 ^ n2) _ (2 ^ k));
      try assumption; try lia. }
  apply (floor_to_dimension _ mp _ N _ Hp); [lia | lia | | lia].
  replace (- (-44 + (dh - dw - 53 + n + c) + n2 + c2)) with (k - c2)
    by (unfold k; lia).
  assert (Hk : 2 ^ k = 2 ^ (k - c2) * 2 ^ c2)
    by (rewrite <- Z.pow_add_r by (unfold k; lia); f_equal; lia).
  assert (0 < 2 ^ c2) by (apply pow2_pos; lia).
  assert (0 < 2 ^ (k - c2)) by (apply pow2_pos; unfold k; lia).
  symmetry. apply (Z.div_unique _ _ N (mp - N * 2 ^ (k - c2))); nia.
Qed.

(** ** The canvas size *)

(** The sizes the application meets. *)
Lemma canvasSize_receipts h :
  0 <= h <= 8192 -> canvasSize 800 h = (384, 384 * h / 800).
Proof.
  intros Hh. destruct (Z.eq_dec h 0) as [->|Hne]; [vm_compute; reflexivity|].
  apply canvasSize_exact; lia.
Qed.

(** A quotient with a zero on either side is a zero, an infinity or NaN,
    and so is its product with 384; the canvas height setter turns the
    floor of each of them into 0. *)
Lemma div_flat (a b : float) :
  Prim2SF a = S754_zero false \/ Prim2SF b = S754_zero false -> flat (a / b).
Proof.
  unfold flat. rewrite div_spec. unfold SF64div, SFdiv.
  intros [-> | ->]; [destruct (Prim2SF b) | destruct (Prim2SF a)]; exact I.
Qed.

Lemma mul_384_flat (q : float) : flat q -> flat (384 * q).
Proof.
  unfold flat. rewrite mul_spec.
  change (Prim2SF 384) with (S754_finite false 6755399441055744 (-44)).
  unfold SF64mul, SFmul. destruct (Prim2SF q); tauto.
Qed.

Lemma flat_height (x : float) default :
  flat x -> JS.reflectUnsignedLong default (JS.Math_floor x) = 0.
Proof.
  unfold flat. intros Hx.
  assert (Hfloor : JS.Math_floor x = x)
    by (unfold JS.Math_floor; destruct (Prim2SF x); tauto).
  rewrite Hfloor. unfold JS.reflectUnsignedLong, JS.toUnsignedLong.
  destruct (Prim2SF x); tauto.
Qed.

Lemma canvasSize_zero w h : w = 0 \/ h = 0 -> canvasSize w h = (384, 0).
Proof.
  intros Hz. unfold canvasSize. cbv zeta.
  change (JS.reflectUnsignedLong 300 384) with 384.
  rewrite flat_height; [reflexivity|].
  apply mul_384_flat, div_flat. destruct Hz as [-> | ->]; auto.
Qed.

Lemma resample_loaded env url w h :
  loadImage env url = Some (w, h) ->
  resample env url = readPixels env (canvasSize w h).1 (canvasSize w h).2.
Proof.
  intros Hload. unfold resample. rewrite Hload.
  by destruct (canvasSize w h).
Qed.

Lemma readPixels_rows env sh :
  1 <= sh -> readPixels env 384 sh = getImageData env 384 sh.
Proof.
  intros Hsh. unfold readPixels.
  replace (sh =? 0) with false by (symmetry; apply Z.eqb_neq; lia).
  reflexivity.
Qed.

Lemma rows_positive w h : 1 <= w -> w <= 384 * h -> 1 <= 384 * h / w.
Proof. intros Hw Hh. apply Z.div_le_lower_bound; lia. Qed.

(** C9, as the code has it. A URL that does not decode makes the step
    fail with the error event of the image. A source of up to
    1048576 pixels a side that is at most 384 times as wide as high is
    drawn on a canvas 384 wide and [floor(384 * height / width)] high,
    the two roundings of [Math.floor(384 * (height / width))] not
    showing, and the step returns what [getImageData] reads back from
    it: a raster of that very size when the browser answers as the
    standard has it. The step makes no size check and raises no error
    of its own: for a source of width 0 or height 0, and for one more
    than 384 times as wide as high, the canvas has no row and
    [getImageData] refuses it with [IndexSizeError]. *)
Theorem resample_contract (env : Env) (url : string) :
  (loadImage env url = None -> resample env url = Throw ImageLoadError)
  /\ (forall w h, loadImage env url = Some (w, h) ->
        1 <= w <= 1048576 -> 1 <= h <= 1048576 -> w <= 384 * h ->
        resample env url = getImageData env 384 (384 * h / w)
        /\ 1 <= 384 * h / w
        /\ (standardCanvas env ->
            forall img, resample env url = Normal img ->
              width img = 384 /\ height img = 384 * h / w
              /\ Z.of_nat (length (data img)) = 4 * 384 * (384 * h / w)))
  /\ (forall w h, loadImage env url = Some (w, h) -> w = 0 \/ h = 0 ->
        resample env url = Throw (DOMException "IndexSizeError"))
  /\ (forall w h, loadImage env url = Some (w, h) ->
        1 <= h -> 384 * h < w <= 1048576 ->
        resample env url = Throw (DOMException "IndexSizeError")).
Proof.
  split; [|split; [|split]].
  - intros Hload. unfold resample. by rewrite Hload.
  - intros w h Hload Hw Hh Hrows.
    pose proof (rows_positive w h ltac:(lia) Hrows) as Hpos.
    assert (Hres : resample env url = getImageData env 384 (384 * h / w)).
    { rewrite (resample_loaded env url w h Hload).
      rewrite canvasSize_exact by (cbn; lia). by apply readPixels_rows. }
    split; [exact Hres|]. split; [exact Hpos|].
    intros Hstd img Himg. rewrite Hres in Himg. by apply Hstd.
  - intros w h Hload Hz. rewrite (resample_loaded env url w h Hload).
    by rewrite canvasSize_zero.
  - intros w h Hload Hh Hw. rewrite (resample_loaded env url w h Hload).
    rewrite canvasSize_exact by (cbn; lia).
    by rewrite Z.div_small by lia.
Qed.

Lemma resample_contract_witness :
  loadImage (browser 800 1550) "receipt"%string = Some (800, 1550)
  /\ resample (browser 800 1550) "receipt"%string
     = getImageData (browser 800 1550) 384 (384 * 1550 / 800).
Proof.
  split; [reflexivity|].
  apply (proj1 (proj2 (resample_contract (browser 800 1550)
                         "receipt"%string)) 800 1550);
    [reflexivity | lia | lia | lia].
Defined.

(** C9 fails on a source of 800 x 1: both dimensions are positive and
    the image decodes, yet no raster of height [floor(384 / 800)]
    comes back, the step fails; on a source of width 0 it fails with
    the [IndexSizeError] of the canvas, not with [InvalidImage]; and a
    source of 1 x 8388608, for which 384 * height / width is more than
    2147483647, leaves the canvas at its default height of 150. *)
Lemma resample_thin_source_fails :
  (forall env url, loadImage env url = Some (800, 1) ->
     resample env url = Throw (DOMException "IndexSizeError"))
  /\ (forall env url, loadImage env url = Some (0, 5) ->
        resample env url = Throw (DOMException "IndexSizeError")
        /\ resample env url <> Throw InvalidImage)
  /\ 384 * 1 / 800 = 0
  /\ loadImage (browser 800 1) "line"%string = Some (800, 1)
  /\ canvasSize 1 8388608 = (384, 150).
Proof.
  assert (Hthin : canvasSize 800 1 = (384, 0)) by (vm_compute; reflexivity).
  assert (Hvoid : canvasSize 0 5 = (384, 0)) by (vm_compute; reflexivity).
  split; [|split; [|split; [reflexivity|split; [reflexivity|]]]];
    [| |vm_compute; reflexivity].
  - intros env url Hload. rewrite (resample_loaded env url _ _ Hload).
    by rewrite Hthin.
  - intros env url Hload. rewrite (resample_loaded env url _ _ Hload).
    rewrite Hvoid. split; [reflexivity | discriminate].
Qed.

(** ** More about the ditherer *)

Lemma ditherLoop_length w h d : length (ditherLoop w h d) = length d.
Proof.
  unfold ditherLoop. generalize (seqZ 0 h) as ys. intros ys. revert d.
  induction ys as [|y ys IH]; intros d; simpl; [done|].
  by rewrite IH, ditherRow_length.
Qed.

(** X1. The ditherer keeps the width, the height and the number of
    slots of its input, and every slot of its result is 0 or 255. *)
Theorem applyDithering_shape (img : ImageData) :
  width (applyDithering img) = width img
  /\ height (applyDithering img) = height img
  /\ length (data (applyDithering img)) = length (data img)
  /\ Forall (fun b => b = 0 \/ b = 255) (data (applyDithering img)).
Proof.
  split; [reflexivity|]. split; [reflexivity|]. split.
  - unfold applyDithering. cbn [data].
    by rewrite length_map, ditherLoop_length, length_map.
  - unfold applyDithering. cbn [data]. apply Forall_forall.
    intros b Hb. apply list_elem_of_fmap in Hb as [v [-> _]].
    unfold threshold. destruct (v <? 128)%float; auto.
Qed.

(** ** The ditherer on a solid-white image *)

Lemma rgbFull_set_full d j :
  rgbFull d -> rgbFull (JS.f32_set d j 255%float).
Proof.
  intros Hd i Hi Hm. rewrite f32_set_length in Hi.
  destruct (decide (i = j)) as [->|Hne].
  - rewrite f32_get_set_eq by lia. reflexivity.
  - rewrite f32_get_set_ne by done. by apply Hd.
Qed.

Lemma distribute_full w h x y d dx dy factor :
  (255 + 0 * factor = 255)%float ->
  rgbFull d ->
  Z.of_nat (length d) = 4 * w * h ->
  rgbFull (distribute w h x y 0%float d dx dy factor)
  /\ length (distribute w h x y 0%float d dx dy factor) = length d.
Proof.
  intros Hf Hd Hlen. unfold distribute.
  destruct (_ && _) eqn:Hguard; [|done].
  repeat (apply andb_prop in Hguard as [Hguard ?]).
  assert (Hin : 0 <= ((y + dy) * w + (x + dx)) * 4
                /\ ((y + dy) * w + (x + dx)) * 4 + 3 < Z.of_nat (length d))
    by (rewrite Hlen; nia).
  cbv zeta.
  rewrite Hd by (first [lia | rewrite Z.mod_mul; lia]).
  rewrite Hf.
  split; [|by rewrite !f32_set_length].
  by do 3 apply rgbFull_set_full.
Qed.

Lemma grayAt_full d idx :
  JS.f32_get d idx = 255%float ->
  JS.f32_get d (idx + 1) = 255%float ->
  JS.f32_get d (idx + 2) = 255%float ->
  grayAt d idx = 255%float.
Proof. intros H0 H1 H2. unfold grayAt. rewrite H0, H1, H2. reflexivity. Qed.

Lemma ditherPixel_full w h y d x :
  0 <= x < w -> 0 <= y < h ->
  rgbFull d -> Z.of_nat (length d) = 4 * w * h ->
  rgbFull (ditherPixel w h y d x)
  /\ Z.of_nat (length (ditherPixel w h y d x)) = 4 * w * h.
Proof.
  intros Hx Hy Hd Hlen. unfold ditherPixel.
  assert (Hin : 0 <= (y * w + x) * 4
                /\ (y * w + x) * 4 + 3 < Z.of_nat (length d))
    by (rewrite Hlen; nia).
  cbv zeta.
  rewrite grayAt_full.
  2-4: apply Hd; [lia|].
  2: rewrite Z.mod_mul; lia.
  2: rewrite Z.add_comm, Z.mod_add; [discriminate | lia].
  2: rewrite Z.add_comm, Z.mod_add; [discriminate | lia].
  change (255 <? 128)%float with false. cbv iota.
  change (255 - 255)%float with 0%float.
  pose proof (rgbFull_set_full d ((y * w + x) * 4) Hd) as H0.
  assert (L0 : Z.of_nat (length (JS.f32_set d ((y * w + x) * 4) 255%float))
               = 4 * w * h) by (by rewrite f32_set_length).
  destruct (distribute_full w h x y _ 1 0 (7 / 16)%float eq_refl H0 L0)
    as [H1 L1]. rewrite <- L1 in L0.
  destruct (distribute_full w h x y _ (-1) 1 (3 / 16)%float eq_refl H1 L0)
    as [H2 L2]. rewrite <- L2 in L0.
  destruct (distribute_full w h x y _ 0 1 (5 / 16)%float eq_refl H2 L0)
    as [H3 L3]. rewrite <- L3 in L0.
  destruct (distribute_full w h x y _ 1 1 (1 / 16)%float eq_refl H3 L0)
    as [H4 L4]. rewrite <- L4 in L0.
  split; assumption.
Qed.

Lemma ditherLoop_full w h d :
  rgbFull d -> Z.of_nat (length d) = 4 * w * h ->
  rgbFull (ditherLoop w h d).
Proof.
  intros Hd Hlen. unfold ditherLoop.
  apply (foldl_invariant
           (fun d => rgbFull d /\ Z.of_nat (length d) = 4 * w * h)); [done|].
  intros d1 y Hy [Hd1 Hl1]. apply elem_of_seqZ in Hy. unfold ditherRow.
  apply (foldl_invariant
           (fun d => rgbFull d /\ Z.of_nat (length d) = 4 * w * h)); [done|].
  intros d2 x Hx [Hd2 Hl2]. apply elem_of_seqZ in Hx.
  apply ditherPixel_full; [lia | lia | done | done].
Qed.

Lemma applyDithering_solidWhite img px py :
  solidWhite img ->
  0 <= px < width img -> 0 <= py < height img ->
  isBlack (applyDithering img) px py = false.
Proof.
  intros [Hlen Hwhite] Hpx Hpy.
  set (g := fun b => JS.fround (JS.of_Z b)).
  assert (Hinit : rgbFull (map g (data img))).
  { intros i Hi Hm. rewrite length_map in Hi. rewrite f32_get_map.
    unfold JS.u8_get. destruct (Z.ltb_spec i 0); [lia|].
    destruct (data img !! Z.to_nat i) as [b|] eqn:Hb.
    - rewrite (Hwhite _ _ Hb) by (rewrite Z2Nat.id; lia). reflexivity.
    - apply lookup_ge_None in Hb. lia. }
  apply (ditherLoop_full (width img) (height img)) in Hinit;
    [|by rewrite length_map].
  unfold isBlack, applyDithering. cbn [data width]. fold g.
  set (d' := ditherLoop _ _ _) in *.
  assert (Hl : Z.of_nat (length d') = 4 * width img * height img)
    by (unfold d'; by rewrite ditherLoop_length, length_map).
  assert (Hin : 0 <= (py * width img + px) * 4 < Z.of_nat (length d'))
    by (rewrite Hl; nia).
  specialize (Hinit _ Hin). rewrite Z.mod_mul in Hinit by lia.
  specialize (Hinit ltac:(lia)).
  unfold JS.f32_get in Hinit. unfold JS.u8_get.
  destruct (Z.ltb_spec ((py * width img + px) * 4) 0); [lia|].
  rewrite list_lookup_fmap.
  destruct (d' !! Z.to_nat ((py * width img + px) * 4)) as [v|] eqn:Hv.
  - simpl in Hinit. subst v. reflexivity.
  - apply lookup_ge_None in Hv. lia.
Qed.

Lemma no_black_byte mono y x :
  (forall b, 0 <= b < 8 -> bitAt mono y x b = false) ->
  packByte (width mono) (data mono) y x = 0.
Proof.
  intros Hb. rewrite packByte_bits.
  change (seqZ 0 8) with [0; 1; 2; 3; 4; 5; 6; 7]. cbn [map].
  rewrite !Hb by lia. reflexivity.
Qed.

Lemma rasterRows_no_black mono :
  (forall px py, 0 <= px < width mono -> 0 <= py < height mono ->
     isBlack mono px py = false) ->
  rasterRows mono =
  replicate (Z.to_nat (height mono) * Z.to_nat (JS.ceil_div8 (width mono))) 0.
Proof.
  intros Hwhite.
  rewrite <- rasterRows_length. apply Forall_eq_replicate.
  unfold rasterRows. apply Forall_concat, Forall_forall.
  intros r Hr. apply list_elem_of_fmap in Hr as [y [-> Hy]].
  unfold rasterRow. apply Forall_forall. intros a Ha.
  apply list_elem_of_fmap in Ha as [x [-> Hx]].
  apply elem_of_seqZ in Hy, Hx.
  apply no_black_byte. intros b Hb. unfold bitAt.
  destruct (Z.ltb_spec (x * 8 + b) (width mono)); [|done].
  rewrite Hwhite by lia. reflexivity.
Qed.

(** X3. A solid-white image, whatever its alpha bytes, puts no dot on
    the paper: its frame is the header, ceil(W/8)*H zero bytes, feed
    and cut. *)
Theorem white_image_prints_nothing (img : ImageData) :
  solidWhite img ->
  convertToESCPOS img =
    [0x1B; 0x40; 0x1D; 0x76; 0x30; 0x00]
    ++ le16 (JS.ceil_div8 (width img)) ++ le16 (height img)
    ++ replicate (Z.to_nat (height img) * Z.to_nat (JS.ceil_div8 (width img))) 0
    ++ [0x1B; 0x64; 0x02; 0x1D; 0x56; 0x01].
Proof.
  intros Hw. unfold convertToESCPOS. rewrite encodeRaster_layout.
  rewrite rasterRows_no_black.
  - reflexivity.
  - intros px py Hpx Hpy. by apply applyDithering_solidWhite.
Qed.

Lemma white_image_prints_nothing_witness :
  solidWhite whitePixel
  /\ convertToESCPOS whitePixel =
     [0x1B; 0x40; 0x1D; 0x76; 0x30; 0x00] ++ le16 1 ++ le16 1 ++ [0]
     ++ [0x1B; 0x64; 0x02; 0x1D; 0x56; 0x01].
Proof.
  assert (Hw : solidWhite whitePixel).
  { split; [reflexivity|].
    intros [|[|[|[|i]]]] b Hb Hm; cbn in Hb; try congruence.
    by destruct i. }
  split; [exact Hw|].
  exact (white_image_prints_nothing whitePixel Hw).
Defined.

Lemma encodeRaster_ext (m1 m2 : ImageData) :
  width m1 = width m2 -> height m1 = height m2 ->
  (forall px py, isBlack m1 px py = isBlack m2 px py) ->
  encodeRaster m1 = encodeRaster m2.
Proof.
  intros Hw Hh Hb.
  assert (Hrows : rasterRows m1 = rasterRows m2).
  { unfold rasterRows. rewrite Hh. f_equal.
    apply map_ext. intros y. unfold rasterRow. rewrite !Hw.
    apply map_ext. intros x.
    rewrite <- Hw at 1. rewrite !packByte_bits.
    f_equal. apply map_ext. intros b. unfold bitAt. by rewrite Hw, Hb. }
  by rewrite !encodeRaster_layout, Hw, Hh, Hrows.
Qed.

(** X2. The frame sent to the printer is the same for two images that
    have the same red channel and the same first pixel: the green and
    blue bytes of every other pixel, and all alpha bytes, never reach
    the paper. *)
Theorem frame_reads_red_only (img img' : ImageData) :
  width img = width img' -> height img = height img' ->
  0 < width img -> 0 <= height img ->
  Z.of_nat (length (data img)) = 4 * width img * height img ->
  length (data img) = length (data img') ->
  (forall q, JS.u8_get (data img) (q * 4) = JS.u8_get (data img') (q * 4)) ->
  JS.u8_get (data img) 1 = JS.u8_get (data img') 1 ->
  JS.u8_get (data img) 2 = JS.u8_get (data img') 2 ->
  convertToESCPOS img = convertToESCPOS img'.
Proof.
  intros Hw Hh Hpos Hnn Hlen Hlen' Hred Hg Hb.
  unfold convertToESCPOS. apply encodeRaster_ext.
  - exact Hw.
  - exact Hh.
  - by apply applyDithering_reads_red_only.
Qed.

Lemma frame_reads_red_only_witness :
  convertToESCPOS blackThenRed = convertToESCPOS blackThenOrange.
Proof.
  apply frame_reads_red_only;
    [reflexivity | reflexivity | cbn; lia | cbn; lia | reflexivity
    | reflexivity | | reflexivity | reflexivity].
  intros q. unfold JS.u8_get.
  destruct (Z.ltb_spec (q * 4) 0); [done|].
  destruct (decide (q = 0)) as [->|H0]; [reflexivity|].
  destruct (decide (q = 1)) as [->|H1]; [reflexivity|].
  rewrite !(proj2 (lookup_ge_None _ _)); [done | |]; cbn; lia.
Defined.

(** ** More about the encoder *)

(** X4. The frame determines the raster: two rasters of the same width,
    with heights that fit the 16-bit field, that encode to the same
    frame have the same height and the same black pixels. *)
Theorem frame_determines_raster (m1 m2 : ImageData) :
  width m1 = width m2 ->
  0 <= height m1 < 65536 -> 0 <= height m2 < 65536 ->
  encodeRaster m1 = encodeRaster m2 ->
  height m1 = height m2
  /\ forall px py, 0 <= px < width m1 -> 0 <= py < height m1 ->
       isBlack m1 px py = isBlack m2 px py.
Proof.
  intros Hw Hh1 Hh2 Heq. rewrite !encodeRaster_layout, <- Hw in Heq.
  do 3 apply app_inv_head in Heq.
  assert (Hh : height m1 = height m2).
  { apply (f_equal (take 2)) in Heq. cbn in Heq.
    apply (f_equal le16_value) in Heq.
    change (le16_value (le16 (height m1)) = le16_value (le16 (height m2))) in Heq.
    rewrite !le16_value_le16, !Z.mod_small in Heq by lia. done. }
  split; [exact Hh|].
  rewrite <- Hh in Heq. apply app_inv_head, app_inv_tail in Heq.
  intros px py Hpx Hpy.
  pose proof (ceil_div8_spec (width m1)) as Hc.
  pose proof (Z.div_mod px 8 ltac:(lia)) as Hdm.
  pose proof (Z.mod_pos_bound px 8 ltac:(lia)) as Hmod.
  assert (Hx : 0 <= px / 8 < JS.ceil_div8 (width m1)) by lia.
  pose proof (rasterRows_lookup m1 py (px / 8) Hpy Hx) as L1.
  assert (L2 := rasterRows_lookup m2 py (px / 8)).
  rewrite packByte_bits in L1, L2.
  rewrite <- Hw, <- Hh in L2. specialize (L2 Hpy Hx).
  rewrite Heq, L2 in L1. apply (inj Some) in L1. rename L1 into Hbyte.
  destruct (byteOfBits_8 (bitAt m1 py (px / 8))) as [_ B1].
  destruct (byteOfBits_8 (bitAt m2 py (px / 8))) as [_ B2].
  specialize (B1 (px mod 8) Hmod). specialize (B2 (px mod 8) Hmod).
  rewrite Hbyte, B1 in B2. unfold bitAt in B2.
  replace (px / 8 * 8 + px mod 8) with px in B2 by lia.
  rewrite <- Hw in B2.
  destruct (Z.ltb_spec px (width m1)); [|lia]. by rewrite !andb_true_l in B2.
Qed.

Lemma frame_determines_raster_witness :
  encodeRaster (applyDithering blackThenRed)
  = encodeRaster (applyDithering blackThenOrange)
  /\ forall px py, 0 <= px < 2 -> 0 <= py < 1 ->
       isBlack (applyDithering blackThenRed) px py
       = isBlack (applyDithering blackThenOrange) px py.
Proof.
  assert (Heq : encodeRaster (applyDithering blackThenRed)
                = encodeRaster (applyDithering blackThenOrange))
    by (vm_compute; reflexivity).
  split; [exact Heq|].
  apply (frame_determines_raster (applyDithering blackThenRed)
           (applyDithering blackThenOrange)); [reflexivity | | | exact Heq];
    vm_compute; split; congruence.
Defined.

(** ** More about the send loop *)

(** X5. A job that completes has made ceil(length / 512) writes: every
    chunk but the last is exactly 512 bytes long and the last one holds
    the rest. *)
Theorem chunk_sizes (ch : Characteristic) (frame : list Z) :
  (forall k chunk, writeValue ch k chunk = true) ->
  let ws := writes (sendChunks (Some ch) frame 0 0).1 in
  (length frame <= 512 * length ws < length frame + 512)%nat
  /\ forall j chunk, ws !! j = Some chunk ->
       ((S j < length ws)%nat -> length chunk = 512%nat)
       /\ (S j = length ws -> length chunk = (length frame - 512 * j)%nat).
Proof.
  intros Hacc ws.
  assert (Hok : (sendChunks (Some ch) frame 0 0).2 = Normal tt)
    by (apply (sendChunks_completes ch frame (length frame)); [done | lia]).
  destruct (sendChunks_writes (Some ch) frame (length frame) 0 0 ltac:(lia))
    as (_ & Hlen & Hlook & _ & Hdone).
  specialize (Hdone Hok). fold ws in Hlen, Hlook, Hdone.
  rewrite drop_0 in Hdone. unfold chunkSize in *.
  assert (Hle : (length frame <= 512 * length ws)%nat).
  { rewrite <- Hdone at 1. apply concat_length_le.
    eapply Forall_impl; [exact Hlen|]. cbn. lia. }
  assert (Hlast : forall j, (S j = length ws)%nat -> (512 * j < length frame)%nat).
  { intros j Hj. destruct (ws !! j) as [c|] eqn:Hc.
    - by apply Hlook in Hc as [_ ?].
    - apply lookup_ge_None in Hc. lia. }
  split.
  - split; [exact Hle|]. destruct (length ws) as [|n] eqn:Hn; [lia|].
    specialize (Hlast n eq_refl). lia.
  - intros j chunk Hj. pose proof (lookup_lt_Some _ _ _ Hj) as Hjlt.
    apply Hlook in Hj as [-> Hj]. cbn in Hj.
    rewrite length_take, length_drop. cbn [Nat.add]. split; intros Hcase.
    + destruct (ws !! S j) as [c|] eqn:Hc.
      * apply Hlook in Hc as [_ Hc]. lia.
      * apply lookup_ge_None in Hc. lia.
    + lia.
Qed.

Lemma chunk_sizes_witness :
  (forall k chunk, writeValue acceptAll k chunk = true)
  /\ (length (replicate 600 7%Z)
      <= 512 * length (writes (sendChunks (Some acceptAll) (replicate 600 7%Z) 0 0).1)
      < length (replicate 600 7%Z) + 512)%nat.
Proof.
  split; [reflexivity|].
  apply (chunk_sizes acceptAll (replicate 600 7%Z)). reflexivity.
Defined.

Lemma sendChunks_rejected ch frame k : forall i j0,
  (forall j chunk, (j0 <= j < j0 + k)%nat -> writeValue ch j chunk = true) ->
  (forall chunk, writeValue ch (j0 + k)%nat chunk = false) ->
  (i + 512 * k < length frame)%nat ->
  let r := sendChunks (Some ch) frame i j0 in
  r.2 = Throw WriteRejected
  /\ length (writes r.1) = k
  /\ concat (writes r.1) = take (512 * k) (drop i frame).
Proof.
  induction k as [|k IH]; intros i j0 Hacc Hrej Hlen; cbv zeta;
    rewrite sendChunks_step;
    (destruct (decide (i < length frame)%nat) as [Hi|Hi]; [|lia]); cbv zeta.
  - rewrite Nat.add_0_r in Hrej. rewrite Hrej. done.
  - rewrite Hacc by lia. cbn [fst snd writes length concat].
    destruct (IH (i + chunkSize)%nat (S j0)) as (Hr & Hn & Hc).
    + intros j chunk Hj. apply Hacc. lia.
    + intros chunk. replace (S j0 + k)%nat with (j0 + S k)%nat by lia. apply Hrej.
    + unfold chunkSize. lia.
    + split; [exact Hr|]. split; [by rewrite Hn|].
      rewrite Hc, <- drop_drop. unfold chunkSize.
      rewrite take_take_drop. f_equal. lia.
Qed.

(** X6. When the device rejects write number [k] after accepting the
    ones before, the job fails with that rejection: exactly [k] chunks,
    the first [512 k] bytes of the frame, have been written, and no
    write is attempted after the failure. *)
Theorem write_failure_stops (ch : Characteristic) (frame : list Z) (k : nat) :
  (forall j chunk, (j < k)%nat -> writeValue ch j chunk = true) ->
  (forall chunk, writeValue ch k chunk = false) ->
  (512 * k < length frame)%nat ->
  let r := sendChunks (Some ch) frame 0 0 in
  r.2 = Throw WriteRejected
  /\ length (writes r.1) = k
  /\ concat (writes r.1) = take (512 * k) frame
  /\ r.1 = map EvWrite (writes r.1).
Proof.
  intros Hacc Hrej Hlen r.
  destruct (sendChunks_rejected ch frame k 0 0) as (Hr & Hn & Hc);
    [intros; apply Hacc; lia | done | lia |].
  fold r in Hr, Hn, Hc. rewrite drop_0 in Hc.
  split; [done|]. split; [done|]. split; [done|].
  apply (sendChunks_writes (Some ch) frame (length frame) 0 0). lia.
Qed.

Lemma write_failure_stops_witness :
  (512 * 1 < length (replicate 600 7%Z))%nat
  /\ (sendChunks (Some (rejectAt 1)) (replicate 600 7%Z) 0 0).2 = Throw WriteRejected
  /\ length (writes (sendChunks (Some (rejectAt 1)) (replicate 600 7%Z) 0 0).1) = 1%nat.
Proof.
  assert (Hlen : (512 * 1 < length (replicate 600 7%Z))%nat)
    by (rewrite length_replicate; lia).
  split; [exact Hlen|].
  destruct (write_failure_stops (rejectAt 1) (replicate 600 7%Z) 1) as (Hr & Hn & _).
  - intros j chunk Hj. destruct j; [reflexivity | lia].
  - reflexivity.
  - exact Hlen.
  - split; [exact Hr | exact Hn].
Defined.

(** ** Connecting, disconnecting and printing *)

Lemma frame_not_empty img : (0 < length (convertToESCPOS img))%nat.
Proof. unfold convertToESCPOS. rewrite encodeRaster_length. lia. Qed.

Lemma printImage_null_characteristic dev env url :
  writes (printImage (mkPrinter dev None) env url).1 = []
  /\ exists e, (printImage (mkPrinter dev None) env url).2 = Throw e.
Proof.
  unfold printImage. destruct (notConnected _); [by eauto|].
  destruct (resample env url) as [img|e]; [|by eauto].
  cbn [characteristic]. rewrite sendChunks_step.
  pose proof (frame_not_empty img).
  destruct (decide _); [|lia]. by eauto.
Qed.

(** X7. A [connect] that fails on a fresh printer object leaves it unable
    to print: whichever of the four Bluetooth calls was rejected, a
    later [printImage] throws and writes nothing. A [connect] that
    succeeds leaves the link up and the characteristic assigned. *)
Theorem connect_gates_printing (bt : Bluetooth) (env : Env) (url : string) :
  let this := (connect newPrinter bt).1 in
  ((exists e, (connect newPrinter bt).2 = Throw e) ->
     writes (printImage this env url).1 = []
     /\ exists e', (printImage this env url).2 = Throw e')
  /\ ((connect newPrinter bt).2 = Normal true ->
      notConnected this = false
      /\ exists c, getCharacteristic bt = Normal c /\ characteristic this = Some c).
Proof.
  unfold connect, newPrinter. cbn [characteristic].
  destruct (requestDevice bt) as [dev|e0].
  2:{ cbn. split; [by eauto | discriminate]. }
  destruct (gattConnect bt) as [[]|e1].
  2:{ split; [|discriminate]. intros _. apply printImage_null_characteristic. }
  destruct (getPrimaryService bt) as [[]|e2].
  2:{ split; [|discriminate]. intros _. apply printImage_null_characteristic. }
  destruct (getCharacteristic bt) as [c|e3].
  2:{ split; [|discriminate]. intros _. apply printImage_null_characteristic. }
  cbn. split; [intros [e He]; discriminate|]. intros _. by eauto.
Qed.

Lemma connect_gates_printing_witness :
  (exists e, (connect newPrinter
                (mkBluetooth (Normal (mkDevice false)) (Normal tt)
                   (Throw (DOMException "NotFoundError")) (Normal acceptAll))).2
             = Throw e)
  /\ writes (printImage
               (connect newPrinter
                  (mkBluetooth (Normal (mkDevice false)) (Normal tt)
                     (Throw (DOMException "NotFoundError")) (Normal acceptAll))).1
               (browser 800 1550) "receipt"%string).1 = [].
Proof.
  assert (H : exists e,
             (connect newPrinter
                (mkBluetooth (Normal (mkDevice false)) (Normal tt)
                   (Throw (DOMException "NotFoundError")) (Normal acceptAll))).2
             = Throw e) by (eexists; reflexivity).
  split; [exact H|].
  apply (proj1 (connect_gates_printing _ (browser 800 1550) "receipt"%string) H).
Defined.

(** X8. After [disconnect] a print job is refused before anything is
    written, whatever the printer object was; [disconnect] keeps the
    characteristic and is idempotent. *)
Theorem disconnect_stops_printing (this : ThermalPrinter) (env : Env) (url : string) :
  printImage (disconnect this) env url
    = ([], Throw (Error "Printer not connected"))
  /\ characteristic (disconnect this) = characteristic this
  /\ disconnect (disconnect this) = disconnect this.
Proof.
  destruct this as [[[[]]|] c]; cbn; done.
Qed.

(** ** The banded encoder: shape of the frame *)

Lemma columnBit_darkAt img y x k byte b :
  Banded.columnBit (width img) (height img) (data img) y x k byte b =
  if Banded.darkAt img y x k b then JS.bor byte (JS.shl 1 (7 - b)) else byte.
Proof.
  unfold Banded.columnBit, Banded.darkAt, Banded.isDark.
  destruct (y + k * 8 + b <? height img); simpl; [|done].
  by destruct (_ <? _)%float.
Qed.

Lemma columnByte_bits img y x k :
  Banded.columnByte (width img) (height img) (data img) y x k =
  byteOfBits (map (Banded.darkAt img y x k) (seqZ 0 8)).
Proof.
  unfold Banded.columnByte.
  change (seqZ 0 8) with [0; 1; 2; 3; 4; 5; 6; 7].
  cbn [foldl map]. rewrite !columnBit_darkAt.
  destruct (Banded.darkAt img y x k 0), (Banded.darkAt img y x k 1),
    (Banded.darkAt img y x k 2), (Banded.darkAt img y x k 3),
    (Banded.darkAt img y x k 4), (Banded.darkAt img y x k 5),
    (Banded.darkAt img y x k 6), (Banded.darkAt img y x k 7);
    vm_compute; reflexivity.
Qed.

Lemma columnByte_range img y x k :
  0 <= Banded.columnByte (width img) (height img) (data img) y x k < 256.
Proof. rewrite columnByte_bits. apply (byteOfBits_8 (Banded.darkAt img y x k)). Qed.

Lemma bandColumns_length img y :
  length (Banded.bandColumns img y) = (Z.to_nat (width img) * 3)%nat.
Proof.
  unfold Banded.bandColumns. rewrite (concat_length_const _ 3).
  - by rewrite length_map, length_seqZ.
  - apply Forall_forall. intros r Hr.
    apply list_elem_of_fmap in Hr as [x [-> _]]. by rewrite length_map.
Qed.

Lemma bandColumns_bytes img y :
  Forall (fun b => 0 <= b < 256) (Banded.bandColumns img y).
Proof.
  unfold Banded.bandColumns. apply Forall_concat, Forall_forall.
  intros r Hr. apply list_elem_of_fmap in Hr as [x [-> _]].
  apply Forall_forall. intros b Hb.
  apply list_elem_of_fmap in Hb as [k [-> _]]. apply columnByte_range.
Qed.

Lemma band_length img y :
  length (Banded.band img y) = (6 + Z.to_nat (width img) * 3)%nat.
Proof.
  unfold Banded.band, le16. rewrite !length_app, bandColumns_length.
  simpl. lia.
Qed.

Lemma band_bytes img y : Forall (fun b => 0 <= b < 256) (Banded.band img y).
Proof.
  unfold Banded.band, le16.
  repeat (apply Forall_app; split); try apply bandColumns_bytes;
    repeat constructor; try lia; apply Z.mod_pos_bound; lia.
Qed.

Lemma pushBand_spec img commands y :
  Banded.pushBand (width img) (height img) (data img) commands y
  = commands ++ Banded.band img y.
Proof.
  unfold Banded.pushBand, Banded.band, Banded.bandColumns. cbv zeta.
  rewrite band_sar8_0xff, band_0xff.
  generalize (seqZ 0 (width img)) as xs. intros xs.
  assert (Hcols : forall cmds,
             foldl (Banded.pushColumn (width img) (height img) (data img) y)
               cmds xs
             = cmds ++ concat (map (fun x =>
                   map (Banded.columnByte (width img) (height img) (data img) y x)
                       (seqZ 0 3)) xs)).
  { induction xs as [|x xs IH]; intros cmds; simpl.
    - by rewrite app_nil_r.
    - rewrite IH. unfold Banded.pushColumn. rewrite foldl_push.
      by rewrite <- app_assoc. }
  rewrite Hcols. unfold le16. by rewrite <- !app_assoc.
Qed.

Lemma pushBands_step w h d y commands :
  Banded.pushBands w h d y commands =
  if decide (y < h)
  then Banded.pushBands w h d (y + 24) (Banded.pushBand w h d commands y)
  else commands.
Proof.
  rewrite Banded.pushBands_equation_1. destruct (decide (y < h)); reflexivity.
Qed.

Lemma band_count h i : 0 <= i -> 24 * i < h <-> i < (h + 23) / 24.
Proof.
  intros Hi.
  pose proof (Z.div_mod (h + 23) 24 ltac:(lia)).
  pose proof (Z.mod_pos_bound (h + 23) 24 ltac:(lia)). lia.
Qed.

Lemma pushBands_spec img (n : nat) : forall i commands,
  0 <= i -> Z.to_nat ((height img + 23) / 24 - i) = n ->
  Banded.pushBands (width img) (height img) (data img) (24 * i) commands
  = commands
    ++ concat (map (fun j => Banded.band img (24 * j))
                 (seqZ i ((height img + 23) / 24 - i))).
Proof.
  induction n as [|n IH]; intros i commands Hi Hn; rewrite pushBands_step;
    destruct (band_count (height img) i Hi) as [Hc1 Hc2];
    destruct (decide (24 * i < height img)) as [Hlt|Hge].
  - specialize (Hc1 Hlt). lia.
  - rewrite seqZ_nil; [by rewrite app_nil_r|].
    destruct (decide (i < (height img + 23) / 24)); [|lia].
    specialize (Hc2 ltac:(done)). lia.
  - specialize (Hc1 Hlt). rewrite seqZ_cons by lia. cbn [map concat].
    replace (24 * i + 24) with (24 * Z.succ i) by lia.
    rewrite (IH (Z.succ i)) by lia. rewrite pushBand_spec, <- app_assoc.
    replace (Z.pred ((height img + 23) / 24 - i))
      with ((height img + 23) / 24 - Z.succ i) by lia.
    reflexivity.
  - rewrite seqZ_nil; [by rewrite app_nil_r|].
    destruct (decide (i < (height img + 23) / 24)); [|lia].
    specialize (Hc2 ltac:(done)). lia.
Qed.

Lemma banded_layout img :
  Banded.convertToESCPOS img =
    [0x1B; 0x40; 0x1B; 0x61; 0x01]
    ++ concat (map (Banded.band img) (Banded.bandStarts (height img)))
    ++ [0x1B; 0x64; 0x05; 0x1D; 0x56; 0x01].
Proof.
  unfold Banded.convertToESCPOS. cbv zeta.
  change 0 with (24 * 0) at 1.
  rewrite (pushBands_spec img _ 0 _ ltac:(lia) eq_refl).
  rewrite Z.sub_0_r. unfold Banded.bandStarts.
  rewrite map_toUint8_bytes.
  - rewrite <- !app_assoc. cbn [app]. do 6 f_equal.
    by rewrite <- list_fmap_compose.
  - repeat (apply Forall_app; split); try (repeat constructor; lia).
    apply Forall_concat, Forall_forall. intros r Hr.
    apply list_elem_of_fmap in Hr as [j [-> _]]. apply band_bytes.
Qed.

(** X9. The frame of the banded encoder: initialise and centre, one
    band per 24 rows (mode 33, the width low byte first, three bytes
    per column, a line feed), feed 5 lines and cut; in all
    11 + ceil(H / 24) * (6 + 3 W) bytes. *)
Theorem banded_frame (img : ImageData) :
  Banded.convertToESCPOS img =
    [0x1B; 0x40; 0x1B; 0x61; 0x01]
    ++ concat (map (fun y => [0x1B; 0x2A; 33] ++ le16 (width img)
                             ++ Banded.bandColumns img y ++ [0x0A])
                 (Banded.bandStarts (height img)))
    ++ [0x1B; 0x64; 0x05; 0x1D; 0x56; 0x01]
  /\ (forall y, length (Banded.bandColumns img y) = (3 * Z.to_nat (width img))%nat)
  /\ (0 <= width img -> 0 <= height img ->
      Z.of_nat (length (Banded.convertToESCPOS img))
      = 11 + (height img + 23) / 24 * (6 + 3 * width img)).
Proof.
  split; [apply banded_layout|].
  split; [intros y; rewrite bandColumns_length; lia|].
  intros Hw Hh. rewrite banded_layout. rewrite !length_app.
  rewrite (concat_length_const _ (6 + Z.to_nat (width img) * 3)).
  - unfold Banded.bandStarts. rewrite !length_map, length_seqZ. simpl length.
    assert (0 <= (height img + 23) / 24) by (apply Z.div_pos; lia). nia.
  - apply Forall_forall. intros r Hr.
    apply list_elem_of_fmap in Hr as [y [-> _]]. apply band_length.
Qed.

Lemma banded_frame_witness :
  0 <= width whitePixel /\ 0 <= height whitePixel
  /\ Z.of_nat (length (Banded.convertToESCPOS whitePixel))
     = 11 + (1 + 23) / 24 * (6 + 3 * 1).
Proof.
  split; [by vm_compute|]. split; [by vm_compute|].
  apply (proj2 (proj2 (banded_frame whitePixel))); by vm_compute.
Defined.

Lemma bandColumns_lookup img y x k :
  0 <= x < width img -> 0 <= k < 3 ->
  Banded.bandColumns img y !! (Z.to_nat x * 3 + Z.to_nat k)%nat
  = Some (Banded.columnByte (width img) (height img) (data img) y x k).
Proof.
  intros Hx Hk. unfold Banded.bandColumns.
  rewrite lookup_concat_const.
  - rewrite list_lookup_fmap, lookup_seqZ_lt by lia.
    cbn [fmap option_fmap option_map mbind option_bind].
    replace (0 + Z.of_nat (Z.to_nat x)) with x by lia.
    rewrite list_lookup_fmap, lookup_seqZ_lt by lia.
    cbn [fmap option_fmap option_map].
    do 2 f_equal; lia.
  - apply Forall_forall. intros r Hr.
    apply list_elem_of_fmap in Hr as [x' [-> _]]. by rewrite length_map.
  - lia.
Qed.

Lemma band_lookup img y x k :
  0 <= x < width img -> 0 <= k < 3 ->
  Banded.band img y !! (5 + (Z.to_nat x * 3 + Z.to_nat k))%nat
  = Some (Banded.columnByte (width img) (height img) (data img) y x k).
Proof.
  intros Hx Hk. unfold Banded.band.
  change (([0x1B; 0x2A; 33] ++ le16 (width img))
          ++ (Banded.bandColumns img y ++ [0x0A]))
    with ([0x1B; 0x2A; 33] ++ le16 (width img) ++ Banded.bandColumns img y ++ [0x0A]).
  rewrite !app_assoc, <- (app_assoc _ (Banded.bandColumns img y)).
  rewrite lookup_app_r by (unfold le16; simpl; lia).
  replace (length _) with 5%nat by (unfold le16; reflexivity).
  rewrite Nat.add_comm, Nat.add_sub.
  rewrite lookup_app_l by (rewrite bandColumns_length; lia).
  by apply bandColumns_lookup.
Qed.

(** X10. In the banded frame the byte of band [i], column [x], third
    [k] has its bit [7 - b] set exactly when row [24 i + 8 k + b] lies
    inside the image and the pixel's 0.3 R + 0.59 G + 0.11 B, in double
    arithmetic, is below 128: columns run left to right, the top row
    of a byte is its most significant bit, rows past the height stay
    blank. *)
Theorem banded_column_byte (img : ImageData) (i x k : Z) :
  0 <= i < (height img + 23) / 24 -> 0 <= x < width img -> 0 <= k < 3 ->
  exists B,
    Banded.convertToESCPOS img
      !! Z.to_nat (5 + i * (6 + 3 * width img) + 5 + 3 * x + k) = Some B
    /\ 0 <= B < 256
    /\ forall b, 0 <= b < 8 ->
         Z.testbit B (7 - b)
         = (24 * i + k * 8 + b <? height img)
           && Banded.isDark img x (24 * i + k * 8 + b).
Proof.
  intros Hi Hx Hk.
  exists (Banded.columnByte (width img) (height img) (data img) (24 * i) x k).
  split.
  - rewrite banded_layout.
    replace (Z.to_nat (5 + i * (6 + 3 * width img) + 5 + 3 * x + k))
      with (5 + (Z.to_nat i * (6 + Z.to_nat (width img) * 3)
                 + (5 + (Z.to_nat x * 3 + Z.to_nat k))))%nat by nia.
    rewrite lookup_app_r by (simpl; lia).
    replace (length _) with 5%nat by reflexivity.
    rewrite Nat.add_comm, Nat.add_sub.
    assert (Hbands : Forall (fun r => length r = (6 + Z.to_nat (width img) * 3)%nat)
                       (map (Banded.band img) (Banded.bandStarts (height img)))).
    { apply Forall_forall. intros r Hr.
      apply list_elem_of_fmap in Hr as [y [-> _]]. apply band_length. }
    rewrite lookup_app_l.
    + rewrite lookup_concat_const; [|exact Hbands|lia].
      unfold Banded.bandStarts.
      rewrite !list_lookup_fmap, lookup_seqZ_lt by lia. simpl.
      rewrite Z2Nat.id by lia. by apply band_lookup.
    + rewrite (concat_length_const _ _ Hbands).
      unfold Banded.bandStarts. rewrite !length_map, length_seqZ. nia.
  - rewrite columnByte_bits.
    apply (byteOfBits_8 (Banded.darkAt img (24 * i) x k)).
Qed.

Lemma banded_column_byte_witness :
  exists B, Banded.convertToESCPOS blackThenRed !! 10%nat = Some B
            /\ 0 <= B < 256.
Proof.
  destruct (banded_column_byte blackThenRed 0 0 0) as (B & HB & Hr & _);
    [vm_compute; split; congruence ..|].
  exists B. split; [exact HB | exact Hr].
Defined.

(** ** The send loop of the second class *)

Lemma writes_writeThenWait ws : writes (ws ≫= writeThenWait) = ws.
Proof. induction ws as [|c ws IH]; [done|]. cbn. by rewrite IH. Qed.

Lemma sendChunksDelayed_trace c thermalData n : forall i k,
  (length thermalData - i <= n)%nat ->
  (Legacy.sendChunksDelayed c thermalData i k).2
    = (sendChunks c thermalData i k).2
  /\ (Legacy.sendChunksDelayed c thermalData i k).1
     = writes (sendChunks c thermalData i k).1 ≫= writeThenWait.
Proof.
  induction n as [|n IH]; intros i k Hn;
    rewrite sendChunksDelayed_step, sendChunks_step;
    (destruct (decide (i < length thermalData)%nat) as [Hi|Hi]; [|done]);
    [lia|].
  cbv zeta. destruct c as [ch|]; [|done].
  destruct (writeValue ch k _); [|done].
  destruct (IH (i + chunkSize)%nat (S k)) as [H2 H1];
    [unfold chunkSize; lia|].
  cbn [fst snd writes]. split; [done|]. by rewrite H1.
Qed.

(** X11. [printImage] of the second class, on a characteristic that
    accepts the writes: the job completes, every write, the last one
    too, is followed by a wait of 50 ms, and the chunks written make up
    the banded frame. The device field is not looked at. *)
Theorem banded_printImage_paced (dev : option BluetoothDevice)
    (ch : Characteristic) (env : Env) (url : string) (img : ImageData) :
  (forall k chunk, writeValue ch k chunk = true) ->
  resample env url = Normal img ->
  let r := Banded.printImage (mkPrinter dev (Some ch)) env url in
  r.2 = Normal tt
  /\ r.1 = writes r.1 ≫= writeThenWait
  /\ concat (writes r.1) = Banded.convertToESCPOS img
  /\ paced r.1 = true.
Proof.
  intros Hacc Himg r. subst r. unfold Banded.printImage.
  cbn [characteristic]. rewrite Himg. cbv zeta.
  set (frame := Banded.convertToESCPOS img).
  destruct (sendChunksDelayed_trace (Some ch) frame (length frame) 0 0 ltac:(lia))
    as [H2 H1].
  destruct (sendChunks_writes (Some ch) frame (length frame) 0 0 ltac:(lia))
    as (_ & _ & _ & _ & Hdone).
  assert (Hok : (sendChunks (Some ch) frame 0 0).2 = Normal tt)
    by (apply (sendChunks_completes ch frame (length frame)); [done | lia]).
  rewrite H2, H1, writes_writeThenWait.
  split; [done|]. split; [done|]. split; [by rewrite (Hdone Hok), drop_0|].
  rewrite <- H1. apply (sendChunksDelayed_paced _ _ (length frame)). lia.
Qed.

Lemma banded_printImage_paced_witness :
  (forall k chunk, writeValue acceptAll k chunk = true)
  /\ resample (browser 800 3) "strip"%string = Normal (whiteCanvas 384 1)
  /\ (Banded.printImage droppedPrinter (browser 800 3) "strip"%string).2
     = Normal tt.
Proof.
  assert (Himg : resample (browser 800 3) "strip"%string
                 = Normal (whiteCanvas 384 1))
    by (apply resample_browser; [apply canvasSize_strip | reflexivity]).
  split; [reflexivity|]. split; [exact Himg|].
  apply (banded_printImage_paced (Some (mkDevice false)) acceptAll
           (browser 800 3) "strip"%string (whiteCanvas 384 1));
    [reflexivity | exact Himg].
Defined.

Lemma banded_frame_not_empty img :
  (0 < length (Banded.convertToESCPOS img))%nat.
Proof. rewrite banded_layout, !length_app. cbn [length]. lia. Qed.

(** X12. The guard of the second class looks at the characteristic
    only, not at the link. On a printer whose link is down, the
    characteristic still assigned and every write rejected, the first
    class refuses the job at once with "Printer not connected"; the
    second class goes on to decode the image and to encode the frame
    and fails at its first write only: nothing is written, and the
    error is the image's or the rejection of the write. *)
Theorem banded_guard_ignores_link (this : ThermalPrinter) (ch : Characteristic)
    (env : Env) (url : string) :
  notConnected this = true ->
  characteristic this = Some ch ->
  (forall k chunk, writeValue ch k chunk = false) ->
  printImage this env url = ([], Throw (Error "Printer not connected"))
  /\ Banded.printImage this env url
     = ([], match resample env url with
            | Throw e => Throw e
            | Normal _ => Throw WriteRejected
            end).
Proof.
  intros Hlink Hch Hrej. split.
  - unfold printImage. by rewrite Hlink.
  - unfold Banded.printImage. rewrite Hch.
    destruct (resample env url) as [img|e]; [|done].
    cbv zeta. rewrite sendChunksDelayed_step.
    pose proof (banded_frame_not_empty img).
    destruct (decide _); [|lia]. cbv zeta. by rewrite Hrej.
Qed.

Lemma banded_guard_ignores_link_witness :
  Banded.printImage (mkPrinter (Some (mkDevice false)) (Some linkDown))
    (browser 800 3) "strip"%string
  = ([], Throw WriteRejected).
Proof.
  assert (Himg : resample (browser 800 3) "strip"%string
                 = Normal (whiteCanvas 384 1))
    by (apply resample_browser; [apply canvasSize_strip | reflexivity]).
  rewrite (proj2 (banded_guard_ignores_link
                    (mkPrinter (Some (mkDevice false)) (Some linkDown)) linkDown
                    (browser 800 3) "strip"%string eq_refl eq_refl
                    (fun _ _ => eq_refl))).
  by rewrite Himg.
Defined.

(** ** The quantity buttons *)

(** X15. Whatever buttons are clicked, a print quantity between 1 and 5
    stays between 1 and 5. *)
Theorem quantity_stays_in_range (clicks : list click) (printQuantity : Z) :
  1 <= printQuantity <= 5 ->
  1 <= foldl onClick printQuantity clicks <= 5.
Proof.
  revert printQuantity.
  induction clicks as [|c clicks IH]; intros q Hq; simpl; [done|].
  apply IH. destruct c; unfold onClick; lia.
Qed.

Lemma quantity_stays_in_range_witness :
  1 <= 1 <= 5 /\ 1 <= foldl onClick 1 [Plus; Plus; Minus; Plus; Plus; Plus; Plus] <= 5.
Proof.
  split; [lia|]. apply (quantity_stays_in_range _ 1). lia.
Defined.

(** ** Copies *)

Lemma printCopies_completed printer env url n : forall i,
  (forall k, (i <= k < i + n)%nat -> (printImage (printer k) env url).2 = Normal tt) ->
  printCopies printer env url i n
  = (concat (map (fun k => (printImage (printer k) env url).1 ++ [EvDelay 3000])
               (seq i n)),
     Normal tt).
Proof.
  induction n as [|n IH]; intros i Hok; [done|].
  cbn [printCopies seq map concat].
  rewrite (Hok i) by lia. rewrite IH by (intros k Hk; apply Hok; lia).
  cbn [fst snd]. by rewrite <- app_assoc.
Qed.

Lemma printCopies_failed printer env url e j : forall n i,
  (j < n)%nat ->
  (forall k, (i <= k < i + j)%nat -> (printImage (printer k) env url).2 = Normal tt) ->
  (printImage (printer (i + j)%nat) env url).2 = Throw e ->
  printCopies printer env url i n
  = (concat (map (fun k => (printImage (printer k) env url).1 ++ [EvDelay 3000])
               (seq i j))
     ++ (printImage (printer (i + j)%nat) env url).1,
     Throw e).
Proof.
  induction j as [|j IH]; intros n i Hj Hok Hfail.
  - destruct n as [|n]; [lia|]. cbn [printCopies seq map concat].
    rewrite Nat.add_0_r in Hfail |- *. by rewrite Hfail.
  - destruct n as [|n]; [lia|]. cbn [printCopies seq map concat].
    rewrite (Hok i) by lia.
    replace (i + S j)%nat with (S i + j)%nat in Hfail |- * by lia.
    rewrite (IH n (S i)); [| lia | intros k Hk; apply Hok; lia | exact Hfail].
    cbn [fst snd]. by rewrite <- !app_assoc.
Qed.

Lemma writes_app tr1 tr2 : writes (tr1 ++ tr2) = writes tr1 ++ writes tr2.
Proof.
  induction tr1 as [|[c|ms] tr1 IH]; cbn; [done| |done].
  by rewrite IH.
Qed.

Lemma printerEvents_map tr : printerEvents (map UiPrinter tr) = tr.
Proof. unfold printerEvents. induction tr as [|e tr IH]; [done|]. cbn. by f_equal. Qed.

Lemma printerEvents_app tr1 tr2 :
  printerEvents (tr1 ++ tr2) = printerEvents tr1 ++ printerEvents tr2.
Proof. apply omap_app. Qed.

Lemma wire_of_copies (job : nat -> list event) (frame : list Z) n : forall i,
  (forall k, (i <= k < i + n)%nat -> concat (writes (job k)) = frame) ->
  concat (writes (concat (map (fun k => job k ++ [EvDelay 3000]) (seq i n))))
  = concat (replicate n frame).
Proof.
  induction n as [|n IH]; intros i Hjob; [done|].
  cbn [seq map replicate concat]. rewrite !writes_app, !concat_app.
  rewrite IH by (intros k Hk; apply Hjob; lia).
  rewrite (Hjob i) by lia. cbn. by rewrite app_nil_r.
Qed.

(** X13. [handleContinue] when every copy completes, each copy being a
    print job of its own on the printer as it then is: the receipt is
    printed [printQuantity] times, one job after the other, each one,
    the last too, followed by a wait of 3 s; the bytes on the wire are
    the frame repeated; the handler ends by clearing the printing flag
    and showing the final screen. *)
Theorem handleContinue_prints_copies (page : Page) (env : Env)
    (printer : nat -> ThermalPrinter) (selectedLayout : Z)
    (images : list string) (date : string) (printQuantity : Z)
    (canvas : Canvas) (img : ImageData) :
  createFramedImage env selectedLayout images date = Some canvas ->
  resample env (toDataURL page canvas) = Normal img ->
  (forall k, (k < Z.to_nat printQuantity)%nat ->
     (printImage (printer k) env (toDataURL page canvas)).2 = Normal tt) ->
  let job k := (printImage (printer k) env (toDataURL page canvas)).1 in
  let r := handleContinue page env true (Some printer) selectedLayout images
             date printQuantity in
  r = ([UiSetIsPrinting true]
       ++ map UiPrinter
            (concat (map (fun k => job k ++ [EvDelay 3000])
                       (seq 0 (Z.to_nat printQuantity))))
       ++ [UiSetIsPrinting false; UiSetCurrentScreen "final"], true)
  /\ concat (writes (printerEvents r.1))
     = concat (replicate (Z.to_nat printQuantity) (convertToESCPOS img)).
Proof.
  intros Hcanvas Himg Hok job r. subst r. unfold handleContinue.
  rewrite Hcanvas. cbv zeta.
  rewrite printCopies_completed by (intros k Hk; apply Hok; lia).
  cbn [fst snd]. fold job. split; [reflexivity|].
  rewrite !printerEvents_app, printerEvents_map.
  change (printerEvents [UiSetIsPrinting true]) with (@nil event).
  change (printerEvents [UiSetIsPrinting false; UiSetCurrentScreen "final"])
    with (@nil event).
  rewrite app_nil_l, app_nil_r.
  apply wire_of_copies. intros k Hk. unfold job.
  apply (printImage_completed (printer k) env _ img Himg). apply Hok. lia.
Qed.

Lemma handleContinue_prints_copies_witness :
  exists canvas,
    createFramedImage (browser 800 1550) 1 ["photo"%string] "11/02/26"
      = Some canvas
    /\ concat (writes (printerEvents
         (handleContinue page0 (browser 800 1550) true
            (Some (fun _ => connectedPrinter))
            1 ["photo"%string] "11/02/26" 2).1))
       = concat (replicate 2 (convertToESCPOS (whiteCanvas 384 744))).
Proof.
  destruct (createFramedImage (browser 800 1550) 1 ["photo"%string] "11/02/26")
    as [canvas|] eqn:Hc; [|vm_compute in Hc; discriminate].
  exists canvas. split; [reflexivity|].
  assert (Himg : forall url,
             resample (browser 800 1550) url = Normal (whiteCanvas 384 744))
    by (apply resample_browser; [apply canvasSize_receipt | reflexivity]).
  assert (Hok : forall url,
             (printImage connectedPrinter (browser 800 1550) url).2 = Normal tt).
  { intros url. rewrite printImage_connected by reflexivity. rewrite Himg.
    apply (sendChunks_completes acceptAll _
             (length (convertToESCPOS (whiteCanvas 384 744))));
      [reflexivity | lia]. }
  exact (proj2 (handleContinue_prints_copies page0 (browser 800 1550)
                  (fun _ => connectedPrinter) 1 ["photo"%string] "11/02/26" 2
                  canvas (whiteCanvas 384 744) Hc (Himg _)
                  (fun k _ => Hok _))).
Defined.

(** X14. [handleContinue] when copy number [j] is the first to throw:
    the copies before it have been printed, each followed by its wait
    of 3 s; of the failing copy only what it wrote before the throw is
    on the wire, no wait follows it and no later copy is attempted;
    the error is logged and swallowed, and the handler still clears the
    printing flag and shows the final screen, without any alert. *)
Theorem handleContinue_stops_at_failure (page : Page) (env : Env)
    (printer : nat -> ThermalPrinter) (selectedLayout : Z)
    (images : list string) (date : string) (printQuantity : Z)
    (canvas : Canvas) (j : nat) (e : exn) :
  createFramedImage env selectedLayout images date = Some canvas ->
  (j < Z.to_nat printQuantity)%nat ->
  (forall k, (k < j)%nat ->
     (printImage (printer k) env (toDataURL page canvas)).2 = Normal tt) ->
  (printImage (printer j) env (toDataURL page canvas)).2 = Throw e ->
  let job k := (printImage (printer k) env (toDataURL page canvas)).1 in
  handleContinue page env true (Some printer) selectedLayout images date
    printQuantity
  = ([UiSetIsPrinting true]
     ++ map UiPrinter
          (concat (map (fun k => job k ++ [EvDelay 3000]) (seq 0 j)) ++ job j)
     ++ [UiConsoleError; UiSetIsPrinting false; UiSetCurrentScreen "final"],
     true).
Proof.
  intros Hcanvas Hj Hok Hfail job. unfold handleContinue.
  rewrite Hcanvas. cbv zeta.
  rewrite (printCopies_failed printer env _ e j _ 0%nat Hj);
    [reflexivity | intros k Hk; apply Hok; lia | exact Hfail].
Qed.

Lemma handleContinue_stops_at_failure_witness :
  exists canvas,
    createFramedImage (browser 800 1550) 1 ["photo"%string] "11/02/26"
      = Some canvas
    /\ handleContinue page0 (browser 800 1550) true (Some droppedAfterFirst)
         1 ["photo"%string] "11/02/26" 3
       = ([UiSetIsPrinting true]
          ++ map UiPrinter
               ((printImage connectedPrinter (browser 800 1550)
                   "receipt"%string).1 ++ [EvDelay 3000])
          ++ [UiConsoleError; UiSetIsPrinting false;
              UiSetCurrentScreen "final"], true).
Proof.
  destruct (createFramedImage (browser 800 1550) 1 ["photo"%string] "11/02/26")
    as [canvas|] eqn:Hc; [|vm_compute in Hc; discriminate].
  exists canvas. split; [reflexivity|].
  assert (Himg : forall url,
             resample (browser 800 1550) url = Normal (whiteCanvas 384 744))
    by (apply resample_browser; [apply canvasSize_receipt | reflexivity]).
  assert (Hok : (printImage connectedPrinter (browser 800 1550)
                   "receipt"%string).2 = Normal tt).
  { rewrite printImage_connected by reflexivity. rewrite Himg.
    apply (sendChunks_completes acceptAll _
             (length (convertToESCPOS (whiteCanvas 384 744))));
      [reflexivity | lia]. }
  rewrite (handleContinue_stops_at_failure page0 (browser 800 1550)
             droppedAfterFirst 1 ["photo"%string] "11/02/26" 3 canvas 1%nat
             (Error "Printer not connected") Hc ltac:(lia)).
  - cbn [seq map concat droppedAfterFirst page0 toDataURL].
    rewrite app_nil_r. change (printImage droppedPrinter (browser 800 1550)
                                 "receipt"%string).1 with (@nil event).
    by rewrite app_nil_r.
  - intros k Hk. assert (k = 0%nat) as -> by lia. exact Hok.
  - reflexivity.
Defined.

(** ** The receipt canvas *)

Lemma photoSlots_app ds1 ds2 :
  photoSlots (ds1 ++ ds2) = photoSlots ds1 ++ photoSlots ds2.
Proof. apply omap_app. Qed.

Lemma texts_app ds1 ds2 : texts (ds1 ++ ds2) = texts ds1 ++ texts ds2.
Proof. apply omap_app. Qed.

Lemma placePhotos_spec env H n images : forall i yPos ds,
  0 <= i -> i + Z.of_nat (length images) = n ->
  (forall url, url ∈ images -> loadImage env url <> None) ->
  exists ds',
    foldl (placePhoto env H n) (Some (yPos, ds))
          (zip (seqZ i (Z.of_nat (length images))) images)
    = Some (match images with
            | [] => yPos
            | _ => yPos + Z.of_nat (length images) * (H + 40) - 40
            end, ds')
    /\ photoSlots ds'
       = photoSlots ds
         ++ map (fun j => (40, yPos + (j - i) * (H + 40), 720, H))
                (seqZ i (Z.of_nat (length images)))
    /\ texts ds' = texts ds.
Proof.
  induction images as [|url images IH]; intros i yPos ds Hi Hn Hload.
  - exists ds. cbn. by rewrite app_nil_r.
  - rewrite seqZ_cons by (cbn [length]; lia).
    cbn [zip zip_with foldl]. unfold placePhoto at 2.
    destruct (loadImage env url) as [[w h]|] eqn:Hurl;
      [|exfalso; by apply (Hload url); [left|]].
    destruct (coverCrop w h 720 H) as [[[sx sy] sWidth] sHeight].
    replace (Z.pred (Z.of_nat (length (url :: images))))
      with (Z.of_nat (length images)) by (cbn [length]; lia).
    edestruct (IH (Z.succ i)) as (ds' & Hfold & Hslots & Htexts);
      [lia | cbn [length] in Hn; lia | intros u Hu; apply Hload; by right |].
    rewrite Hfold. exists ds'. split; [|split].
    + f_equal. f_equal. cbn [length] in *.
      destruct images as [|url' images].
      * cbn [length] in *. destruct (Z.ltb_spec i (n - 1)); lia.
      * cbn [length] in *. destruct (Z.ltb_spec i (n - 1)); lia.
    + rewrite Hslots, photoSlots_app, <- app_assoc. f_equal.
      cbn [map]. change (photoSlots [DrawImage url sx sy sWidth sHeight 40 yPos 720 H])
        with [(40, yPos, 720, H)]. cbn [app]. f_equal.
      * do 3 f_equal. lia.
      * apply map_ext_in. intros j Hj. apply list_elem_of_In, elem_of_seqZ in Hj.
        do 3 f_equal. cbn [length] in *.
        destruct (Z.ltb_spec i (n - 1)); [|lia]. lia.
    + rewrite Htexts, texts_app. cbn. by rewrite app_nil_r.
Qed.

Lemma createFramedImage_spec (env : Env) (selectedLayout : Z)
    (images : list string) (date : string) :
  images <> [] ->
  (forall url, url ∈ images -> loadImage env url <> None) ->
  let H := if selectedLayout =? 1 then 1000 else 500 in
  let n := Z.of_nat (length images) in
  exists canvas,
    createFramedImage env selectedLayout images date = Some canvas
    /\ canvas_width canvas = 800
    /\ canvas_height canvas = 510 + n * (H + 40)
    /\ photoSlots (draws canvas)
       = map (fun i => (40, 350 + i * (H + 40), 720, H)) (seqZ 0 n)
    /\ texts (draws canvas)
       = [("Therma-Snaps"%string, 400, 140);
          ("Warm Memories on Receipts"%string, 400, 210);
          (date, 400, 290);
          ("***"%string, 400, canvas_height canvas - 140);
          ("Thanks for the warm moments"%string, 400, canvas_height canvas - 70)].
Proof.
  intros Hne Hload H n. unfold createFramedImage. cbv zeta. fold H. fold n.
  edestruct (placePhotos_spec env H n images 0 (40 + 310)) as (ds' & Hfold & Hs & Ht);
    [lia | reflexivity | exact Hload |].
  fold n in Hfold, Hs. unfold n at 1. rewrite Hfold.
  destruct images as [|url images]; [done|]. fold n.
  eexists. split; [reflexivity|]. cbn [canvas_width canvas_height draws].
  split; [reflexivity|]. split; [lia|]. split.
  - rewrite photoSlots_app, Hs. cbn [photoSlots omap]. cbn. rewrite app_nil_r.
    apply map_ext. intros i. do 3 f_equal. lia.
  - rewrite texts_app, Ht. cbn. repeat f_equal; lia.
Qed.

(** X16. The receipt canvas for [n >= 1] photos that decode, of slot
    height [H] (1000 for layout 1, 500 otherwise): 800 wide and
    [510 + n (H + 40)] high; photo [i] is drawn into the rectangle
    (40, 350 + i (H + 40), 720, H), so the photos follow each other 40
    rows apart and the last one ends 200 rows above the bottom; the
    header lines sit on rows 140, 210 and 290, the two footer lines 140
    and 70 rows above the bottom. *)
Theorem receipt_layout (env : Env) (selectedLayout : Z)
    (images : list string) (date : string) :
  images <> [] ->
  (forall url, url ∈ images -> loadImage env url <> None) ->
  let H := if selectedLayout =? 1 then 1000 else 500 in
  let n := Z.of_nat (length images) in
  exists canvas,
    createFramedImage env selectedLayout images date = Some canvas
    /\ canvas_width canvas = 800
    /\ canvas_height canvas = 510 + n * (H + 40)
    /\ photoSlots (draws canvas)
       = map (fun i => (40, 350 + i * (H + 40), 720, H)) (seqZ 0 n)
    /\ texts (draws canvas)
       = [("Therma-Snaps"%string, 400, 140);
          ("Warm Memories on Receipts"%string, 400, 210);
          (date, 400, 290);
          ("***"%string, 400, canvas_height canvas - 140);
          ("Thanks for the warm moments"%string, 400, canvas_height canvas - 70)].
Proof. apply createFramedImage_spec. Qed.

Lemma receipt_layout_witness :
  exists canvas,
    createFramedImage (browser 1920 1080) 2 ["a"%string; "b"%string] "11/02/26"
      = Some canvas
    /\ canvas_height canvas = 1590
    /\ photoSlots (draws canvas) = [(40, 350, 720, 500); (40, 890, 720, 500)].
Proof.
  destruct (receipt_layout (browser 1920 1080) 2 ["a"%string; "b"%string]
              "11/02/26") as (canvas & Hc & _ & Hh & Hs & _);
    [discriminate | intros url _; discriminate |].
  exists canvas. split; [exact Hc|]. split; [exact Hh | exact Hs].
Defined.

Lemma placePhoto_pending env H n photos :
  foldl (placePhoto env H n) None photos = None.
Proof. induction photos as [|p photos IH]; [done|]. exact IH. Qed.

Lemma placePhotos_pending env H n images : forall i st url,
  url ∈ images -> loadImage env url = None ->
  foldl (placePhoto env H n) st (zip (seqZ i (Z.of_nat (length images))) images)
  = None.
Proof.
  induction images as [|u images IH]; intros i st url Hin Hnone.
  - by apply elem_of_nil in Hin.
  - rewrite seqZ_cons by (cbn [length]; lia).
    replace (Z.pred (Z.of_nat (length (u :: images))))
      with (Z.of_nat (length images)) by (cbn [length]; lia).
    cbn [zip zip_with foldl].
    apply elem_of_cons in Hin as [<- | Hin].
    + destruct st as [[yPos ds]|]; cbn [placePhoto];
        rewrite ?Hnone; apply placePhoto_pending.
    + by apply (IH _ _ url).
Qed.

(** X17. A photo that does not decode is awaited with an [onload]
    handler only: [createFramedImage] never settles, and
    [handleContinue] stays behind it, the printing flag set, nothing
    printed, the final screen never shown. *)
Theorem undecodable_photo_blocks (page : Page) (env : Env)
    (printer : nat -> ThermalPrinter) (selectedLayout : Z) (images : list string)
    (date : string) (printQuantity : Z) (url : string) :
  url ∈ images -> loadImage env url = None ->
  createFramedImage env selectedLayout images date = None
  /\ handleContinue page env true (Some printer) selectedLayout images date
       printQuantity = ([UiSetIsPrinting true], false).
Proof.
  intros Hin Hnone.
  assert (Hc : createFramedImage env selectedLayout images date = None).
  { unfold createFramedImage. cbv zeta.
    by rewrite (placePhotos_pending _ _ _ _ _ _ url Hin Hnone). }
  split; [exact Hc|]. unfold handleContinue. by rewrite Hc.
Qed.

Lemma undecodable_photo_blocks_witness :
  handleContinue page0 (mkEnv (fun _ => None) (fun _ _ => Throw TypeError))
    true (Some (fun _ => connectedPrinter)) 1 ["photo"%string] "11/02/26" 1
  = ([UiSetIsPrinting true], false).
Proof.
  apply (undecodable_photo_blocks page0 _ (fun _ => connectedPrinter) 1 ["photo"%string]
           "11/02/26" 1 "photo"%string); [by left | reflexivity].
Defined.

(** X18. A receipt of one to seven photos is printed as a raster 384
    wide and floor(384 * canvasHeight / 800) high, between 1 and 65535
    rows: the height field of the frame header holds the true height. *)
Theorem receipt_raster (page : Page) (env : Env) (selectedLayout : Z)
    (images : list string) (date : string) :
  images <> [] -> (length images <= 7)%nat ->
  (forall url, url ∈ images -> loadImage env url <> None) ->
  exists canvas,
    createFramedImage env selectedLayout images date = Some canvas
    /\ (loadImage env (toDataURL page canvas)
          = Some (canvas_width canvas, canvas_height canvas) ->
        resample env (toDataURL page canvas)
        = getImageData env 384 (384 * canvas_height canvas / 800))
    /\ 0 < 384 * canvas_height canvas / 800 < 65536
    /\ le16_value (le16 (384 * canvas_height canvas / 800))
       = 384 * canvas_height canvas / 800.
Proof.
  intros Hne Hn Hload.
  destruct (createFramedImage_spec env selectedLayout images date Hne Hload)
    as (canvas & Hc & Hw & Hh & _).
  exists canvas. split; [exact Hc|].
  assert (Hrange : 550 <= canvas_height canvas <= 8192).
  { rewrite Hh. destruct images; [done|]. cbn [length] in *.
    destruct (selectedLayout =? 1); lia. }
  assert (Hrows : 0 < 384 * canvas_height canvas / 800 < 65536).
  { pose proof (Z.div_mod (384 * canvas_height canvas) 800 ltac:(lia)).
    pose proof (Z.mod_pos_bound (384 * canvas_height canvas) 800 ltac:(lia)).
    lia. }
  split; [|split; [exact Hrows|]].
  - intros Hurl. rewrite (resample_loaded env _ _ _ Hurl), Hw.
    rewrite canvasSize_receipts by lia. apply readPixels_rows. lia.
  - rewrite le16_value_le16. apply Z.mod_small. lia.
Qed.

Lemma receipt_raster_witness :
  exists canvas,
    createFramedImage (browser 800 1590) 2 ["a"%string; "b"%string] "11/02/26"
      = Some canvas
    /\ 0 < 384 * canvas_height canvas / 800 < 65536.
Proof.
  destruct (receipt_raster page0 (browser 800 1590) 2 ["a"%string; "b"%string]
              "11/02/26") as (canvas & Hc & _ & Hr & _);
    [discriminate | cbn; lia | intros url _; discriminate |].
  exists canvas. split; [exact Hc | exact Hr].
Defined.
